(** * scallop: container image extraction and analysis

    A shallow embedding of the Go packages [internal/utils],
    [internal/docker] and [internal/analyzer] of kanywst/scallop, and the
    properties of its specification that were checked against it.

    Conventions.
    - Go [string]s are Rocq [string]s (sequences of bytes); comparison
      [<] on Go strings is bytewise lexicographic, i.e. [String.ltb].
    - [int64] sizes are [Z] with the two's-complement wrap-around written
      out ([wrap64]); [int] counters and indices count slice elements or
      directory entries and are unbounded [Z] or [nat].
    - Go [map]s are [gmap]s; slices are [list]s (a slice whose nil-ness is
      observable is an [option (list _)]).
    - A Go [error] result is an [option error]; [None] is [nil]. *)

From Stdlib Require Import ZArith Ascii String DecimalString.
From stdpp Require Import gmap strings list fin_maps sorting.

Set Default Proof Using "Type".

(** ** Package [strings] *)

Module strings.

Definition HasPrefix (s pre : string) : bool := String.prefix pre s.

Definition HasSuffix (s suf : string) : bool :=
  String.prefix (String.rev suf) (String.rev s).

(** [Contains s substr]: some suffix of [s] starts with [substr]. *)
Fixpoint Contains (s substr : string) : bool :=
  String.prefix substr s ||
  match s with
  | EmptyString => false
  | String _ s' => Contains s' substr
  end.

Definition lower_byte (c : ascii) : ascii :=
  let n := nat_of_ascii c in
  if (65 <=? n)%nat && (n <=? 90)%nat then ascii_of_nat (n + 32) else c.

(** [ToLower] on ASCII letters; bytes outside [A-Z] are kept. *)
Fixpoint ToLower (s : string) : string :=
  match s with
  | EmptyString => EmptyString
  | String c s' => String (lower_byte c) (ToLower s')
  end.

(** [Split s sep] for a non-empty separator [sep]. The recursion carries
    the current field [cur] (reversed) and the number [skip] of bytes of
    a separator occurrence that remain to be dropped. *)
Fixpoint split_go (sep cur : string) (skip : nat) (s : string) : list string :=
  match s with
  | EmptyString => [String.rev cur]
  | String c s' =>
      match skip with
      | S k => split_go sep cur k s'
      | O =>
          if String.prefix sep s
          then String.rev cur :: split_go sep EmptyString (String.length sep - 1) s'
          else split_go sep (String c cur) 0 s'
      end
  end.

Definition Split (s sep : string) : list string := split_go sep EmptyString 0 s.

Definition is_space (c : ascii) : bool := Ascii.is_space c.

Fixpoint trim_left (s : string) : string :=
  match s with
  | String c s' => if is_space c then trim_left s' else s
  | EmptyString => EmptyString
  end.

Definition TrimSpace (s : string) : string :=
  String.rev (trim_left (String.rev (trim_left s))).

Definition Join (elems : list string) (sep : string) : string :=
  String.concat sep elems.

End strings.

(** ** Package [path/filepath] (Unix) *)

Module filepath.

Definition Separator : string := "/".

(** One step of [Clean] on the stack [out] of elements kept so far
    (innermost first): empty and [.] elements vanish, [..] removes the
    element before it, except that it is dropped at the root of a rooted
    path and kept at the start of a relative one. *)
Definition clean_step (rooted : bool) (out : list string) (seg : string) : list string :=
  if decide (seg = "" ∨ seg = ".") then out
  else if decide (seg = "..") then
    match out with
    | top :: rest => if decide (top = "..") then seg :: out else rest
    | [] => if rooted then out else [seg]
    end
  else seg :: out.

Definition Clean (path : string) : string :=
  let rooted := String.prefix "/" path in
  let out := rev (foldl (clean_step rooted) [] (strings.Split path "/")) in
  match out with
  | [] => if rooted then "/" else "."
  | _ => (if rooted then "/" else "") +:+ String.concat "/" out
  end.

(** [Join]: empty leading elements are ignored, the rest is joined with
    the separator and cleaned; no non-empty element gives [""]. *)
Fixpoint Join (elem : list string) : string :=
  match elem with
  | [] => ""
  | e :: rest => if decide (e = "") then Join rest else Clean (String.concat "/" elem)
  end.

(** The bytes after the last separator, reversed, and the rest with the
    separator, also reversed. *)
Fixpoint cut_last (rs : string) (acc : string) : string * string :=
  match rs with
  | EmptyString => (acc, EmptyString)
  | String c rs' =>
      if decide (c = "/"%char) then (acc, rs) else cut_last rs' (String c acc)
  end.

Definition Dir (path : string) : string :=
  Clean (String.rev (snd (cut_last (String.rev path) ""))).

Fixpoint drop_slashes (rs : string) : string :=
  match rs with
  | String c rs' => if decide (c = "/"%char) then drop_slashes rs' else rs
  | EmptyString => EmptyString
  end.

Definition Base (path : string) : string :=
  if decide (path = "") then "."
  else
    let last := fst (cut_last (drop_slashes (String.rev path)) "") in
    if decide (last = "") then "/" else last.

(** [Ext]: scanning backwards from the end, up to the last separator,
    the suffix starting at the first [.] met. *)
Fixpoint ext_go (rs : string) (acc : string) : string :=
  match rs with
  | EmptyString => ""
  | String c rs' =>
      if decide (c = "/"%char) then ""
      else if decide (c = "."%char) then String c acc
      else ext_go rs' (String c acc)
  end.

Definition Ext (path : string) : string := ext_go (String.rev path) "".

End filepath.

(** ** Package [sort]: [sort.Strings] *)

Module sort.

(** [sort.Strings] sorts in increasing bytewise order. Equal strings are
    indistinguishable, so the result does not depend on the sorting
    algorithm; it is computed here by merge sort. *)
Definition Strings (x : list string) : list string := merge_sort String.le x.

(** *** [sort.Slice]

    [sort.Slice(x, less)] runs the pattern-defeating quicksort
    [pdqsort_func] of the Go standard library (Go 1.19 and later) on the
    slice, through [Less(i, j)] and [Swap(i, j)] on indices. The sort is
    not stable. The functions below follow [zsortfunc.go]; every loop
    is a structural recursion on the number of iterations left. *)

Section Slice.

Context {A : Type}.
Variable less : A → A → bool.

(** [data.Less(i, j)]: [less] on the current elements at [i] and [j]. *)
Definition Less (data : list A) (i j : nat) : bool :=
  match data !! i, data !! j with
  | Some x, Some y => less x y
  | _, _ => false
  end.

Definition Swap (data : list A) (i j : nat) : list A :=
  match data !! i, data !! j with
  | Some x, Some y => <[i := y]> (<[j := x]> data)
  | _, _ => data
  end.

(** [for j := i; j > a && Less(j, j-1); j-- { Swap(j, j-1) }] *)
Fixpoint insert_down (a j : nat) (data : list A) : list A :=
  match j with
  | O => data
  | S j' => if (a <? j) && Less data j j' then insert_down a j' (Swap data j j')
            else data
  end.

(** [for i := ...; i < b; i++], with [n = b - i] iterations left. *)
Fixpoint insertion_loop (a i n : nat) (data : list A) : list A :=
  match n with
  | O => data
  | S n' => insertion_loop a (S i) n' (insert_down a i data)
  end.

Definition insertionSort_func (data : list A) (a b : nat) : list A :=
  insertion_loop a (S a) (b - S a) data.

Fixpoint siftDown_loop (fuel root hi first : nat) (data : list A) : list A :=
  match fuel with
  | O => data
  | S fuel' =>
      let child := 2 * root + 1 in
      if hi <=? child then data
      else
        let child := if (child + 1 <? hi) && Less data (first + child) (first + child + 1)
                     then child + 1 else child in
        if negb (Less data (first + root) (first + child)) then data
        else siftDown_loop fuel' child hi first (Swap data (first + root) (first + child))
  end.

Definition siftDown_func (data : list A) (lo hi first : nat) : list A :=
  siftDown_loop hi lo hi first data.

(** [for i := (hi - 1) / 2; i >= 0; i-- { siftDown(i, hi, first) }] *)
Fixpoint heap_build (i hi first : nat) (data : list A) : list A :=
  let data := siftDown_func data i hi first in
  match i with
  | O => data
  | S i' => heap_build i' hi first data
  end.

(** [for i := hi - 1; i >= 0; i-- { Swap(first, first+i); siftDown(lo, i, first) }],
    with [k = i + 1]. *)
Fixpoint heap_pop (k first : nat) (data : list A) : list A :=
  match k with
  | O => data
  | S i => heap_pop i first (siftDown_func (Swap data first (first + i)) 0 i first)
  end.

Definition heapSort_func (data : list A) (a b : nat) : list A :=
  let first := a in
  let hi := b - a in
  heap_pop hi first (heap_build ((hi - 1) / 2) hi first data).

(** [bits.Len(uint(n))]: the number of bits of [n]. *)
Definition bits_Len (n : nat) : nat :=
  match n with
  | O => O
  | _ => S (Nat.log2 n)
  end.

Definition nextPowerOfTwo (length : nat) : Z := 2 ^ Z.of_nat (bits_Len length).

(** [xorshift.Next] on a [uint64] state. *)
Definition xorshift_Next (r : Z) : Z :=
  let r := Z.lxor r (Z.shiftl r 13 mod 2 ^ 64) in
  let r := Z.lxor r (Z.shiftr r 7) in
  Z.lxor r (Z.shiftl r 17 mod 2 ^ 64).

(** The three iterations of the loop of [breakPatterns_func]. *)
Fixpoint breakPatterns_loop (n i : nat) (random modulus : Z) (idx a length : nat)
    (data : list A) : list A :=
  match n with
  | O => data
  | S n' =>
      let random := xorshift_Next random in
      let other := Z.to_nat (Z.land random (modulus - 1)) in
      let other := if length <=? other then other - length else other in
      breakPatterns_loop n' (S i) random modulus idx a length
        (Swap data (idx - 1 + i) (a + other))
  end.

Definition breakPatterns_func (data : list A) (a b : nat) : list A :=
  let length := b - a in
  if 8 <=? length then
    breakPatterns_loop 3 0 (Z.of_nat length) (nextPowerOfTwo length)
      (a + (length / 4) * 2 - 1) a length data
  else data.

Inductive sortedHint : Type := unknownHint | increasingHint | decreasingHint.

(** [order2_func]: the two indices ordered by their elements, and the
    swap counter. *)
Definition order2_func (data : list A) (a b swaps : nat) : nat * nat * nat :=
  if Less data b a then (b, a, S swaps) else (a, b, swaps).

Definition median_func (data : list A) (a b c swaps : nat) : nat * nat :=
  let '(a, b, swaps) := order2_func data a b swaps in
  let '(b, c, swaps) := order2_func data b c swaps in
  let '(a, b, swaps) := order2_func data a b swaps in
  (b, swaps).

Definition medianAdjacent_func (data : list A) (a swaps : nat) : nat * nat :=
  median_func data (a - 1) a (a + 1) swaps.

Definition choosePivot_func (data : list A) (a b : nat) : nat * sortedHint :=
  let l := b - a in
  let i := a + l / 4 * 1 in
  let j := a + l / 4 * 2 in
  let k := a + l / 4 * 3 in
  let '(j, swaps) :=
    if 8 <=? l then
      let '(i, j, k, swaps) :=
        if 50 <=? l then
          let '(i, swaps) := medianAdjacent_func data i 0 in
          let '(j, swaps) := medianAdjacent_func data j swaps in
          let '(k, swaps) := medianAdjacent_func data k swaps in
          (i, j, k, swaps)
        else (i, j, k, 0) in
      median_func data i j k swaps
    else (j, 0) in
  match swaps with
  | 0 => (j, increasingHint)
  | 12 => (j, decreasingHint)
  | _ => (j, unknownHint)
  end.

(** [for i < j { Swap(i, j); i++; j-- }], at most [fuel] iterations. *)
Fixpoint reverse_loop (fuel i j : nat) (data : list A) : list A :=
  match fuel with
  | O => data
  | S fuel' => if i <? j then reverse_loop fuel' (S i) (j - 1) (Swap data i j) else data
  end.

Definition reverseRange_func (data : list A) (a b : nat) : list A :=
  reverse_loop (b - a) a (b - 1) data.

(** [for i < b && !Less(i, i-1) { i++ }], with [n = b - i]. *)
Fixpoint scan_sorted (n i : nat) (data : list A) : nat :=
  match n with
  | O => i
  | S n' => if negb (Less data i (i - 1)) then scan_sorted n' (S i) data else i
  end.

(** [for j := i - 1; j >= 1; j-- { if !Less(j, j-1) { break }; Swap(j, j-1) }] *)
Fixpoint shift_left (j : nat) (data : list A) : list A :=
  match j with
  | O => data
  | S j' => if negb (Less data j j') then data else shift_left j' (Swap data j j')
  end.

(** [for j := i + 1; j < b; j++ { if !Less(j, j-1) { break }; Swap(j, j-1) }],
    with [n = b - j]. *)
Fixpoint shift_right (n j : nat) (data : list A) : list A :=
  match n with
  | O => data
  | S n' => if negb (Less data j (j - 1)) then data
            else shift_right n' (S j) (Swap data j (j - 1))
  end.

(** The outer loop of [partialInsertionSort_func], [steps] rounds left. *)
Fixpoint partialInsertion_loop (steps i a b : nat) (data : list A) : list A * bool :=
  match steps with
  | O => (data, false)
  | S steps' =>
      let i := scan_sorted (b - i) i data in
      if i =? b then (data, true)
      else if b - a <? 50 then (data, false)
      else
        let data := Swap data i (i - 1) in
        let data := if 2 <=? i - a then shift_left (i - 1) data else data in
        let data := if 2 <=? b - i then shift_right (b - (i + 1)) (i + 1) data else data in
        partialInsertion_loop steps' i a b data
  end.

Definition partialInsertionSort_func (data : list A) (a b : nat) : list A * bool :=
  partialInsertion_loop 5 (a + 1) a b data.

(** [for i <= j && p(i) { i++ }], with [n = j + 1 - i]. *)
Fixpoint scan_up (p : nat → bool) (n i : nat) : nat :=
  match n with
  | O => i
  | S n' => if p i then scan_up p n' (S i) else i
  end.

(** [for i <= j && p(j) { j-- }] on [j1 = j + 1], so that [j1 = i]
    stands for [i > j]. *)
Fixpoint scan_down (p : nat → bool) (i j1 : nat) : nat :=
  match j1 with
  | O => O
  | S j => if (i <=? j) && p j then scan_down p i j else j1
  end.

(** The main loop of [partition_func] and [partitionEqual_func]: [up]
    and [down] are the conditions of the two inner loops, [j1 = j + 1];
    the result is the array with the final [i] and [j + 1]. *)
Fixpoint partition_loop (up down : list A → nat → bool) (fuel i j1 : nat)
    (data : list A) : list A * nat * nat :=
  match fuel with
  | O => (data, i, j1)
  | S fuel' =>
      let i := scan_up (up data) (j1 - i) i in
      let j1 := scan_down (down data) i j1 in
      if j1 <=? i then (data, i, j1)
      else partition_loop up down fuel' (S i) (j1 - 1) (Swap data i (j1 - 1))
  end.

Definition partitionEqual_func (data : list A) (a b pivot : nat) : list A * nat :=
  let data := Swap data a pivot in
  let '(data, i, _) :=
    partition_loop (λ d i, negb (Less d a i)) (λ d j, Less d a j)
      (b - a) (a + 1) b data in
  (data, i).

Definition partition_func (data : list A) (a b pivot : nat) : list A * nat * bool :=
  let data := Swap data a pivot in
  let i := scan_up (λ i, Less data i a) (b - (a + 1)) (a + 1) in
  let j1 := scan_down (λ j, negb (Less data j a)) i b in
  if j1 <=? i then (Swap data (j1 - 1) a, j1 - 1, true)
  else
    let data := Swap data i (j1 - 1) in
    let '(data, _, j1) :=
      partition_loop (λ d i, Less d i a) (λ d j, negb (Less d j a))
        (b - a) (S i) (j1 - 1) data in
    (Swap data (j1 - 1) a, j1 - 1, false).

(** [pdqsort_func(data, a, b, limit)]. One unfolding is one iteration
    of its [for] loop; [wasBalanced] and [wasPartitioned] are the loop
    variables, [true] on entry. Each iteration and each recursive call
    works on a strictly shorter range, so [fuel = b - a + 1] is
    enough. *)
Fixpoint pdqsort_loop (fuel : nat) (data : list A) (a b limit : nat)
    (wasBalanced wasPartitioned : bool) : list A :=
  match fuel with
  | O => data
  | S fuel' =>
      let length := b - a in
      if length <=? 12 then insertionSort_func data a b
      else if limit =? 0 then heapSort_func data a b
      else
        let '(data, limit) :=
          if negb wasBalanced then (breakPatterns_func data a b, limit - 1)
          else (data, limit) in
        let '(pivot, hint) := choosePivot_func data a b in
        let '(data, pivot, hint) :=
          match hint with
          | decreasingHint =>
              (reverseRange_func data a b, (b - 1) - (pivot - a), increasingHint)
          | _ => (data, pivot, hint)
          end in
        let '(data, done) :=
          match hint with
          | increasingHint =>
              if wasBalanced && wasPartitioned
              then partialInsertionSort_func data a b else (data, false)
          | _ => (data, false)
          end in
        if done then data
        else if (0 <? a) && negb (Less data (a - 1) pivot) then
          let '(data, mid) := partitionEqual_func data a b pivot in
          pdqsort_loop fuel' data mid b limit wasBalanced wasPartitioned
        else
          let '(data, mid, alreadyPartitioned) := partition_func data a b pivot in
          let leftLen := mid - a in
          let rightLen := b - mid in
          let balanceThreshold := length / 8 in
          if leftLen <? rightLen then
            let data := pdqsort_loop fuel' data a mid limit true true in
            pdqsort_loop fuel' data (mid + 1) b limit
              (balanceThreshold <=? leftLen) alreadyPartitioned
          else
            let data := pdqsort_loop fuel' data (mid + 1) b limit true true in
            pdqsort_loop fuel' data a mid limit
              (balanceThreshold <=? rightLen) alreadyPartitioned
  end.

Definition pdqsort_func (data : list A) (a b limit : nat) : list A :=
  pdqsort_loop (S (b - a)) data a b limit true true.

Definition Slice (x : list A) : list A :=
  let length := List.length x in
  let limit := bits_Len length in
  pdqsort_func x 0 length limit.

End Slice.

End sort.

(** ** Errors *)

Inductive error : Type :=
  | ErrOpenTar            (* "failed to open tar file: ..." *)
  | ErrReadTar            (* "error reading tar file: ..." *)
  | ErrPathTraversal      (* "invalid tar file: contains path traversal attack" *)
  | ErrCreateDir          (* "failed to create directory: ..." *)
  | ErrCreateFile         (* "failed to create file: ..." *)
  | ErrCopyContent        (* "failed to copy file content: ..." *)
  | ErrSymlink            (* "failed to create symlink: ..." *)
  | ErrCreateImageDir     (* "failed to create image directory: ..." *)
  | ErrGzipReader         (* "failed to create gzip reader: ..." *)
  | ErrCreateExtractedDir (* "failed to create extracted directory: ..." *)
  | ErrExtractLayerTarball (cause : error) (* "failed to extract layer tarball: ..." *)
  | ErrExtractLayers (cause : error)       (* "failed to extract layers: ..." *)
  | ErrReadDir            (* a directory that cannot be listed *)
  | ErrTooLong.           (* bufio.ErrTooLong *)

Global Instance error_eq_dec : EqDecision error.
Proof. solve_decision. Defined.

(** ** Package [archive/tar]: what a reader yields *)

Module tar.

Definition TypeReg : ascii := "0".
Definition TypeSymlink : ascii := "2".
Definition TypeDir : ascii := "5".

Record Header : Type := mkHeader {
  Name : string;
  Typeflag : ascii;
  Linkname : string;
  Mode : Z
}.

(** One call of [Reader.Next]: a header, with the body that [io.Copy]
    reads after it ([intact = false]: the body ends early and the copy
    fails after writing [body]), or a malformed header. The end of the
    list is [io.EOF]. *)
Inductive item : Type :=
  | Entry (h : Header) (body : string) (intact : bool)
  | Corrupt.

End tar.

(** ** The file system the extractor writes to

    A flat map from cleaned path names to nodes. Paths are resolved
    lexically: a symbolic link is a leaf and is not followed. *)

Module os.

Inductive fsnode : Type :=
  | FsDir
  | FsFile (mode : Z) (data : string)
  | FsSymlink (target : string).

Global Instance fsnode_eq_dec : EqDecision fsnode.
Proof. solve_decision. Defined.

Abbreviation filesystem := (gmap string fsnode).

(** The root, the current directory and a path ending in [..] exist
    without being listed. *)
Definition implicit_dir (p : string) : bool :=
  bool_decide (p = "/" ∨ p = "." ∨ filepath.Base p = "..").

Definition IsDir (fs : filesystem) (p : string) : bool :=
  implicit_dir p || bool_decide (fs !! p = Some FsDir).

(** The chain of directories [MkdirAll] goes through: [p] and all its
    ancestors, outermost first. *)
Fixpoint chain_go (prefix : string) (segs : list string) : list string :=
  match segs with
  | [] => []
  | seg :: rest =>
      let p := if decide (prefix = "" ∨ prefix = "/") then prefix +:+ seg
               else prefix +:+ "/" +:+ seg in
      p :: chain_go p rest
  end.

Definition chain (p : string) : list string :=
  let c := filepath.Clean p in
  chain_go (if String.prefix "/" c then "/" else "")
           (filter (λ seg, seg ≠ "") (strings.Split c "/")).

Fixpoint mkdir_chain (ps : list string) (fs : filesystem) : filesystem * bool :=
  match ps with
  | [] => (fs, true)
  | p :: rest =>
      if implicit_dir p then mkdir_chain rest fs
      else match fs !! p with
           | None => mkdir_chain rest (<[p := FsDir]> fs)
           | Some FsDir => mkdir_chain rest fs
           | Some _ => (fs, false)
           end
  end.

(** [MkdirAll path perm]: creates [path] and the missing ancestors;
    fails at the first one that exists and is not a directory, keeping
    what was created before. *)
Definition MkdirAll (path : string) (fs : filesystem) : filesystem * bool :=
  mkdir_chain (chain path) fs.

(** [OpenFile name (O_CREATE|O_WRONLY) mode] followed by [io.Copy] of
    [body] and [Close]. An existing regular file is overwritten from
    its start without truncation and keeps its mode. *)
Definition WriteFile (name : string) (mode : Z) (body : string) (fs : filesystem)
  : option filesystem :=
  if implicit_dir name then None
  else match fs !! name with
       | Some (FsFile m old) =>
           Some (<[name := FsFile m (body +:+ String.substring (String.length body)
                                       (String.length old - String.length body) old)]> fs)
       | Some _ => None
       | None =>
           if IsDir fs (filepath.Dir name)
           then Some (<[name := FsFile mode body]> fs) else None
       end.

(** [Symlink oldname newname]: fails when [newname] exists or its
    parent directory does not. *)
Definition Symlink (oldname newname : string) (fs : filesystem) : option filesystem :=
  if implicit_dir newname then None
  else match fs !! newname with
       | Some _ => None
       | None =>
           if IsDir fs (filepath.Dir newname)
           then Some (<[newname := FsSymlink oldname]> fs) else None
       end.

(** [Readdirnames] followed by [sort.Strings]: the sorted names of the
    entries directly under [dir]. *)
Definition readdir_sorted (fs : filesystem) (dir : string) : list string :=
  sort.Strings
    (map (λ kv, filepath.Base kv.1)
         (filter (λ kv : string * fsnode, kv.1 ≠ dir ∧ filepath.Dir kv.1 = dir)
                 (map_to_list fs))).

End os.

(** ** Extraction: [utils.ExtractTar] and package [docker]

    The library decoders are parameters: [untar data] is the sequence of
    items a [tar.Reader] over the bytes [data] yields, and [gunzip data]
    is the decompressed stream of a [gzip.Reader] over [data] ([None]:
    [gzip.NewReader] rejects it). *)

Section Extraction.

Variable untar : string → list tar.item.
Variable gunzip : string → option string.

(** The [switch header.Typeflag] of the extraction loop. *)
Definition extractEntry (h : tar.Header) (body : string) (intact : bool)
    (target : string) (fs : os.filesystem) : os.filesystem * option error :=
  if decide (tar.Typeflag h = tar.TypeDir) then
    let '(fs1, ok) := os.MkdirAll target fs in
    (fs1, if ok then None else Some ErrCreateDir)
  else if decide (tar.Typeflag h = tar.TypeReg) then
    let '(fs1, ok) := os.MkdirAll (filepath.Dir target) fs in
    if negb ok then (fs1, Some ErrCreateDir)
    else match os.WriteFile target (tar.Mode h) body fs1 with
         | None => (fs1, Some ErrCreateFile)
         | Some fs2 => (fs2, if intact then None else Some ErrCopyContent)
         end
  else if decide (tar.Typeflag h = tar.TypeSymlink) then
    match os.Symlink (tar.Linkname h) target fs with
    | None => (fs, Some ErrSymlink)
    | Some fs1 => (fs1, None)
    end
  else (fs, None).

(** The [for] loop over [tarReader.Next()], shared verbatim by
    [ExtractTar] and [extractFromTarFile]. *)
Fixpoint extractItems (items : list tar.item) (destDir : string)
    (fs : os.filesystem) : os.filesystem * option error :=
  match items with
  | [] => (fs, None)
  | tar.Corrupt :: _ => (fs, Some ErrReadTar)
  | tar.Entry h body intact :: rest =>
      let target := filepath.Join [destDir; tar.Name h] in
      if negb (strings.HasPrefix target destDir) then (fs, Some ErrPathTraversal)
      else
        match extractEntry h body intact target fs with
        | (fs1, Some e) => (fs1, Some e)
        | (fs1, None) => extractItems rest destDir fs1
        end
  end.

(** [os.Open] of the tarball: a regular file gives its bytes, a
    directory opens but cannot be read, anything else fails to open. *)
Definition openTar (tarPath : string) (fs : os.filesystem) : option (list tar.item) :=
  match fs !! tarPath with
  | Some (os.FsFile _ data) => Some (untar data)
  | Some os.FsDir => Some [tar.Corrupt]
  | _ => None
  end.

Definition ExtractTar (tarPath destDir : string) (fs : os.filesystem)
  : os.filesystem * option error :=
  match openTar tarPath fs with
  | None => (fs, Some ErrOpenTar)
  | Some items => extractItems items destDir fs
  end.

(** [filepath.Glob(filepath.Join(imageDir, "*/layer.tar"))]: for every
    entry of [imageDir] that is a directory, in name order, its entry
    [layer.tar] when there is one. *)
Definition globLayerTars (imageDir : string) (fs : os.filesystem) : list string :=
  if os.IsDir fs imageDir then
    flat_map (λ name,
      let d := filepath.Join [imageDir; name] in
      let layerPath := filepath.Join [d; "layer.tar"] in
      if os.IsDir fs d && bool_decide (is_Some (fs !! layerPath))
      then [layerPath] else [])
      (os.readdir_sorted fs imageDir)
  else [].

Fixpoint extractLayerList (layerPaths : list string) (fs : os.filesystem)
  : os.filesystem * option error :=
  match layerPaths with
  | [] => (fs, None)
  | layerPath :: rest =>
      let layerDir := filepath.Dir layerPath in
      let extractedDir := filepath.Join [layerDir; "extracted"] in
      let '(fs1, ok) := os.MkdirAll extractedDir fs in
      if negb ok then (fs1, Some ErrCreateExtractedDir)
      else match ExtractTar layerPath extractedDir fs1 with
           | (fs2, Some e) => (fs2, Some (ErrExtractLayerTarball e))
           | (fs2, None) => extractLayerList rest fs2
           end
  end.

Definition extractLayers (imageDir : string) (fs : os.filesystem)
  : os.filesystem * option error :=
  extractLayerList (globLayerTars imageDir fs) fs.

(** [extractFromTarFile]: the result is the image directory, or the
    error; the file system is returned in both cases. *)
Definition extractFromTarFile (tarPath destDir : string) (fs : os.filesystem)
  : os.filesystem * (string + error) :=
  match fs !! tarPath with
  | Some (os.FsFile _ _) | Some os.FsDir =>
      let imageDir := filepath.Join [destDir; "image"] in
      let '(fs1, ok) := os.MkdirAll imageDir fs in
      if negb ok then (fs1, inr ErrCreateImageDir)
      else
        let stream :=
          match fs !! tarPath with
          | Some (os.FsFile _ data) =>
              if strings.HasSuffix tarPath ".gz" || strings.HasSuffix tarPath ".tgz"
              then untar <$> gunzip data
              else Some (untar data)
          | _ => Some [tar.Corrupt]
          end in
        match stream with
        | None => (fs1, inr ErrGzipReader)
        | Some items =>
            match extractItems items imageDir fs1 with
            | (fs2, Some e) => (fs2, inr e)
            | (fs2, None) =>
                match extractLayers imageDir fs2 with
                | (fs3, Some e) => (fs3, inr (ErrExtractLayers e))
                | (fs3, None) => (fs3, inl imageDir)
                end
            end
        end
  | _ => (fs, inr ErrOpenTar)
  end.

End Extraction.

(** A path is inside a directory when it is the directory or lies below
    it; this is the containment the extractor is specified to enforce. *)
Definition inside (dir path : string) : Prop :=
  path = dir ∨ strings.HasPrefix path (dir +:+ "/") = true.

Global Instance inside_dec dir path : Decision (inside dir path).
Proof. unfold inside. apply _. Defined.

(** ** The unpacked tree the analyzers read

    A non-directory entry has a size and, when it can be opened, its
    bytes; a directory has a size and, when it can be listed, its named
    entries. A directory that cannot be listed makes [filepath.Walk]
    report an error at that directory. A file that opens is read to its
    end: a read that fails after a successful open (a link to a
    directory, an input error) is outside the model. *)

#[warnings="-register-all"]
Inductive node : Type :=
  | File (size : Z) (content : option string)
  | Dir (size : Z) (entries : option (list (string * node))).

Definition IsDir (info : node) : bool :=
  match info with
  | Dir _ _ => true
  | File _ _ => false
  end.

Definition Size (info : node) : Z :=
  match info with
  | Dir sz _ | File sz _ => sz
  end.

(** [int64] addition. *)
Definition wrap64 (z : Z) : Z := (z + 2 ^ 63) mod 2 ^ 64 - 2 ^ 63.
Definition add64 (x y : Z) : Z := wrap64 (x + y).

(** The names of a directory are distinct and [filepath.Walk] and
    [filepath.Glob] visit them in increasing order; the order of a list
    with distinct names is computed by insertion. *)
Fixpoint insert_entry {B : Type} (e : string * B) (es : list (string * B)) : list (string * B) :=
  match es with
  | [] => [e]
  | e' :: rest =>
      if String.leb e.1 e'.1 then e :: es else e' :: insert_entry e rest
  end.

Definition sort_entries {B : Type} (es : list (string * B)) : list (string * B) :=
  foldr insert_entry [] es.

(** [filepath.Rel(imagePath, path)] for the path that [Walk] builds
    from [imagePath] through the entries [rel]. *)
Definition Rel (rel : list string) : string :=
  match rel with
  | [] => "."
  | _ => String.concat "/" rel
  end.

Section Walk.

Context {St : Type}.

(** A [filepath.WalkFunc] closing over a state [St]: it receives the
    path, the entry names from the root to it, the [FileInfo] and the
    error of listing it, and returns the new state and its error. *)
Definition WalkFunc : Type :=
  string → list string → node → option error → St → St * option error.

Variable fn : WalkFunc.

(** The loop of [walk] over the sorted names of a directory. *)
Fixpoint walk_names (ws : list (string * (string → list string → St → St * option error)))
    (path : string) (rel : list string) (s : St) : St * option error :=
  match ws with
  | [] => (s, None)
  | (name, w) :: rest =>
      match w (filepath.Join [path; name]) (rel ++ [name]) s with
      | (s1, Some e) => (s1, Some e)
      | (s1, None) => walk_names rest path rel s1
      end
  end.

Fixpoint walk (info : node) (path : string) (rel : list string) (s : St)
  : St * option error :=
  match info with
  | File _ _ => fn path rel info None s
  | Dir _ None => fn path rel info (Some ErrReadDir) s
  | Dir _ (Some es) =>
      match fn path rel info None s with
      | (s1, Some e) => (s1, Some e)
      | (s1, None) =>
          walk_names (sort_entries (map (λ e, (e.1, walk e.2)) es)) path rel s1
      end
  end.

Definition Walk (root : string) (tree : node) (s : St) : St * option error :=
  walk tree root [] s.

End Walk.

(** ** Directory analyzer ([directory.go]) *)

Module DirectoryInfo.
Record t : Type := mk {
  Path : string;
  Size : Z;
  FileCount : Z;
  DirCount : Z;
  Files : option (list string);
  FileTypes : gmap string Z;
  Dirs : option (list string)
}.
End DirectoryInfo.

(** [append(s, x)] on a slice that may be nil. *)
Definition append1 {B : Type} (s : option (list B)) (x : B) : option (list B) :=
  Some (default [] s ++ [x]).

(** [m[k]++] and [m[k] += v]: a missing key reads as zero. *)
Definition map_add (k : string) (v : Z) (m : gmap string Z) : gmap string Z :=
  <[k := (default 0 (m !! k) + v)%Z]> m.

Definition analyzeDirectoryFn (verbose : bool) : @WalkFunc DirectoryInfo.t :=
  λ path rel fileInfo err info,
    match err with
    | Some e => (info, Some e)
    | None =>
        if decide (rel = []) then (info, None)
        else
          let relPath := Rel rel in
          if IsDir fileInfo then
            (DirectoryInfo.mk (DirectoryInfo.Path info) (DirectoryInfo.Size info)
               (DirectoryInfo.FileCount info) (DirectoryInfo.DirCount info + 1)
               (DirectoryInfo.Files info) (DirectoryInfo.FileTypes info)
               (if verbose then append1 (DirectoryInfo.Dirs info) relPath
                else DirectoryInfo.Dirs info), None)
          else
            let ext := strings.ToLower (filepath.Ext path) in
            let ext := if decide (ext = "") then "[no extension]" else ext in
            (DirectoryInfo.mk (DirectoryInfo.Path info)
               (add64 (DirectoryInfo.Size info) (Size fileInfo))
               (DirectoryInfo.FileCount info + 1) (DirectoryInfo.DirCount info)
               (if verbose then append1 (DirectoryInfo.Files info) relPath
                else DirectoryInfo.Files info)
               (map_add ext 1 (DirectoryInfo.FileTypes info))
               (DirectoryInfo.Dirs info), None)
    end.

(** [sort.Strings] on a slice that may be nil. *)
Definition sort_Strings_slice (s : option (list string)) : option (list string) :=
  sort.Strings <$> s.

Definition AnalyzeDirectory (imagePath : string) (tree : node) (verbose : bool)
  : DirectoryInfo.t * option error :=
  let info := DirectoryInfo.mk imagePath 0 0 0 None ∅ None in
  let '(info, err) := Walk (analyzeDirectoryFn verbose) imagePath tree info in
  let info :=
    if verbose then
      DirectoryInfo.mk (DirectoryInfo.Path info) (DirectoryInfo.Size info)
        (DirectoryInfo.FileCount info) (DirectoryInfo.DirCount info)
        (sort_Strings_slice (DirectoryInfo.Files info)) (DirectoryInfo.FileTypes info)
        (sort_Strings_slice (DirectoryInfo.Dirs info))
    else info in
  (info, err).

Definition getDirSizeFn : @WalkFunc Z :=
  λ _ _ info err size,
    match err with
    | Some e => (size, Some e)
    | None => (if IsDir info then size else add64 size (Size info), None)
    end.

Definition getDirSize (path : string) (tree : node) : Z * option error :=
  Walk getDirSizeFn path tree 0%Z.

(** [dirs[:count]] when [count > 0 && count < len(dirs)]. *)
Definition top {B : Type} (count : Z) (l : list B) : list B :=
  if bool_decide (0 < count ∧ count < Z.of_nat (length l))%Z
  then take (Z.to_nat count) l else l.

Definition getTopDirectoriesFn : @WalkFunc (list DirectoryInfo.t) :=
  λ path rel fileInfo err dirs,
    match err with
    | Some e => (dirs, Some e)
    | None =>
        if bool_decide (rel = []) || negb (IsDir fileInfo) then (dirs, None)
        else
          match getDirSize path fileInfo with
          | (_, Some e) => (dirs, Some e)
          | (size, None) =>
              (dirs ++ [DirectoryInfo.mk (Rel rel) size 0 0 None ∅ None], None)
          end
    end.

Definition GetTopDirectories (imagePath : string) (tree : node) (count : Z)
  : option (list DirectoryInfo.t) * option error :=
  match Walk getTopDirectoriesFn imagePath tree [] with
  | (_, Some e) => (None, Some e)
  | (dirs, None) =>
      let dirs := sort.Slice (λ x y, (DirectoryInfo.Size y <? DirectoryInfo.Size x)%Z) dirs in
      (Some (top count dirs), None)
  end.

(** ** Size analyzer ([size.go]) *)

Module LayerSize.
Record t : Type := mk { ID : string; Size : Z }.
End LayerSize.

Module FileSize.
Record t : Type := mk { Path : string; Size : Z }.
End FileSize.

Module SizeInfo.
Record t : Type := mk {
  TotalSize : Z;
  LayerSizes : list LayerSize.t;
  LargestFiles : list FileSize.t;
  LargestDirs : list DirectoryInfo.t;
  FileTypeBreakdown : gmap string Z
}.
End SizeInfo.

(** The entry called [name] of a directory that can be listed. *)
Definition entry (info : node) (name : string) : option node :=
  match info with
  | Dir _ (Some es) => snd <$> List.find (λ e, bool_decide (e.1 = name)) es
  | _ => None
  end.

(** [filepath.Glob(filepath.Join(imagePath, "*/layer.tar"))] with the
    [FileInfo] that [os.Stat] gives for each match. Entries that are not
    directories or cannot be listed are passed over silently. The image
    path is taken literally: a path with a pattern character of
    [filepath.Match], for which [Glob] matches other directories or
    rejects the pattern, is outside the model, and so is a match that
    [os.Stat] cannot resolve. *)
Definition globLayers (imagePath : string) (tree : node) : list (string * node) :=
  match tree with
  | Dir _ (Some es) =>
      flat_map (λ e : string * node,
        match entry e.2 "layer.tar" with
        | Some layer =>
            [(filepath.Join [filepath.Join [imagePath; e.1]; "layer.tar"], layer)]
        | None => []
        end) (sort_entries es)
  | _ => []
  end.

Definition collectLayerSizes (layers : list (string * node)) : list LayerSize.t :=
  foldl (λ layerSizes l,
    let layerDir := filepath.Dir l.1 in
    let layerID := filepath.Base layerDir in
    layerSizes ++ [LayerSize.mk layerID (Size l.2)]) [] layers.

Definition getLayerSizes (imagePath : string) (tree : node)
  : option (list LayerSize.t) * option error :=
  let layerSizes := collectLayerSizes (globLayers imagePath tree) in
  (Some (sort.Slice (λ x y, (LayerSize.Size y <? LayerSize.Size x)%Z) layerSizes), None).

Definition getLargestFilesFn : @WalkFunc (list FileSize.t) :=
  λ path rel info err files,
    match err with
    | Some e => (files, Some e)
    | None =>
        if IsDir info then (files, None)
        else (files ++ [FileSize.mk (Rel rel) (Size info)], None)
    end.

Definition getLargestFiles (imagePath : string) (tree : node) (count : Z)
  : option (list FileSize.t) * option error :=
  match Walk getLargestFilesFn imagePath tree [] with
  | (_, Some e) => (None, Some e)
  | (files, None) =>
      let files := sort.Slice (λ x y, (FileSize.Size y <? FileSize.Size x)%Z) files in
      (Some (top count files), None)
  end.

Definition getFileTypeBreakdownFn : @WalkFunc (gmap string Z) :=
  λ path rel info err fileTypeBreakdown,
    match err with
    | Some e => (fileTypeBreakdown, Some e)
    | None =>
        if IsDir info then (fileTypeBreakdown, None)
        else
          let ext := filepath.Ext path in
          let ext := if decide (ext = "") then "[no extension]" else ext in
          (<[ext := add64 (default 0%Z (fileTypeBreakdown !! ext)) (Size info)]>
             fileTypeBreakdown, None)
    end.

Definition getFileTypeBreakdown (imagePath : string) (tree : node)
  : gmap string Z * option error :=
  Walk getFileTypeBreakdownFn imagePath tree ∅.

Definition AnalyzeSize (imagePath : string) (tree : node)
  : option SizeInfo.t * option error :=
  match getDirSize imagePath tree with
  | (_, Some e) => (None, Some e)
  | (totalSize, None) =>
  match getLayerSizes imagePath tree with
  | (Some layerSizes, None) =>
  match getLargestFiles imagePath tree 10 with
  | (Some largestFiles, None) =>
  match GetTopDirectories imagePath tree 5 with
  | (Some largestDirs, None) =>
  match getFileTypeBreakdown imagePath tree with
  | (_, Some e) => (None, Some e)
  | (fileTypeBreakdown, None) =>
      (Some (SizeInfo.mk totalSize layerSizes largestFiles largestDirs fileTypeBreakdown),
       None)
  end
  | (_, e) => (None, e)
  end
  | (_, e) => (None, e)
  end
  | (_, e) => (None, e)
  end
  end.

(** ** Package [regexp]

    Regular expressions over bytes, matched with Brzozowski derivatives.
    [MatchString] looks for a match anywhere in the string. *)

Module regexp.

Inductive Regexp : Type :=
  | Void
  | Eps
  | Cls (p : ascii → bool)
  | Cat (r1 r2 : Regexp)
  | Alt (r1 r2 : Regexp)
  | Star (r : Regexp).

Fixpoint nullable (r : Regexp) : bool :=
  match r with
  | Void => false
  | Eps => true
  | Cls _ => false
  | Cat r1 r2 => nullable r1 && nullable r2
  | Alt r1 r2 => nullable r1 || nullable r2
  | Star _ => true
  end.

Definition cat (r1 r2 : Regexp) : Regexp :=
  match r1, r2 with
  | Void, _ | _, Void => Void
  | Eps, _ => r2
  | _, _ => Cat r1 r2
  end.

Definition alt (r1 r2 : Regexp) : Regexp :=
  match r1, r2 with
  | Void, _ => r2
  | _, Void => r1
  | _, _ => Alt r1 r2
  end.

Fixpoint deriv (c : ascii) (r : Regexp) : Regexp :=
  match r with
  | Void | Eps => Void
  | Cls p => if p c then Eps else Void
  | Cat r1 r2 =>
      alt (cat (deriv c r1) r2) (if nullable r1 then deriv c r2 else Void)
  | Alt r1 r2 => alt (deriv c r1) (deriv c r2)
  | Star r1 => cat (deriv c r1) (Star r1)
  end.

(** Some prefix of [s] matches [r]. *)
Fixpoint match_prefix (r : Regexp) (s : string) : bool :=
  nullable r ||
  match s with
  | EmptyString => false
  | String c s' => match_prefix (deriv c r) s'
  end.

Fixpoint MatchString (r : Regexp) (s : string) : bool :=
  match_prefix r s ||
  match s with
  | EmptyString => false
  | String _ s' => MatchString r s'
  end.

(** *** Syntax used by the secret patterns *)

(** A literal under the flag [(?i)]. *)
Fixpoint lit_i (s : string) : Regexp :=
  match s with
  | EmptyString => Eps
  | String c s' =>
      Cat (Cls (λ x, bool_decide (strings.lower_byte x = strings.lower_byte c))) (lit_i s')
  end.

Definition chr (c : ascii) : Regexp := Cls (λ x, bool_decide (x = c)).

(** [r?] *)
Definition opt (r : Regexp) : Regexp := Alt r Eps.

(** [r{n,}] *)
Fixpoint at_least (n : nat) (r : Regexp) : Regexp :=
  match n with
  | O => Star r
  | S n' => Cat r (at_least n' r)
  end.

(** [\s] is [[\t\n\f\r ]]. *)
Definition space : Regexp :=
  Cls (λ x, bool_decide (x ∈ ["009"; "010"; "012"; "013"; " "]%char)).

(** The class of the two quote characters (single, double) and its
    complement. *)
Definition quote : Regexp := Cls (λ x, bool_decide (x = "039" ∨ x = "034")%char).
Definition not_quote : Regexp := Cls (λ x, negb (bool_decide (x = "039" ∨ x = "034")%char)).

(** [[_-]?] *)
Definition sep : Regexp := opt (Cls (λ x, bool_decide (x = "_" ∨ x = "-")%char)).

Fixpoint seq (rs : list Regexp) : Regexp :=
  match rs with
  | [] => Eps
  | r :: rest => Cat r (seq rest)
  end.

(** Under [(?i)]: the key, [\s*=\s*], a quote, at least [n] bytes
    that are not quotes, a quote. *)
Definition assignment (key : Regexp) (n : nat) : Regexp :=
  seq [key; Star space; chr "="; Star space; quote; at_least n not_quote; quote].

End regexp.

(** ** Package [bufio]: a [Scanner] with the default line splitter *)

Module bufio.

Definition MaxScanTokenSize : nat := 64 * 1024.

Definition newline : string := String "010" EmptyString.

(** [dropCR] *)
Definition dropCR (line : string) : string :=
  match String.rev line with
  | String "013" r => String.rev r
  | _ => line
  end.

(** The newline-separated pieces of the input; a final piece that is
    empty (empty input, or input ending in a newline) is no line. *)
Definition pieces (data : string) : list string :=
  let ps := strings.Split data newline in
  match reverse ps with
  | EmptyString :: front => reverse front
  | _ => ps
  end.

(** The successive [Scan]/[Text] results and the final [Err]: scanning
    stops with [ErrTooLong] at the first line that does not fit the
    buffer. *)
Fixpoint scan (ps : list string) : list string * option error :=
  match ps with
  | [] => ([], None)
  | p :: rest =>
      if (MaxScanTokenSize <=? String.length p)%nat then ([], Some ErrTooLong)
      else let '(ls, e) := scan rest in (dropCR p :: ls, e)
  end.

Definition ScanLines (data : string) : list string * option error :=
  scan (pieces data).

End bufio.

(** [strconv.Itoa] on a line number. *)
Definition Itoa (n : nat) : string := NilEmpty.string_of_uint (Nat.to_uint n).

(** ** Security analyzer ([security.go]) *)

Module SecurityIssue.
Record t : Type := mk {
  Type_ : string;
  Path : string;
  Description : string;
  Severity : string
}.

Global Instance eq_dec : EqDecision t.
Proof. solve_decision. Defined.
End SecurityIssue.

Module SecurityResult.
Record t : Type := mk {
  Issues : list SecurityIssue.t;
  TotalIssues : Z;
  HighSeverity : Z;
  MediumSeverity : Z;
  LowSeverity : Z
}.
End SecurityResult.

Record sensitivePattern : Type := mkSensitive {
  sp_pattern : string;
  sp_severity : string;
  sp_desc : string
}.

Definition sensitivePatterns : list sensitivePattern := [
  mkSensitive ".env" "HIGH" "Environment file may contain sensitive information";
  mkSensitive ".aws/credentials" "HIGH" "AWS credentials file";
  mkSensitive ".ssh/id_rsa" "HIGH" "SSH private key";
  mkSensitive ".ssh/id_dsa" "HIGH" "SSH private key";
  mkSensitive ".ssh/id_ecdsa" "HIGH" "SSH private key";
  mkSensitive ".ssh/id_ed25519" "HIGH" "SSH private key";
  mkSensitive "config.json" "MEDIUM" "Configuration file may contain sensitive information";
  mkSensitive "credentials.json" "HIGH" "Credentials file";
  mkSensitive "secrets.json" "HIGH" "Secrets file";
  mkSensitive "password" "HIGH" "Password file";
  mkSensitive ".npmrc" "MEDIUM" "NPM configuration file may contain tokens";
  mkSensitive ".dockercfg" "MEDIUM" "Docker configuration file may contain credentials";
  mkSensitive ".docker/config.json" "MEDIUM" "Docker configuration file may contain credentials";
  mkSensitive "id_rsa" "HIGH" "SSH private key";
  mkSensitive "id_dsa" "HIGH" "SSH private key";
  mkSensitive "id_ecdsa" "HIGH" "SSH private key";
  mkSensitive "id_ed25519" "HIGH" "SSH private key"
].

(** The loop over the patterns with its [break]: the first pattern found
    in the lower-cased relative path adds one issue. *)
Fixpoint matchSensitive (patterns : list sensitivePattern) (relPath : string)
    (issues : list SecurityIssue.t) : list SecurityIssue.t :=
  match patterns with
  | [] => issues
  | pattern :: rest =>
      if strings.Contains (strings.ToLower relPath) (sp_pattern pattern)
      then issues ++ [SecurityIssue.mk "SENSITIVE_FILE" relPath
                        (sp_desc pattern) (sp_severity pattern)]
      else matchSensitive rest relPath issues
  end.

Definition findSensitiveFilesFn : @WalkFunc (list SecurityIssue.t) :=
  λ path rel info err issues,
    match err with
    | Some e => (issues, Some e)
    | None =>
        if IsDir info then (issues, None)
        else (matchSensitive sensitivePatterns (Rel rel) issues, None)
    end.

Definition findSensitiveFiles (imagePath : string) (tree : node)
  : list SecurityIssue.t * option error :=
  Walk findSensitiveFilesFn imagePath tree [].

Record secretPattern : Type := mkSecret {
  sc_regex : regexp.Regexp;
  sc_severity : string;
  sc_desc : string
}.

Definition secretPatterns : list secretPattern :=
  let key := regexp.lit_i in
  let sep := regexp.sep in
  [ mkSecret (regexp.assignment (key "password") 8) "HIGH" "Hardcoded password";
    mkSecret (regexp.assignment (key "passwd") 8) "HIGH" "Hardcoded password";
    mkSecret (regexp.assignment (key "pwd") 8) "HIGH" "Hardcoded password";
    mkSecret (regexp.assignment (key "secret") 8) "HIGH" "Hardcoded secret";
    mkSecret (regexp.assignment (regexp.seq [key "api"; sep; key "key"]) 8)
      "HIGH" "Hardcoded API key";
    mkSecret (regexp.assignment (regexp.seq [key "access"; sep; key "key"]) 8)
      "HIGH" "Hardcoded access key";
    mkSecret (regexp.assignment (key "token") 8) "HIGH" "Hardcoded token";
    mkSecret (regexp.assignment
                (regexp.seq [key "aws"; sep; key "access"; sep; key "key"; sep; key "id"]) 16)
      "HIGH" "Hardcoded AWS access key";
    mkSecret (regexp.assignment
                (regexp.seq [key "aws"; sep; key "secret"; sep; key "access"; sep; key "key"]) 16)
      "HIGH" "Hardcoded AWS secret key" ].

Definition binaryExts : gset string :=
  list_to_set [".jpg"; ".jpeg"; ".png"; ".gif"; ".bmp"; ".pdf"; ".zip"; ".tar"; ".gz";
               ".tgz"; ".rar"; ".7z"; ".exe"; ".dll"; ".so"; ".dylib"; ".bin"; ".dat";
               ".iso"; ".img"].

Definition has_nul (s : string) : bool :=
  bool_decide ("000"%char ∈ String.list_ascii_of_string s).

(** [isBinaryFile(path)], with the bytes of the file when it opens. *)
Definition isBinaryFile (path : string) (content : option string) : bool :=
  let ext := strings.ToLower (filepath.Ext path) in
  if bool_decide (ext ∈ binaryExts) then true
  else match content with
       | None => false
       | Some data => has_nul (String.substring 0 512 data)
       end.

(** The loop over the secret patterns with its [break]. *)
Fixpoint matchSecret (patterns : list secretPattern) (relPath : string) (lineNum : nat)
    (line : string) (issues : list SecurityIssue.t) : list SecurityIssue.t :=
  match patterns with
  | [] => issues
  | pattern :: rest =>
      if regexp.MatchString (sc_regex pattern) line
      then issues ++ [SecurityIssue.mk "HARDCODED_SECRET"
                        (relPath +:+ ":" +:+ Itoa lineNum)
                        (sc_desc pattern) (sc_severity pattern)]
      else matchSecret rest relPath lineNum line issues
  end.

(** [for scanner.Scan() { lineNum++; ... }] *)
Fixpoint scanSecrets (lines : list string) (relPath : string) (lineNum : nat)
    (issues : list SecurityIssue.t) : list SecurityIssue.t :=
  match lines with
  | [] => issues
  | line :: rest =>
      let lineNum := S lineNum in
      scanSecrets rest relPath lineNum (matchSecret secretPatterns relPath lineNum line issues)
  end.

Definition content_of (info : node) : option string :=
  match info with
  | File _ c => c
  | Dir _ _ => None
  end.

Definition findHardcodedSecretsFn : @WalkFunc (list SecurityIssue.t) :=
  λ path rel info err issues,
    match err with
    | Some e => (issues, Some e)
    | None =>
        if IsDir info || isBinaryFile path (content_of info) then (issues, None)
        else
          let relPath := Rel rel in
          match content_of info with
          | None => (issues, None)
          | Some data =>
              let '(lines, scanErr) := bufio.ScanLines data in
              (scanSecrets lines relPath 0 issues, scanErr)
          end
    end.

Definition findHardcodedSecrets (imagePath : string) (tree : node)
  : list SecurityIssue.t * option error :=
  Walk findHardcodedSecretsFn imagePath tree [].

Record vulnPackage : Type := mkVuln {
  vp_version : string;
  vp_severity : string;
  vp_desc : string;
  vp_fixVersion : string
}.

Definition nodeVulnPackages : gmap string vulnPackage :=
  list_to_map [
    ("lodash", mkVuln "<4.17.21" "HIGH" "Prototype Pollution in lodash" ">=4.17.21");
    ("minimist", mkVuln "<1.2.6" "HIGH" "Prototype Pollution in minimist" ">=1.2.6");
    ("node-fetch", mkVuln "<2.6.7" "HIGH" "Exposure of Sensitive Information in node-fetch" ">=2.6.7");
    ("axios", mkVuln "<0.21.1" "HIGH" "Server-Side Request Forgery in axios" ">=0.21.1")
  ].

Definition pythonVulnPackages : gmap string vulnPackage :=
  list_to_map [
    ("django", mkVuln "<3.2.14" "HIGH" "SQL Injection in Django" ">=3.2.14");
    ("flask", mkVuln "<2.0.1" "MEDIUM" "Open Redirect in Flask" ">=2.0.1");
    ("requests", mkVuln "<2.26.0" "MEDIUM" "CRLF Injection in Requests" ">=2.26.0");
    ("pillow", mkVuln "<9.0.0" "HIGH" "Buffer Overflow in Pillow" ">=9.0.0")
  ].

(** The two maps that [json.Unmarshal] fills from a [package.json]. *)
Record packageJSON : Type := mkPackageJSON {
  Dependencies : gmap string string;
  DevDependencies : gmap string string
}.

(** [if HasPrefix(version, "^") || HasPrefix(version, "~") { version = version[1:] }] *)
Definition stripRange (version : string) : string :=
  if strings.HasPrefix version "^" || strings.HasPrefix version "~"
  then String.substring 1 (String.length version - 1) version else version.

(** The body of one [for name, version := range ...] iteration of
    [checkNodePackages]; [tag] is [""] or [" (dev)"]. *)
Definition checkNodeEntry (tag : string) (issues : list SecurityIssue.t)
    (entry : string * string) : list SecurityIssue.t :=
  let '(name, version) := entry in
  match nodeVulnPackages !! name with
  | Some vuln =>
      let version := stripRange version in
      if String.ltb version (vp_version vuln) then
        issues ++ [SecurityIssue.mk "VULNERABLE_PACKAGE"
                     ("package.json: " +:+ name +:+ "@" +:+ version +:+ tag)
                     (vp_desc vuln +:+ ". Update to " +:+ vp_fixVersion vuln)
                     (vp_severity vuln)]
      else issues
  | None => issues
  end.

Definition checkPythonLine (issues : list SecurityIssue.t) (line : string)
  : list SecurityIssue.t :=
  if strings.HasPrefix line "#" || bool_decide (strings.TrimSpace line = "") then issues
  else
    match strings.Split line "==" with
    | [part0; part1] =>
        let name := strings.TrimSpace part0 in
        let version := strings.TrimSpace part1 in
        match pythonVulnPackages !! name with
        | Some vuln =>
            if String.ltb version (vp_version vuln) then
              issues ++ [SecurityIssue.mk "VULNERABLE_PACKAGE"
                           ("requirements.txt: " +:+ name +:+ "==" +:+ version)
                           (vp_desc vuln +:+ ". Update to " +:+ vp_fixVersion vuln)
                           (vp_severity vuln)]
            else issues
        | None => issues
        end
    | _ => issues
    end.

(** [checkPythonPackages]: [None] is a non-nil error. *)
Definition checkPythonPackages (content : option string) : option (list SecurityIssue.t) :=
  match content with
  | None => None
  | Some data =>
      let '(lines, scanErr) := bufio.ScanLines data in
      match scanErr with
      | Some _ => None
      | None => Some (foldl checkPythonLine [] lines)
      end
  end.

Definition checkRubyPackages (content : option string) : option (list SecurityIssue.t) :=
  Some [].

Definition checkGoPackages (content : option string) : option (list SecurityIssue.t) :=
  Some [].

Section Security.

(** [json.Unmarshal] into the two dependency maps ([None]: an error),
    and the order in which a [range] loop visits a map, which Go leaves
    unspecified. *)
Variable json_Unmarshal : string → option packageJSON.
Variable range_order : gmap string string → list (string * string).

Definition checkNodePackages (content : option string) : option (list SecurityIssue.t) :=
  match content with
  | None => None
  | Some data =>
      match json_Unmarshal data with
      | None => None
      | Some pkg =>
          let issues := foldl (checkNodeEntry "") [] (range_order (Dependencies pkg)) in
          Some (foldl (checkNodeEntry " (dev)") issues (range_order (DevDependencies pkg)))
      end
  end.

Definition packageFiles : list (string * (option string → option (list SecurityIssue.t))) :=
  [ ("package.json", checkNodePackages);
    ("requirements.txt", checkPythonPackages);
    ("Gemfile.lock", checkRubyPackages);
    ("go.mod", checkGoPackages) ].

Definition setPath (relPath : string) (issue : SecurityIssue.t) : SecurityIssue.t :=
  SecurityIssue.mk (SecurityIssue.Type_ issue) relPath
    (SecurityIssue.Description issue) (SecurityIssue.Severity issue).

(** The loop over [packageFiles] inside the walk function; a failing
    checker makes the walk function return [nil] at once. *)
Fixpoint checkPackageFiles (pfs : list (string * (option string → option (list SecurityIssue.t))))
    (baseName : string) (rel : list string) (content : option string)
    (issues : list SecurityIssue.t) : list SecurityIssue.t :=
  match pfs with
  | [] => issues
  | pf :: rest =>
      if decide (baseName = pf.1) then
        let relPath := Rel rel in
        match pf.2 content with
        | None => issues
        | Some pkgIssues =>
            checkPackageFiles rest baseName rel content
              (issues ++ map (setPath relPath) pkgIssues)
        end
      else checkPackageFiles rest baseName rel content issues
  end.

Definition findVulnerablePackagesFn : @WalkFunc (list SecurityIssue.t) :=
  λ path rel info err issues,
    match err with
    | Some e => (issues, Some e)
    | None =>
        if IsDir info then (issues, None)
        else (checkPackageFiles packageFiles (filepath.Base path) rel (content_of info) issues,
              None)
    end.

Definition findVulnerablePackages (imagePath : string) (tree : node)
  : list SecurityIssue.t * option error :=
  Walk findVulnerablePackagesFn imagePath tree [].

(** The [switch issue.Severity] of the counting loop. *)
Definition countSeverity (result : SecurityResult.t) (issue : SecurityIssue.t)
  : SecurityResult.t :=
  let sev := SecurityIssue.Severity issue in
  SecurityResult.mk (SecurityResult.Issues result) (SecurityResult.TotalIssues result)
    (SecurityResult.HighSeverity result + (if decide (sev = "HIGH") then 1 else 0))
    (SecurityResult.MediumSeverity result + (if decide (sev = "MEDIUM") then 1 else 0))
    (SecurityResult.LowSeverity result + (if decide (sev = "LOW") then 1 else 0)).

Definition AnalyzeSecurity (imagePath : string) (tree : node)
  : option SecurityResult.t * option error :=
  match findSensitiveFiles imagePath tree with
  | (_, Some e) => (None, Some e)
  | (sensitiveFiles, None) =>
  match findHardcodedSecrets imagePath tree with
  | (_, Some e) => (None, Some e)
  | (secrets, None) =>
  match findVulnerablePackages imagePath tree with
  | (_, Some e) => (None, Some e)
  | (vulnPackages, None) =>
      let issues := ([] ++ sensitiveFiles) ++ secrets ++ vulnPackages in
      let result := SecurityResult.mk issues 0 0 0 0 in
      let result := foldl countSeverity result issues in
      (Some (SecurityResult.mk (SecurityResult.Issues result) (Z.of_nat (length issues))
               (SecurityResult.HighSeverity result) (SecurityResult.MediumSeverity result)
               (SecurityResult.LowSeverity result)), None)
  end
  end
  end.

(** ** Result aggregator ([analyzer.go]) *)

Record AnalysisResult : Type := mkAnalysisResult {
  ImagePath : string;
  AnalyzedAt : Z;
  DirectoryInfo_ : option DirectoryInfo.t;
  SecurityInfo : option SecurityResult.t;
  SizeInfo_ : option SizeInfo.t
}.

(** [AnalyzeImage]; [now] is the value of [time.Now()]. The progress
    lines printed to standard output are not part of the result. *)
Definition AnalyzeImage (now : Z) (imagePath : string) (tree : node) (verbose : bool)
  : AnalysisResult :=
  let result := mkAnalysisResult imagePath now None None None in
  let result :=
    match AnalyzeDirectory imagePath tree verbose with
    | (_, Some _) => result
    | (dirInfo, None) =>
        mkAnalysisResult (ImagePath result) (AnalyzedAt result) (Some dirInfo)
          (SecurityInfo result) (SizeInfo_ result)
    end in
  let result :=
    match AnalyzeSecurity imagePath tree with
    | (_, Some _) => result
    | (securityInfo, None) =>
        mkAnalysisResult (ImagePath result) (AnalyzedAt result) (DirectoryInfo_ result)
          securityInfo (SizeInfo_ result)
    end in
  let result :=
    match AnalyzeSize imagePath tree with
    | (_, Some _) => result
    | (sizeInfo, None) =>
        mkAnalysisResult (ImagePath result) (AnalyzedAt result) (DirectoryInfo_ result)
          (SecurityInfo result) sizeInfo
    end in
  result.

End Security.

(** ** Specification vocabulary *)

(** The entries [Walk] hands to its function without an error, in
    order, each with its path, its names from the root, and its
    [FileInfo]; and the error of the walk. *)
Definition visit : Type := string * list string * node.

Definition recordFn : @WalkFunc (list visit) :=
  λ path rel info err seen,
    match err with
    | Some e => (seen, Some e)
    | None => (seen ++ [(path, rel, info)], None)
    end.

Definition visited (imagePath : string) (tree : node) : list visit * option error :=
  Walk recordFn imagePath tree [].

Definition non_root (v : visit) : bool := negb (bool_decide (v.1.2 = [])).
Definition is_dir (v : visit) : bool := IsDir v.2.
Definition is_file (v : visit) : bool := negb (IsDir v.2).
Definition rel_path (v : visit) : string := Rel v.1.2.

(** The sum of the buckets of a histogram. *)
Definition histogram_total (m : gmap string Z) : Z :=
  map_fold (λ _ v acc, (v + acc)%Z) 0%Z m.


(** ** Vocabulary for [sort.Slice] *)

(** [swaps a b d d']: [d'] comes from [d] by exchanging elements at
    indices of [a, b) only. *)
Inductive swaps {A : Type} (a b : nat) : list A → list A → Prop :=
  | swaps_refl d : swaps a b d d
  | swaps_step d i j d' :
      a ≤ i < b → a ≤ j < b → swaps a b (sort.Swap d i j) d' → swaps a b d d'.

(** [c] is a child of [r] in the implicit binary tree of a heap. *)
Definition heap_child (r c : nat) : Prop := c = 2 * r + 1 ∨ c = 2 * r + 2.

Section SliceSpec.

Context {A : Type}.
Variable key : A → Z.

(** The sorting key of the element at index [i]. *)
Definition K (d : list A) (i : nat) : Z := from_option key 0%Z (d !! i).

(** The keys do not decrease along [a, b). *)
Definition sorted_range (a b : nat) (d : list A) : Prop :=
  ∀ i j, a ≤ i → i ≤ j → j < b → (K d i ≤ K d j)%Z.

(** The element before the range, when there is one, has a key that is at
    most every key of the range. *)
Definition left_ok (a b : nat) (d : list A) : Prop :=
  0 < a → ∀ k, a ≤ k → k < b → (K d (a - 1) ≤ K d k)%Z.

(** The heap property of the nodes [lo..] of the heap of size [hi] stored
    from index [first]: no child has a larger key than its parent. *)
Definition heap_at (first lo hi : nat) (d : list A) : Prop :=
  ∀ r c, lo ≤ r → heap_child r c → c < hi → (K d (first + c) ≤ K d (first + r))%Z.

(** The heap property with a hole at [root]: it may fail between [root]
    and its children, and the parent of [root] dominates them. *)
Definition sift_inv (first lo hi root : nat) (d : list A) : Prop :=
  (∀ r c, lo ≤ r → r ≠ root → heap_child r c → c < hi →
          (K d (first + c) ≤ K d (first + r))%Z) ∧
  (∀ g c, lo ≤ g → heap_child g root → heap_child root c → c < hi →
          (K d (first + c) ≤ K d (first + g))%Z).

(** The state between two rounds of a partition: the pivot key [p] is at
    [a], the keys of [(a, i)] are on the low side [U], the keys of
    [[j1, b)] are not. *)
Definition part_inv (U : Z → bool) (a b i j1 : nat) (d : list A) : Prop :=
  a < i ∧ i ≤ j1 ∧ j1 ≤ b ∧ b ≤ length d ∧
  (∀ k, a < k → k < i → U (K d k) = true) ∧
  (∀ k, j1 ≤ k → k < b → U (K d k) = false).

End SliceSpec.

(** ** The descending sort of the size report *)

(** Sizes do not increase from one element to the next. *)
Definition non_increasing {B : Type} (size : B → Z) (l : list B) : Prop :=
  ∀ i x y, l !! i = Some x → l !! S i = Some y → (size y ≤ size x)%Z.

(** The elements of each size are in the same order in both sequences. *)
Definition keeps_encounter_order {B : Type} (size : B → Z)
    (collected sorted : list B) : Prop :=
  ∀ s : Z, filter (λ x, size x = s) sorted = filter (λ x, size x = s) collected.

(** The stable descending sort in the words of the specification: the
    same entries, sizes not increasing, entries of equal size in
    encounter order. *)
Definition stable_descending_sort {B : Type} (size : B → Z)
    (collected sorted : list B) : Prop :=
  sorted ≡ₚ collected ∧ non_increasing size sorted ∧
  keeps_encounter_order size collected sorted.

(** The same as a function: every entry, from the last one encountered
    to the first, is put in front of the entries that are not larger. *)
Fixpoint stable_insert {B : Type} (size : B → Z) (x : B) (l : list B) : list B :=
  match l with
  | [] => [x]
  | y :: l' => if (size x <? size y)%Z then y :: stable_insert size x l' else x :: l
  end.

Definition stable_sort_desc {B : Type} (size : B → Z) (l : list B) : list B :=
  foldr (stable_insert size) [] l.

(** What [sort.Slice] with [less(i, j) = size(i) > size(j)] guarantees:
    the same entries, sizes not increasing; entries of equal size are in
    encounter order when there are at most twelve entries. *)
Definition descending_sort {B : Type} (size : B → Z)
    (collected sorted : list B) : Prop :=
  sorted ≡ₚ collected ∧ non_increasing size sorted ∧
  (length collected ≤ 12 → keeps_encounter_order size collected sorted).

(** An image of thirteen layers: twelve of one byte, then one of two. *)
Definition layer_dir (size : Z) : node :=
  Dir 4096 (Some [("layer.tar", File size None)]).

Definition thirteen_layers : node :=
  Dir 4096 (Some
    [("a", layer_dir 1); ("b", layer_dir 1); ("c", layer_dir 1); ("d", layer_dir 1);
     ("e", layer_dir 1); ("f", layer_dir 1); ("g", layer_dir 1); ("h", layer_dir 1);
     ("i", layer_dir 1); ("j", layer_dir 1); ("k", layer_dir 1); ("l", layer_dir 1);
     ("m", layer_dir 2)]).

Definition directory_counts_inv (info : DirectoryInfo.t) (seen : list visit) : Prop :=
  (DirectoryInfo.FileCount info + DirectoryInfo.DirCount info
     = Z.of_nat (length (List.filter non_root seen)))%Z ∧
  histogram_total (DirectoryInfo.FileTypes info) = DirectoryInfo.FileCount info.

Definition verbose_lists_inv (info : DirectoryInfo.t) (seen : list visit) : Prop :=
  default [] (DirectoryInfo.Files info)
    = map rel_path (List.filter is_file (List.filter non_root seen)) ∧
  default [] (DirectoryInfo.Dirs info)
    = map rel_path (List.filter is_dir (List.filter non_root seen)).

Definition quiet_lists_inv (info : DirectoryInfo.t) (seen : list visit) : Prop :=
  DirectoryInfo.Files info = None ∧ DirectoryInfo.Dirs info = None.

Definition severity_ok (sev : string) : bool :=
  bool_decide (sev = "HIGH" ∨ sev = "MEDIUM" ∨ sev = "LOW").

Definition issues_ok (issues : list SecurityIssue.t) : Prop :=
  Forall (λ i, severity_ok (SecurityIssue.Severity i) = true) issues.

Definition secret_issue (relPath : string) (lineNum : nat) (p : secretPattern) : SecurityIssue.t :=
  SecurityIssue.mk "HARDCODED_SECRET" (relPath +:+ ":" +:+ Itoa lineNum) (sc_desc p) (sc_severity p).

Definition line_findings (relPath : string) (lineNum : nat) (line : string) : list SecurityIssue.t :=
  match List.find (λ p, regexp.MatchString (sc_regex p) line) secretPatterns with
  | Some p => [secret_issue relPath lineNum p]
  | None => []
  end.

Definition config_js_tree : node :=
  Dir 4096 (Some [("config.js", File 33 (Some "const password = 'supersecretpw';"))]).

Definition long_line : string := String.concat "" (replicate bufio.MaxScanTokenSize "a").

Definition long_line_tree : node :=
  Dir 4096 (Some [("notes.txt", File 65536 (Some long_line))]).

Definition sub_report {B : Type} (r : B * option error) : option B :=
  match r with
  | (b, None) => Some b
  | (_, Some _) => None
  end.

Definition sub_report_opt {B : Type} (r : option B * option error) : option B :=
  match r with
  | (b, None) => b
  | (_, Some _) => None
  end.

Definition sensitive_issue (relPath : string) (p : sensitivePattern) : SecurityIssue.t :=
  SecurityIssue.mk "SENSITIVE_FILE" relPath (sp_desc p) (sp_severity p).

Definition matches_path (relPath : string) (p : sensitivePattern) : bool :=
  strings.Contains (strings.ToLower relPath) (sp_pattern p).

Definition config_json_entry : sensitivePattern :=
  mkSensitive "config.json" "MEDIUM" "Configuration file may contain sensitive information".

Definition docker_config_entry : sensitivePattern :=
  mkSensitive ".docker/config.json" "MEDIUM" "Docker configuration file may contain credentials".

Definition env_docker_tree : node :=
  Dir 4096 (Some [(".env", Dir 4096 (Some [(".docker", Dir 4096 (Some
    [("config.json", File 2 (Some "{}"))]))]))]).

Definition dockercfg_tree : node :=
  Dir 4096 (Some [(".dockercfg", File 2 (Some "{}"))]).

(** A [range] order is any enumeration of the entries of the map. *)
Definition valid_range_order (range_order : gmap string string → list (string * string)) : Prop :=
  ∀ m, range_order m ≡ₚ map_to_list m.

Definition range_ascending (m : gmap string string) : list (string * string) :=
  sort_entries (map_to_list m).

Definition range_descending (m : gmap string string) : list (string * string) :=
  reverse (sort_entries (map_to_list m)).

Definition dq : string := String "034" EmptyString.

Definition quoted (s : string) : string := dq +:+ s +:+ dq.

(** A [package.json] with two vulnerable dependencies, and the value
    [json.Unmarshal] gives for it. *)
Definition two_deps_doc : string :=
  "{" +:+ quoted "dependencies" +:+ ": {" +:+ quoted "lodash" +:+ ": " +:+ quoted "4.17.20"
  +:+ ", " +:+ quoted "axios" +:+ ": " +:+ quoted "0.21.0" +:+ "}}".

Definition two_deps_pkg : packageJSON :=
  mkPackageJSON {[ "lodash" := "4.17.20"; "axios" := "0.21.0" ]} ∅.

Definition json_two_deps (data : string) : option packageJSON :=
  if decide (data = two_deps_doc) then Some two_deps_pkg else None.

Definition two_deps_tree : node :=
  Dir 4096 (Some [("package.json", File 56 (Some two_deps_doc))]).

(** Two security reports agree up to the order of their findings. *)
Definition same_findings (a b : option SecurityResult.t) : Prop :=
  match a, b with
  | Some x, Some y =>
      SecurityResult.Issues x ≡ₚ SecurityResult.Issues y ∧
      SecurityResult.TotalIssues x = SecurityResult.TotalIssues y ∧
      SecurityResult.HighSeverity x = SecurityResult.HighSeverity y ∧
      SecurityResult.MediumSeverity x = SecurityResult.MediumSeverity y ∧
      SecurityResult.LowSeverity x = SecurityResult.LowSeverity y
  | None, None => True
  | _, _ => False
  end.

Definition opt_perm {B} (a b : option (list B)) : Prop :=
  match a, b with
  | Some x, Some y => x ≡ₚ y
  | None, None => True
  | _, _ => False
  end.

(** An archive whose only entry is a regular file named
    [../image-evil/pwn.txt], stored at [/tmp/image.tar]. *)
Definition sibling_entry (name : string) : tar.item :=
  tar.Entry (tar.mkHeader name tar.TypeReg "" 420) "x" true.

Definition untar_sibling (data : string) : list tar.item :=
  if decide (data = "outer") then [sibling_entry "../image-evil/pwn.txt"]
  else if decide (data = "layer") then [sibling_entry "../extracted-evil/pwn.txt"]
  else [].

Definition gunzip_none (data : string) : option string := None.

Definition outer_fs : os.filesystem := {[ "/tmp/image.tar" := os.FsFile 420 "outer" ]}.

Definition layer_fs : os.filesystem :=
  {[ "/tmp/scan/image/l1/layer.tar" := os.FsFile 420 "layer";
     "/tmp/scan/image/l1" := os.FsDir ]}.

Definition fixed_lodash_pkg : packageJSON := mkPackageJSON {[ "lodash" := "4.17.21" ]} ∅.

(** ** The walk as a sequence of events

    [filepath.Walk] calls its function once per entry, in a fixed order.
    [events] lists these calls: each entry with the error of listing it.
    The entries below a directory that cannot be listed are not reached. *)

Definition event : Type := visit * option error.

Fixpoint events_names (ws : list (string * (string → list string → list event)))
    (path : string) (rel : list string) : list event :=
  match ws with
  | [] => []
  | (name, w) :: rest =>
      w (filepath.Join [path; name]) (rel ++ [name]) ++ events_names rest path rel
  end.

Fixpoint events (info : node) (path : string) (rel : list string) : list event :=
  match info with
  | File _ _ => [((path, rel, info), None)]
  | Dir _ None => [((path, rel, info), Some ErrReadDir)]
  | Dir _ (Some es) =>
      ((path, rel, info), None)
        :: events_names (sort_entries (map (λ e, (e.1, events e.2)) es)) path rel
  end.

(** The calls of a walk function along a sequence of events: the walk
    ends at the first call that returns an error. *)
Fixpoint run {St : Type} (fn : @WalkFunc St) (evs : list event) (s : St)
  : St * option error :=
  match evs with
  | [] => (s, None)
  | ((path, rel, info), err) :: rest =>
      match fn path rel info err s with
      | (s1, Some e) => (s1, Some e)
      | (s1, None) => run fn rest s1
      end
  end.

(** The entries before the first listing error, and that error. *)
Fixpoint ok_prefix (evs : list event) : list visit :=
  match evs with
  | (v, None) :: rest => v :: ok_prefix rest
  | _ => []
  end.

Fixpoint first_error (evs : list event) : option error :=
  match evs with
  | [] => None
  | (_, Some e) :: _ => Some e
  | (_, None) :: rest => first_error rest
  end.

(** Every directory of the tree can be listed. *)
Fixpoint listable (info : node) : bool :=
  match info with
  | File _ _ => true
  | Dir _ None => false
  | Dir _ (Some es) => forallb (λ e, listable e.2) es
  end.

(** The sum of a list of sizes. *)
Definition sum_sizes (l : list Z) : Z := foldr Z.add 0%Z l.

(** ** Package [utils]: [GetDirSize] ([file.go])

    The same walk as [getDirSize] of the analyzer. *)

Module utils.

Definition GetDirSizeFn : @WalkFunc Z :=
  λ _ _ info err size,
    match err with
    | Some e => (size, Some e)
    | None => (if negb (IsDir info) then add64 size (Size info) else size, None)
    end.

Definition GetDirSize (path : string) (tree : node) : Z * option error :=
  Walk GetDirSizeFn path tree 0%Z.

End utils.

(** The sizes of the regular files among some visited entries. *)
Definition file_sizes (vs : list visit) : list Z :=
  (λ v : visit, Size v.2) <$> List.filter is_file vs.

(** ** Vocabulary for the reports *)

(** The entry [getLargestFiles] collects for a visited file and the one
    [GetTopDirectories] collects for a visited directory. *)
Definition file_entry (v : visit) : FileSize.t := FileSize.mk (rel_path v) (Size v.2).

Definition dir_entry (v : visit) : DirectoryInfo.t :=
  DirectoryInfo.mk (rel_path v) (getDirSize v.1.1 v.2).1 0 0 None ∅ None.

Definition visited_files (imagePath : string) (tree : node) : list visit :=
  List.filter is_file (visited imagePath tree).1.

Definition visited_subdirs (imagePath : string) (tree : node) : list visit :=
  List.filter (λ v, non_root v && is_dir v) (visited imagePath tree).1.

(** A file whose lines the secret scan reads: a regular file that
    [isBinaryFile] does not take for a binary. *)
Definition scanned (v : visit) : bool :=
  negb (IsDir v.2) && negb (isBinaryFile v.1.1 (content_of v.2)).

(** The file can be opened and has a line that does not fit the buffer
    of a [bufio.Scanner]. *)
Definition has_long_line (v : visit) : bool :=
  match content_of v.2 with
  | Some data =>
      existsb (λ p, (bufio.MaxScanTokenSize <=? String.length p)%nat) (bufio.pieces data)
  | None => false
  end.

(** The three kinds of finding and the severities the tables use. *)
Definition known_issue (i : SecurityIssue.t) : bool :=
  bool_decide (SecurityIssue.Type_ i ∈ ["SENSITIVE_FILE"; "HARDCODED_SECRET";
                                         "VULNERABLE_PACKAGE"]) &&
  bool_decide (SecurityIssue.Severity i ∈ ["HIGH"; "MEDIUM"]).

(** ** The analyzers as steps over the visited entries *)

(** What the walk function of [AnalyzeDirectory] does to the report at
    an entry, and the one of [getFileTypeBreakdown] to the breakdown. *)
Definition directory_step (verbose : bool) (v : visit) (info : DirectoryInfo.t)
  : DirectoryInfo.t :=
  (analyzeDirectoryFn verbose v.1.1 v.1.2 v.2 None info).1.

Definition breakdown_step (v : visit) (m : gmap string Z) : gmap string Z :=
  (getFileTypeBreakdownFn v.1.1 v.1.2 v.2 None m).1.

(** The events with the error the function itself adds. *)
Definition checked (check : visit → option error) (evs : list event) : list event :=
  (λ ev : event, (ev.1, match ev.2 with Some e => Some e | None => check ev.1 end)) <$> evs.

(** The walk function of [GetTopDirectories] at an entry: the error of
    the inner [getDirSize], and the directory it appends. *)
Definition subdir_check (v : visit) : option error :=
  if bool_decide (v.1.2 = []) || negb (IsDir v.2) then None
  else (getDirSize v.1.1 v.2).2.

Definition subdir_step (v : visit) (dirs : list DirectoryInfo.t) : list DirectoryInfo.t :=
  if bool_decide (v.1.2 = []) || negb (IsDir v.2) then dirs
  else match (getDirSize v.1.1 v.2).2 with
       | Some _ => dirs
       | None => dirs ++ [dir_entry v]
       end.

(** A small unpacked image used to instantiate the statements below. *)
Definition sample_tree : node :=
  Dir 4096 (Some [
    ("app", Dir 4096 (Some [
       ("main.py", File 26 (Some "password = 'hunter2hunter2'"));
       ("requirements.txt", File 14 (Some "django==1.11.0"));
       ("data.bin", File 2048 None)]));
    ("README", File 5 (Some "hello"));
    ("etc", Dir 4096 (Some [(".env", File 9 (Some "DEBUG=yes"))]))]).

(** ** The security analyzer per visited file *)

(** The finding of the sensitive-file check for a relative path. *)
Definition sensitive_findings (relPath : string) : list SecurityIssue.t :=
  match list_find (λ p, matches_path relPath p = true) sensitivePatterns with
  | Some (_, p) => [sensitive_issue relPath p]
  | None => []
  end.

(** The findings of the secret scan in one visited entry, and the error
    of its scanner. *)
Definition file_secrets (v : visit) : list SecurityIssue.t :=
  if scanned v then
    match content_of v.2 with
    | Some data =>
        concat (imap (λ i line, line_findings (rel_path v) (S i) line)
                  (bufio.ScanLines data).1)
    | None => []
    end
  else [].

Definition secret_check (v : visit) : option error :=
  if scanned v then
    match content_of v.2 with
    | Some data => (bufio.ScanLines data).2
    | None => None
    end
  else None.

Definition manifest_names : list string :=
  ["package.json"; "requirements.txt"; "Gemfile.lock"; "go.mod"].

(** A finding of the package check: its type, and a severity of the
    tables. *)
Definition vulnerable_issue (i : SecurityIssue.t) : Prop :=
  SecurityIssue.Type_ i = "VULNERABLE_PACKAGE" ∧
  (SecurityIssue.Severity i = "HIGH" ∨ SecurityIssue.Severity i = "MEDIUM").

(** ** Formatting ([size.go], [analyzer.go]) *)

(** [n / d] rounded to the nearest integer, ties to the even one
    ([d > 0]). *)
Definition round_half_even (n d : Z) : Z :=
  let q := (n / d)%Z in
  let r := (n mod d)%Z in
  if (2 * r <? d)%Z then q
  else if (d <? 2 * r)%Z then (q + 1)%Z
  else if Z.even q then q else (q + 1)%Z.

(** [float64(z)] for an [int64]: the integer with at most 53 significant
    bits nearest to [z], ties to even. *)
Definition float64_of_int64 (z : Z) : Z :=
  let a := Z.abs z in
  let e := (Z.log2 a - 52)%Z in
  if (e <=? 0)%Z then z
  else (Z.sgn z * (round_half_even a (2 ^ e) * 2 ^ e))%Z.

(** The decimal digits of a number that is not negative, and [%d]. *)
Definition FormatUint (z : Z) : string :=
  NilEmpty.string_of_uint (N.to_uint (Z.to_N z)).

Definition Sprintf_d (z : Z) : string :=
  if (z <? 0)%Z then "-" +:+ FormatUint (- z) else FormatUint z.

Definition two_digits (k : Z) : string :=
  FormatUint (k / 10) +:+ FormatUint (k mod 10).

(** [fmt.Sprintf("%.2f", v)] for the float [v = n / d], where [d] is a
    power of two: the exact value rounded to two decimals, ties to
    even. *)
Definition Sprintf_2f (n d : Z) : string :=
  let h := round_half_even (100 * Z.abs n) d in
  (if (n <? 0)%Z then "-" else "") +:+ FormatUint (h / 100) +:+ "." +:+ two_digits (h mod 100).

Definition KB : Z := 2 ^ 10.
Definition MB : Z := 2 ^ 20.
Definition GB : Z := 2 ^ 30.
Definition TB : Z := 2 ^ 40.

Definition FormatSize (size : Z) : string :=
  let '(unit, d) :=
    if (TB <=? size)%Z then ("TB", TB)
    else if (GB <=? size)%Z then ("GB", GB)
    else if (MB <=? size)%Z then ("MB", MB)
    else if (KB <=? size)%Z then ("KB", KB)
    else ("B", 1%Z) in
  Sprintf_2f (float64_of_int64 size) d +:+ " " +:+ unit.

(** The name of the unit with the factor [1024 ^ k]. *)
Definition unit_name (k : Z) : string :=
  if (k =? 0)%Z then "B" else if (k =? 1)%Z then "KB" else if (k =? 2)%Z then "MB"
  else if (k =? 3)%Z then "GB" else "TB".

(** ** Recommendations ([analyzer.go]) *)

(** The three counters of the loop over the issues. *)
Definition countIssueType (counts : Z * Z * Z) (issue : SecurityIssue.t) : Z * Z * Z :=
  let '(sensitiveFiles, hardcodedSecrets, vulnPackages) := counts in
  let t := SecurityIssue.Type_ issue in
  if decide (t = "SENSITIVE_FILE") then ((sensitiveFiles + 1)%Z, hardcodedSecrets, vulnPackages)
  else if decide (t = "HARDCODED_SECRET") then (sensitiveFiles, (hardcodedSecrets + 1)%Z, vulnPackages)
  else if decide (t = "VULNERABLE_PACKAGE") then (sensitiveFiles, hardcodedSecrets, (vulnPackages + 1)%Z)
  else counts.

Definition unnecessaryExts : list string := [".zip"; ".tar"; ".gz"; ".log"; ".tmp"].

Definition no_recommendation : string := "No specific recommendations at this time".

Definition securityRecommendations (s : SecurityResult.t) (recommendations : list string)
  : list string :=
  let recommendations :=
    if (0 <? SecurityResult.HighSeverity s)%Z then
      recommendations ++ ["Address " +:+ Sprintf_d (SecurityResult.HighSeverity s)
                          +:+ " high severity security issues"]
    else recommendations in
  let recommendations :=
    if (0 <? SecurityResult.MediumSeverity s)%Z then
      recommendations ++ ["Review " +:+ Sprintf_d (SecurityResult.MediumSeverity s)
                          +:+ " medium severity security issues"]
    else recommendations in
  let '(sensitiveFiles, hardcodedSecrets, vulnPackages) :=
    foldl countIssueType (0%Z, 0%Z, 0%Z) (SecurityResult.Issues s) in
  let recommendations :=
    if (0 <? sensitiveFiles)%Z then
      recommendations ++ ["Remove " +:+ Sprintf_d sensitiveFiles
                          +:+ " sensitive files from the image"]
    else recommendations in
  let recommendations :=
    if (0 <? hardcodedSecrets)%Z then
      recommendations ++ ["Remove " +:+ Sprintf_d hardcodedSecrets
                          +:+ " hardcoded secrets from the image"]
    else recommendations in
  if (0 <? vulnPackages)%Z then
    recommendations ++ ["Update " +:+ Sprintf_d vulnPackages +:+ " vulnerable packages"]
  else recommendations.

Definition sizeRecommendations (s : SizeInfo.t) (recommendations : list string)
  : list string :=
  let recommendations :=
    if (500 * 1024 * 1024 <? SizeInfo.TotalSize s)%Z then
      let recommendations := recommendations ++ ["Consider reducing the image size"] in
      let recommendations :=
        match SizeInfo.LargestFiles s with
        | largest :: _ =>
            if (100 * 1024 * 1024 <? FileSize.Size largest)%Z then
              recommendations ++ ["Remove or optimize large files (largest: "
                                  +:+ FileSize.Path largest +:+ ", "
                                  +:+ FormatSize (FileSize.Size largest) +:+ ")"]
            else recommendations
        | [] => recommendations
        end in
      foldl (λ recommendations ext,
               match SizeInfo.FileTypeBreakdown s !! ext with
               | Some size =>
                   if (10 * 1024 * 1024 <? size)%Z then
                     recommendations ++ ["Remove unnecessary " +:+ ext +:+ " files ("
                                         +:+ FormatSize size +:+ ")"]
                   else recommendations
               | None => recommendations
               end) recommendations unnecessaryExts
    else recommendations in
  if (10 <? Z.of_nat (length (SizeInfo.LayerSizes s)))%Z then
    recommendations ++ ["Reduce the number of layers in the image"]
  else recommendations.

Definition generateRecommendations (result : AnalysisResult) : list string :=
  let recommendations := [] in
  let recommendations :=
    match SecurityInfo result with
    | Some s => securityRecommendations s recommendations
    | None => recommendations
    end in
  let recommendations :=
    match SizeInfo_ result with
    | Some s => sizeRecommendations s recommendations
    | None => recommendations
    end in
  if decide (length recommendations = 0) then recommendations ++ [no_recommendation]
  else recommendations.

(** ** What extraction changes

    The file system model resolves a path by its name. This is what the
    operating system does as long as no symbolic link is involved, so
    the statements about written paths are made for file systems and
    archives without symbolic links. *)

Definition is_symlink (x : os.fsnode) : bool :=
  match x with
  | os.FsSymlink _ => true
  | _ => false
  end.

Definition no_symlinks (fs : os.filesystem) : Prop :=
  map_Forall (λ _ x, is_symlink x = false) fs.

Definition no_symlink_entries (items : list tar.item) : Prop :=
  Forall (λ it, match it with
                | tar.Entry h _ _ => tar.Typeflag h ≠ tar.TypeSymlink
                | tar.Corrupt => True
                end) items.

(** What may happen to the path [p] when an archive is extracted into
    [dest]: nothing; a directory is created where nothing was; or, only
    when [dest] is a prefix of [p], a regular file is created where
    nothing was or the content of a regular file is replaced. *)
Definition effect (dest p : string) (before after : option os.fsnode) : Prop :=
  match before with
  | None =>
      after = None ∨ after = Some os.FsDir ∨
      (strings.HasPrefix p dest = true ∧ ∃ m d, after = Some (os.FsFile m d))
  | Some (os.FsFile m d) =>
      after = before ∨
      (strings.HasPrefix p dest = true ∧ ∃ d', after = Some (os.FsFile m d'))
  | Some _ => after = before
  end.

(** An archive of two entries, a file system that holds it, and the
    reader that decodes it. *)
Definition sample_items : list tar.item :=
  [tar.Entry (tar.mkHeader "etc/" tar.TypeDir "" 493) "" true;
   tar.Entry (tar.mkHeader "etc/motd" tar.TypeReg "" 420) "hello" true].

Definition sample_fs : os.filesystem :=
  {[ "/in/layer.tar" := os.FsFile 420 "layer"; "/in" := os.FsDir ]}.

Definition sample_untar (data : string) : list tar.item :=
  if decide (data = "layer") then sample_items else [tar.Corrupt].

(** Two nodes of the same kind: both directories, the same symbolic
    link, or regular files of the same mode. *)
Definition same_kind (x y : os.fsnode) : Prop :=
  match x, y with
  | os.FsDir, os.FsDir => True
  | os.FsFile m _, os.FsFile m' _ => m = m'
  | os.FsSymlink t, os.FsSymlink t' => t = t'
  | _, _ => False
  end.

(** Every entry of [fs] is in [fs'], with its kind. *)
Definition kept (fs fs' : os.filesystem) : Prop :=
  ∀ p x, fs !! p = Some x → ∃ y, fs' !! p = Some y ∧ same_kind x y.

(** The path an entry is extracted to. *)
Definition target_of (destDir : string) (it : tar.item) : option string :=
  match it with
  | tar.Entry h _ _ => Some (filepath.Join [destDir; tar.Name h])
  | tar.Corrupt => None
  end.

(** An archive with a symbolic link. *)
Definition link_items : list tar.item :=
  [tar.Entry (tar.mkHeader "bin" tar.TypeDir "" 493) "" true;
   tar.Entry (tar.mkHeader "bin/sh" tar.TypeSymlink "busybox" 511) "" true].

(** * Properties *)

(** ** The model on concrete inputs *)

Example Clean_dotdot : filepath.Clean "/tmp/scan/image/../image-evil//pwn.txt" = "/tmp/scan/image-evil/pwn.txt".
Proof. vm_compute. reflexivity. Qed.

Example Join_relative : filepath.Join ["/img"; "a"; "layer.tar"] = "/img/a/layer.tar".
Proof. vm_compute. reflexivity. Qed.

Example Dir_Base_layer :
  filepath.Base (filepath.Dir "/img/a/layer.tar") = "a" ∧ filepath.Ext "/img/a/layer.tar" = ".tar".
Proof. split; vm_compute; reflexivity. Qed.

Example Split_lines : strings.Split "a==1" "==" = ["a"; "1"].
Proof. vm_compute. reflexivity. Qed.

Example ScanLines_crlf :
  bufio.ScanLines (String "a" (String "013" (String "010" "b"))) = (["a"; "b"], None).
Proof. vm_compute. reflexivity. Qed.

Example MatchString_password :
  regexp.MatchString (regexp.assignment (regexp.lit_i "password") 8)
    "const PassWord = 'supersecretpw';" = true ∧
  regexp.MatchString (regexp.assignment (regexp.lit_i "password") 8)
    "const password = 'short';" = false.
Proof. split; vm_compute; reflexivity. Qed.

Example Slice_descending_sizes :
  sort.Slice (λ x y : Z, (y <? x)%Z) [3; 1; 4; 1; 5; 9; 2; 6]%Z = [9; 6; 5; 4; 3; 2; 1; 1]%Z.
Proof. vm_compute. reflexivity. Qed.

Example AnalyzeDirectory_small :
  (AnalyzeDirectory "/img"
     (Dir 4096 (Some [("b.TXT", File 3 None); ("a", Dir 4096 (Some [("c", File 2 None)]))]))
     true).1
  = DirectoryInfo.mk "/img" 5 2 1 (Some ["a/c"; "b.TXT"])
      (map_add ".txt" 1 (map_add "[no extension]" 1 ∅)) (Some ["a"]).
Proof. vm_compute. reflexivity. Qed.

Section node_induction.
Variable P : node → Prop.
Hypothesis HFile : ∀ sz c, P (File sz c).
Hypothesis HUnreadable : ∀ sz, P (Dir sz None).
Hypothesis HDir : ∀ sz es, Forall (λ e, P e.2) es → P (Dir sz (Some es)).

Fixpoint node_ind2 (info : node) : P info :=
  match info with
  | File sz c => HFile sz c
  | Dir sz None => HUnreadable sz
  | Dir sz (Some es) =>
      HDir sz es
        ((fix go (l : list (string * node)) : Forall (λ e, P e.2) l :=
            match l with
            | [] => List.Forall_nil _
            | e :: r => List.Forall_cons _ e r (node_ind2 e.2) (go r)
            end) es)
  end.
End node_induction.

Lemma insert_entry_map {B C : Type} (f : B → C) (e : string * B) (es : list (string * B)) :
  insert_entry (e.1, f e.2) (map (λ x, (x.1, f x.2)) es)
  = map (λ x, (x.1, f x.2)) (insert_entry e es).
Proof.
  induction es as [|e' es IH]; simpl; [done|].
  destruct (String.leb e.1 e'.1); simpl; [done|]. by rewrite IH.
Qed.

Lemma sort_entries_map {B C : Type} (f : B → C) (es : list (string * B)) :
  sort_entries (map (λ x, (x.1, f x.2)) es) = map (λ x, (x.1, f x.2)) (sort_entries es).
Proof.
  induction es as [|e es IH]; simpl; [done|].
  unfold sort_entries in *. simpl. rewrite IH. apply insert_entry_map.
Qed.

Lemma insert_entry_perm {B : Type} (e : string * B) es : insert_entry e es ≡ₚ e :: es.
Proof.
  induction es as [|e' es IH]; simpl; [done|].
  destruct (String.leb e.1 e'.1); [done|]. rewrite IH. apply Permutation_swap.
Qed.

Lemma sort_entries_perm {B : Type} (es : list (string * B)) : sort_entries es ≡ₚ es.
Proof.
  induction es as [|e es IH]; simpl; [done|].
  unfold sort_entries in *. simpl. rewrite insert_entry_perm. by rewrite IH.
Qed.

Section walk_rel.
Context {S1 S2 : Type}.
Variable R : S1 → S2 → Prop.
Variable fn1 : @WalkFunc S1.
Variable fn2 : @WalkFunc S2.
Hypothesis Hfn : ∀ path rel info err s1 s2,
  R s1 s2 →
  R (fn1 path rel info err s1).1 (fn2 path rel info err s2).1 ∧
  (fn1 path rel info err s1).2 = (fn2 path rel info err s2).2.

Lemma walk_rel info : ∀ path rel s1 s2,
  R s1 s2 →
  R (walk fn1 info path rel s1).1 (walk fn2 info path rel s2).1 ∧
  (walk fn1 info path rel s1).2 = (walk fn2 info path rel s2).2.
Proof using Hfn.
  induction info as [sz c|sz|sz es IH] using node_ind2; intros path rel s1 s2 HR; simpl.
  - by apply Hfn.
  - by apply Hfn.
  - destruct (Hfn path rel (Dir sz (Some es)) None s1 s2 HR) as [HR1 He].
    destruct (fn1 path rel (Dir sz (Some es)) None s1) as [t1 e1],
             (fn2 path rel (Dir sz (Some es)) None s2) as [t2 e2]; simpl in *.
    subst e2. destruct e1 as [e|]; [done|].
    rewrite !(sort_entries_map (λ c, walk _ c)).
    assert (Forall (λ e : string * node, ∀ path rel s1 s2, R s1 s2 →
       R (walk fn1 e.2 path rel s1).1 (walk fn2 e.2 path rel s2).1 ∧
       (walk fn1 e.2 path rel s1).2 = (walk fn2 e.2 path rel s2).2) (sort_entries es)) as IH'.
    { by rewrite sort_entries_perm. }
    clear IH. revert t1 t2 HR1.
    induction IH' as [|e l He _ IHl]; intros t1 t2 HR1; simpl; [done|].
    destruct (He (filepath.Join [path; e.1]) (rel ++ [e.1]) t1 t2 HR1) as [HR2 Heq].
    destruct (walk fn1 e.2 _ _ t1) as [u1 e1], (walk fn2 e.2 _ _ t2) as [u2 e2]; simpl in *.
    subst e2. destruct e1; [done|]. by apply IHl.
Qed.
End walk_rel.

Lemma histogram_total_map_add k v m :
  histogram_total (map_add k v m) = (histogram_total m + v)%Z.
Proof.
  unfold histogram_total, map_add.
  assert (Hcomm : ∀ (m' : gmap string Z) (j1 j2 : string) (z1 z2 y : Z),
    j1 ≠ j2 → m' !! j1 = Some z1 → m' !! j2 = Some z2 →
    (z1 + (z2 + y) = z2 + (z1 + y))%Z) by (intros; lia).
  destruct (m !! k) as [x|] eqn:Hk; simpl.
  - rewrite <-(insert_delete_eq m k (x + v)%Z).
    rewrite map_fold_insert_L; [|by eauto|by rewrite lookup_delete_eq].
    rewrite (map_fold_delete_L _ _ k x m); [lia|by eauto|done].
  - rewrite map_fold_insert_L; [lia|by eauto|done].
Qed.

Lemma analyzeDirectoryFn_counts verbose path rel info err s seen :
  directory_counts_inv s seen →
  directory_counts_inv (analyzeDirectoryFn verbose path rel info err s).1
                       (recordFn path rel info err seen).1 ∧
  (analyzeDirectoryFn verbose path rel info err s).2 = (recordFn path rel info err seen).2.
Proof.
  intros [Hc Hh]. unfold analyzeDirectoryFn, recordFn, directory_counts_inv.
  destruct err as [e|]; simpl; [done|].
  rewrite List.filter_app, length_app. simpl. unfold non_root at 2. simpl.
  destruct (decide (rel = [])) as [->|Hrel]; simpl.
  - rewrite Nat.add_0_r. done.
  - rewrite bool_decide_eq_false_2 by done. simpl.
    destruct (IsDir info); simpl.
    + split; [split; [lia|done]|done].
    + rewrite histogram_total_map_add. split; [split; lia|done].
Qed.

(** C4. The report of the directory analyzer counts every visited entry
    below the root exactly once, as a file or as a directory, and the
    buckets of the extension histogram add up to the file count. *)
Theorem directory_counts (imagePath : string) (tree : node) (verbose : bool) :
  let info := (AnalyzeDirectory imagePath tree verbose).1 in
  (DirectoryInfo.FileCount info + DirectoryInfo.DirCount info
     = Z.of_nat (length (List.filter non_root (visited imagePath tree).1)))%Z ∧
  histogram_total (DirectoryInfo.FileTypes info) = DirectoryInfo.FileCount info.
Proof.
  unfold AnalyzeDirectory, visited, Walk.
  pose proof (walk_rel directory_counts_inv (analyzeDirectoryFn verbose) recordFn
    (analyzeDirectoryFn_counts verbose) tree imagePath []
    (DirectoryInfo.mk imagePath 0 0 0 None ∅ None) []) as H.
  destruct H as [[Hc Hh] _].
  { split; [done|]. exact (map_fold_empty _ _). }
  destruct (walk (analyzeDirectoryFn verbose) tree imagePath [] _) as [info err].
  simpl in *. destruct verbose; simpl; done.
Qed.

Lemma analyzeDirectoryFn_verbose path rel info err s seen :
  verbose_lists_inv s seen →
  verbose_lists_inv (analyzeDirectoryFn true path rel info err s).1
                    (recordFn path rel info err seen).1 ∧
  (analyzeDirectoryFn true path rel info err s).2 = (recordFn path rel info err seen).2.
Proof.
  intros [Hf Hd]. unfold analyzeDirectoryFn, recordFn, verbose_lists_inv.
  destruct err as [e|]; simpl; [done|].
  rewrite List.filter_app. simpl. unfold non_root at 2 4. simpl.
  destruct (decide (rel = [])) as [->|Hrel]; simpl.
  - rewrite app_nil_r. done.
  - rewrite bool_decide_eq_false_2 by done. simpl.
    rewrite !List.filter_app, !map_app. simpl. unfold is_file, is_dir. simpl.
    destruct (IsDir info); simpl; rewrite ?app_nil_r, ?Hf, ?Hd; done.
Qed.

Lemma analyzeDirectoryFn_quiet path rel info err s seen :
  quiet_lists_inv s seen →
  quiet_lists_inv (analyzeDirectoryFn false path rel info err s).1
                  (recordFn path rel info err seen).1 ∧
  (analyzeDirectoryFn false path rel info err s).2 = (recordFn path rel info err seen).2.
Proof.
  intros [Hf Hd]. unfold analyzeDirectoryFn, recordFn, quiet_lists_inv.
  destruct err as [e|]; simpl; [done|].
  destruct (decide (rel = [])); simpl; [done|].
  destruct (IsDir info); simpl; done.
Qed.

Lemma sort_Strings_slice_default s :
  default [] (sort_Strings_slice s) = sort.Strings (default [] s).
Proof. by destruct s. Qed.

Lemma sort_Strings_sorted l : StronglySorted String.le (sort.Strings l).
Proof. apply StronglySorted_merge_sort; apply _. Qed.

Lemma sort_Strings_perm l : sort.Strings l ≡ₚ l.
Proof. apply merge_sort_Permutation. Qed.

(** C7. With the verbosity flag the lists of files and of directories are
    the relative paths of the visited files and directories below the
    root, in increasing order; without it both lists are nil. *)
Theorem verbose_lists (imagePath : string) (tree : node) :
  let seen := List.filter non_root (visited imagePath tree).1 in
  let info := (AnalyzeDirectory imagePath tree true).1 in
  let quiet := (AnalyzeDirectory imagePath tree false).1 in
  (default [] (DirectoryInfo.Files info) ≡ₚ map rel_path (List.filter is_file seen) ∧
   StronglySorted String.le (default [] (DirectoryInfo.Files info))) ∧
  (default [] (DirectoryInfo.Dirs info) ≡ₚ map rel_path (List.filter is_dir seen) ∧
   StronglySorted String.le (default [] (DirectoryInfo.Dirs info))) ∧
  DirectoryInfo.Files quiet = None ∧ DirectoryInfo.Dirs quiet = None.
Proof.
  unfold AnalyzeDirectory, visited, Walk.
  pose proof (walk_rel verbose_lists_inv (analyzeDirectoryFn true) recordFn
    analyzeDirectoryFn_verbose tree imagePath []
    (DirectoryInfo.mk imagePath 0 0 0 None ∅ None) []) as [[Hf Hd] _]; [done|].
  pose proof (walk_rel quiet_lists_inv (analyzeDirectoryFn false) recordFn
    analyzeDirectoryFn_quiet tree imagePath []
    (DirectoryInfo.mk imagePath 0 0 0 None ∅ None) []) as [[Hqf Hqd] _]; [done|].
  destruct (walk (analyzeDirectoryFn true) tree imagePath [] _) as [info err].
  destruct (walk (analyzeDirectoryFn false) tree imagePath [] _) as [quiet qerr].
  simpl in *. rewrite !sort_Strings_slice_default, Hf, Hd.
  repeat split; auto using sort_Strings_sorted, sort_Strings_perm.
Qed.

Section walk_invariant.
Context {St : Type}.
Variable P : St → Prop.
Variable fn : @WalkFunc St.
Hypothesis Hfn : ∀ path rel info err s, P s → P (fn path rel info err s).1.

Lemma walk_invariant info path rel s : P s → P (walk fn info path rel s).1.
Proof using Hfn.
  intros Hs.
  destruct (walk_rel (λ s1 s2, s1 = s2 ∧ P s1) fn fn) with info path rel s s
    as [[_ H] _]; [|done..].
  intros ?????? [-> ?]. auto.
Qed.
End walk_invariant.

Lemma matchSensitive_ok patterns relPath issues :
  forallb (λ p, severity_ok (sp_severity p)) patterns = true →
  issues_ok issues → issues_ok (matchSensitive patterns relPath issues).
Proof.
  unfold issues_ok. induction patterns as [|p ps IH]; simpl; [done|].
  intros [Hp Hps]%andb_prop Hi.
  destruct (strings.Contains _ _); [|by auto].
  apply Forall_app; split; [done|]. by repeat constructor.
Qed.

Lemma matchSecret_ok patterns relPath lineNum line issues :
  forallb (λ p, severity_ok (sc_severity p)) patterns = true →
  issues_ok issues → issues_ok (matchSecret patterns relPath lineNum line issues).
Proof.
  unfold issues_ok. induction patterns as [|p ps IH]; simpl; [done|].
  intros [Hp Hps]%andb_prop Hi.
  destruct (regexp.MatchString _ _); [|by auto].
  apply Forall_app; split; [done|]. by repeat constructor.
Qed.

Lemma scanSecrets_ok lines relPath lineNum issues :
  issues_ok issues → issues_ok (scanSecrets lines relPath lineNum issues).
Proof.
  revert lineNum issues. induction lines as [|l ls IH]; cbn [scanSecrets]; [done|].
  intros lineNum issues Hi. apply IH. by apply matchSecret_ok.
Qed.

Lemma nodeVulnPackages_ok name vuln :
  nodeVulnPackages !! name = Some vuln → severity_ok (vp_severity vuln) = true.
Proof.
  intros H. apply elem_of_list_to_map_2 in H.
  repeat (apply elem_of_cons in H as [H|H]; [by simplify_eq|]).
  by apply elem_of_nil in H.
Qed.

Lemma pythonVulnPackages_ok name vuln :
  pythonVulnPackages !! name = Some vuln → severity_ok (vp_severity vuln) = true.
Proof.
  intros H. apply elem_of_list_to_map_2 in H.
  repeat (apply elem_of_cons in H as [H|H]; [by simplify_eq|]).
  by apply elem_of_nil in H.
Qed.

Lemma checkNodeEntry_ok tag issues e :
  issues_ok issues → issues_ok (checkNodeEntry tag issues e).
Proof.
  unfold issues_ok, checkNodeEntry. intros Hi. destruct e as [name version].
  destruct (nodeVulnPackages !! name) as [vuln|] eqn:Hv; [|done].
  destruct (String.ltb _ _); [|done].
  apply Forall_app; split; [done|]. repeat constructor. simpl.
  by eapply nodeVulnPackages_ok.
Qed.

Lemma checkPythonLine_ok issues line :
  issues_ok issues → issues_ok (checkPythonLine issues line).
Proof.
  unfold issues_ok, checkPythonLine. intros Hi.
  destruct (_ || _); [done|].
  destruct (strings.Split line "==") as [|p0 [|p1 [|??]]]; try done.
  destruct (pythonVulnPackages !! _) as [vuln|] eqn:Hv; [|done].
  destruct (String.ltb _ _); [|done].
  apply Forall_app; split; [done|]. repeat constructor. simpl.
  by eapply pythonVulnPackages_ok.
Qed.

Lemma foldl_issues_ok {B} (f : list SecurityIssue.t → B → list SecurityIssue.t) l issues :
  (∀ issues x, issues_ok issues → issues_ok (f issues x)) →
  issues_ok issues → issues_ok (foldl f issues l).
Proof. intros Hf. revert issues. induction l; simpl; auto. Qed.

Section Security.
Variable json_Unmarshal : string → option packageJSON.
Variable range_order : gmap string string → list (string * string).

Lemma checkers_ok pf content pkgIssues :
  pf ∈ packageFiles json_Unmarshal range_order →
  pf.2 content = Some pkgIssues → issues_ok pkgIssues.
Proof.
  unfold packageFiles. intros Hpf Hc.
  repeat (apply elem_of_cons in Hpf as [->|Hpf]); simpl in Hc.
  - unfold checkNodePackages in Hc. destruct content as [data|]; [|done].
    destruct (json_Unmarshal data) as [pkg|]; [|done]. simplify_eq.
    apply foldl_issues_ok; [apply checkNodeEntry_ok|].
    apply foldl_issues_ok; [apply checkNodeEntry_ok|]. constructor.
  - unfold checkPythonPackages in Hc. destruct content as [data|]; [|done].
    destruct (bufio.ScanLines data) as [lines [e|]]; [done|]. simplify_eq.
    apply foldl_issues_ok; [apply checkPythonLine_ok|]. constructor.
  - unfold checkRubyPackages in Hc. simplify_eq. constructor.
  - unfold checkGoPackages in Hc. simplify_eq. constructor.
  - by apply elem_of_nil in Hpf.
Qed.

Lemma checkPackageFiles_ok pfs baseName rel content issues :
  (∀ pf, pf ∈ pfs → pf ∈ packageFiles json_Unmarshal range_order) →
  issues_ok issues → issues_ok (checkPackageFiles pfs baseName rel content issues).
Proof.
  revert issues. induction pfs as [|pf pfs IH]; simpl; [done|].
  intros issues Hsub Hi.
  assert (pf ∈ packageFiles json_Unmarshal range_order) as Hpf
    by (apply Hsub; left).
  assert (∀ pf, pf ∈ pfs → pf ∈ packageFiles json_Unmarshal range_order) as Hpfs
    by (intros; apply Hsub; by right).
  destruct (decide (baseName = pf.1)); [|by auto].
  destruct (pf.2 content) as [pkgIssues|] eqn:Hc; [|done].
  apply IH; [done|]. apply Forall_app; split; [done|].
  apply Forall_map. eapply Forall_impl; [by eapply checkers_ok|]. done.
Qed.

Lemma findSensitiveFiles_ok imagePath tree : issues_ok (findSensitiveFiles imagePath tree).1.
Proof.
  unfold findSensitiveFiles, Walk. apply (walk_invariant issues_ok); [|constructor].
  intros path rel info err s Hs. unfold findSensitiveFilesFn.
  destruct err; [done|]. destruct (IsDir info); [done|]. cbn [fst].
  by apply matchSensitive_ok.
Qed.

Lemma findHardcodedSecrets_ok imagePath tree : issues_ok (findHardcodedSecrets imagePath tree).1.
Proof.
  unfold findHardcodedSecrets, Walk. apply (walk_invariant issues_ok); [|constructor].
  intros path rel info err s Hs. unfold findHardcodedSecretsFn.
  destruct err; [done|]. destruct (_ || _); [done|].
  destruct (content_of info) as [data|]; [|done].
  destruct (bufio.ScanLines data) as [lines e]. cbn [fst]. by apply scanSecrets_ok.
Qed.

Lemma findVulnerablePackages_ok imagePath tree :
  issues_ok (findVulnerablePackages json_Unmarshal range_order imagePath tree).1.
Proof.
  unfold findVulnerablePackages, Walk. apply (walk_invariant issues_ok); [|constructor].
  intros path rel info err s Hs. unfold findVulnerablePackagesFn.
  destruct err; [done|]. destruct (IsDir info); [done|]. cbn [fst].
  by apply checkPackageFiles_ok.
Qed.

Lemma countSeverity_total issues : ∀ result,
  issues_ok issues →
  let counted := foldl countSeverity result issues in
  (SecurityResult.HighSeverity counted + SecurityResult.MediumSeverity counted
   + SecurityResult.LowSeverity counted
   = SecurityResult.HighSeverity result + SecurityResult.MediumSeverity result
     + SecurityResult.LowSeverity result + Z.of_nat (length issues))%Z ∧
  SecurityResult.Issues counted = SecurityResult.Issues result.
Proof.
  induction issues as [|i issues IH]; intros result Hok; simpl; [split; [lia|done]|].
  apply Forall_cons in Hok as [Hi Hok].
  destruct (IH (countSeverity result i) Hok) as [IH1 IH2]. simpl in *.
  split; [|by rewrite IH2]. rewrite IH1. clear IH IH1 IH2.
  unfold severity_ok in Hi. apply bool_decide_eq_true in Hi.
  unfold countSeverity. simpl.
  destruct Hi as [Hi | [Hi | Hi]]; rewrite Hi; simpl; lia.
Qed.

(** C5. In every report of the security analyzer the total is the number
    of issues and the three severity counts add up to it. *)
Theorem security_counts (imagePath : string) (tree : node) (result : SecurityResult.t) :
  (AnalyzeSecurity json_Unmarshal range_order imagePath tree).1 = Some result →
  SecurityResult.TotalIssues result = Z.of_nat (length (SecurityResult.Issues result)) ∧
  (SecurityResult.HighSeverity result + SecurityResult.MediumSeverity result
   + SecurityResult.LowSeverity result = SecurityResult.TotalIssues result)%Z.
Proof.
  unfold AnalyzeSecurity.
  pose proof (findSensitiveFiles_ok imagePath tree) as H1.
  pose proof (findHardcodedSecrets_ok imagePath tree) as H2.
  pose proof (findVulnerablePackages_ok imagePath tree) as H3.
  destruct (findSensitiveFiles imagePath tree) as [sensitive [e|]]; [done|].
  destruct (findHardcodedSecrets imagePath tree) as [secrets [e|]]; [done|].
  destruct (findVulnerablePackages _ _ imagePath tree) as [vulns [e|]]; [done|].
  simpl in *. intros [= <-]. simpl.
  set (issues := sensitive ++ secrets ++ vulns).
  assert (issues_ok issues) as Hok by (by repeat (apply Forall_app; split)).
  destruct (countSeverity_total issues (SecurityResult.mk issues 0 0 0 0) Hok) as [Hc Hi].
  simpl in *. rewrite Hi. split; [done|]. lia.
Qed.
End Security.

Lemma matchSecret_find patterns relPath lineNum line issues :
  matchSecret patterns relPath lineNum line issues
  = issues ++ match List.find (λ p, regexp.MatchString (sc_regex p) line) patterns with
              | Some p => [secret_issue relPath lineNum p]
              | None => []
              end.
Proof.
  induction patterns as [|p ps IH]; cbn [matchSecret List.find]; [by rewrite app_nil_r|].
  destruct (regexp.MatchString (sc_regex p) line); [done|apply IH].
Qed.

Lemma scanSecrets_lines lines relPath : ∀ lineNum issues,
  scanSecrets lines relPath lineNum issues
  = issues ++ concat (imap (λ i line, line_findings relPath (S (lineNum + i)) line) lines).
Proof.
  induction lines as [|line lines IH]; intros lineNum issues; cbn [scanSecrets].
  - by rewrite app_nil_r.
  - rewrite IH, matchSecret_find, imap_cons. cbn [concat].
    rewrite Nat.add_0_r, <-app_assoc. unfold line_findings at 2. do 3 f_equal.
    apply imap_ext. intros i x _. simpl. do 2 f_equal. lia.
Qed.

(** C6. Scanning the lines of a file adds, for each line, the finding of
    the first secret pattern that matches it, located at
    [relative-path:line-number], and nothing else: at most one finding per
    line. The file [config.js] with the single line
    [const password = 'supersecretpw';] gives exactly one finding, at
    [config.js:1], of severity HIGH. *)
Theorem secret_first_match_per_line (relPath : string) (lines : list string) :
  scanSecrets lines relPath 0 []
    = concat (imap (λ i line, line_findings relPath (S i) line) lines) ∧
  (∀ lineNum line, length (line_findings relPath lineNum line) ≤ 1) ∧
  (∀ lineNum line p,
     List.find (λ p, regexp.MatchString (sc_regex p) line) secretPatterns = Some p →
     line_findings relPath lineNum line
     = [SecurityIssue.mk "HARDCODED_SECRET" (relPath +:+ ":" +:+ Itoa lineNum)
          (sc_desc p) (sc_severity p)]) ∧
  findHardcodedSecrets "/img" config_js_tree
    = ([SecurityIssue.mk "HARDCODED_SECRET" "config.js:1" "Hardcoded password" "HIGH"], None).
Proof.
  split; [apply (scanSecrets_lines lines relPath 0 [])|].
  split; [|split].
  - intros lineNum line. unfold line_findings. destruct (List.find _ _); simpl; lia.
  - intros lineNum line p Hp. unfold line_findings. by rewrite Hp.
  - vm_compute. reflexivity.
Qed.

Lemma security_counts_witness :
  let result :=
    SecurityResult.mk
      [SecurityIssue.mk "HARDCODED_SECRET" "config.js:1" "Hardcoded password" "HIGH"] 1 1 0 0 in
  SecurityResult.TotalIssues result = Z.of_nat (length (SecurityResult.Issues result)) ∧
  (SecurityResult.HighSeverity result + SecurityResult.MediumSeverity result
   + SecurityResult.LowSeverity result = SecurityResult.TotalIssues result)%Z.
Proof.
  apply (security_counts (λ _, None) map_to_list "/img" config_js_tree).
  vm_compute. reflexivity.
Defined.

Section Security.
Variable json_Unmarshal : string → option packageJSON.
Variable range_order : gmap string string → list (string * string).

Lemma AnalyzeImage_sub_reports (now : Z) (imagePath : string) (tree : node) (verbose : bool) :
  let result := AnalyzeImage json_Unmarshal range_order now imagePath tree verbose in
  ImagePath result = imagePath ∧
  DirectoryInfo_ result = sub_report (AnalyzeDirectory imagePath tree verbose) ∧
  SecurityInfo result
    = sub_report_opt (AnalyzeSecurity json_Unmarshal range_order imagePath tree) ∧
  SizeInfo_ result = sub_report_opt (AnalyzeSize imagePath tree).
Proof.
  unfold AnalyzeImage.
  destruct (AnalyzeDirectory _ _ _) as [? [?|]], (AnalyzeSecurity _ _ _ _) as [? [?|]],
    (AnalyzeSize _ _) as [? [?|]]; done.
Qed.

(** C8. The aggregate analysis always returns a result; each sub-report
    is present exactly when its own analyzer succeeded, whatever the
    other two did. A tree with one over-long text line makes the security
    analyzer fail while the directory and size reports are included. *)
Theorem analyzers_isolated (now : Z) (imagePath : string) (tree : node) (verbose : bool) :
  let result := AnalyzeImage json_Unmarshal range_order now imagePath tree verbose in
  ImagePath result = imagePath ∧
  DirectoryInfo_ result = sub_report (AnalyzeDirectory imagePath tree verbose) ∧
  SecurityInfo result
    = sub_report_opt (AnalyzeSecurity json_Unmarshal range_order imagePath tree) ∧
  SizeInfo_ result = sub_report_opt (AnalyzeSize imagePath tree) ∧
  (let failing := AnalyzeImage json_Unmarshal range_order now "/img" long_line_tree verbose in
   (AnalyzeSecurity json_Unmarshal range_order "/img" long_line_tree).2 = Some ErrTooLong ∧
   SecurityInfo failing = None ∧
   is_Some (DirectoryInfo_ failing) ∧ is_Some (SizeInfo_ failing)).
Proof.
  destruct (AnalyzeImage_sub_reports now imagePath tree verbose) as (H1 & H2 & H3 & H4).
  split; [done|]. split; [done|]. split; [done|]. split; [done|].
  clear H1 H2 H3 H4.
  - assert ((AnalyzeSecurity json_Unmarshal range_order "/img" long_line_tree).2
            = Some ErrTooLong) as Hs.
    { unfold AnalyzeSecurity.
      assert (findSensitiveFiles "/img" long_line_tree = ([], None)) as -> by (by vm_compute).
      assert (findHardcodedSecrets "/img" long_line_tree = ([], Some ErrTooLong)) as ->
        by (by vm_compute).
      done. }
    split; [done|]. unfold AnalyzeImage.
    destruct (AnalyzeSecurity _ _ _ _) as [? [?|]]; [|done].
    assert (is_Some (sub_report (AnalyzeDirectory "/img" long_line_tree verbose))) as Hd
      by (destruct verbose; vm_compute; eauto).
    assert (is_Some (sub_report_opt (AnalyzeSize "/img" long_line_tree))) as Hz
      by (vm_compute; eauto).
    destruct (AnalyzeDirectory _ _ _) as [? [?|]], (AnalyzeSize _ _) as [? [?|]];
      simpl in *; try done; by destruct Hd, Hz.
Qed.
End Security.

Lemma prefix_app_inv (p s : string) :
  String.prefix p s = true → ∃ v, s = p +:+ v.
Proof.
  revert s. induction p as [|c p IH]; intros s; simpl.
  - destruct s; eauto.
  - destruct s as [|c' s]; [done|]. simpl.
    destruct (Ascii.ascii_dec c c') as [->|]; [|done].
    intros [v ->]%IH. by exists v.
Qed.

Lemma prefix_app (p v : string) : String.prefix p (p +:+ v) = true.
Proof.
  induction p as [|c p IH]; [by destruct v|].
  change (String c p +:+ v) with (String c (p +:+ v)). simpl.
  destruct (Ascii.ascii_dec c c); [apply IH|done].
Qed.

Lemma string_app_cons (c : ascii) (a b : string) : String c a +:+ b = String c (a +:+ b).
Proof. reflexivity. Qed.

Lemma string_app_assoc (a b c : string) : (a +:+ b) +:+ c = a +:+ (b +:+ c).
Proof. induction a as [|x a IH]; [done|]. by rewrite !string_app_cons, IH. Qed.

Lemma Contains_spec (s sub : string) :
  strings.Contains s sub = true ↔ ∃ u v, s = u +:+ sub +:+ v.
Proof.
  split.
  - induction s as [|c s IH]; cbn [strings.Contains].
    + rewrite orb_false_r. intros [v ->]%prefix_app_inv. by exists "", v.
    + intros [[v ->]%prefix_app_inv|(u & v & ->)%IH]%orb_prop.
      * by exists "", v.
      * by exists (String c u), v.
  - intros (u & v & ->). induction u as [|c u IH].
    + change ("" +:+ sub +:+ v) with (sub +:+ v).
      destruct (sub +:+ v) eqn:E; cbn [strings.Contains]; rewrite <-E, prefix_app; done.
    + change (String c u +:+ sub +:+ v) with (String c (u +:+ sub +:+ v)).
      cbn [strings.Contains]. rewrite IH. apply orb_true_r.
Qed.

Lemma Contains_app_r (s a b : string) :
  strings.Contains s (a +:+ b) = true → strings.Contains s b = true.
Proof.
  intros (u & v & ->)%Contains_spec. apply Contains_spec.
  exists (u +:+ a), v. by rewrite !string_app_assoc.
Qed.

Lemma matchSensitive_find patterns relPath issues :
  matchSensitive patterns relPath issues
  = issues ++ match list_find (λ p, matches_path relPath p = true) patterns with
              | Some (_, p) => [sensitive_issue relPath p]
              | None => []
              end.
Proof.
  induction patterns as [|p ps IH]; cbn [matchSensitive list_find]; [by rewrite app_nil_r|].
  unfold matches_path at 1. destruct (decide _) as [Hm|Hm].
  - by rewrite Hm.
  - apply not_true_is_false in Hm. rewrite Hm, IH.
    by destruct (list_find _ ps) as [[??]|].
Qed.

(** C10 (amended). For a file whose lower-cased relative path contains
    [.docker/config.json] the path also contains [config.json], so the
    winning table entry is [config.json] (index 6) or one of the six
    entries before it; the [.docker/config.json] entry (index 12) never
    wins. The finding is the generic configuration-file one exactly when
    none of the six earlier entries occurs in the path: when one of them
    occurs, the finding is that of the first of them, and its text
    differs from the generic one. *)
Theorem docker_config_entry_shadowed (relPath : string) (issues : list SecurityIssue.t) :
  strings.Contains (strings.ToLower relPath) ".docker/config.json" = true →
  matches_path relPath config_json_entry = true ∧
  ∃ i p,
    list_find (λ p, matches_path relPath p = true) sensitivePatterns = Some (i, p) ∧
    i ≤ 6 ∧
    sensitivePatterns !! 6 = Some config_json_entry ∧
    sensitivePatterns !! 12 = Some docker_config_entry ∧
    matchSensitive sensitivePatterns relPath issues = issues ++ [sensitive_issue relPath p] ∧
    (i = 6 → sensitive_issue relPath p
             = SecurityIssue.mk "SENSITIVE_FILE" relPath
                 "Configuration file may contain sensitive information" "MEDIUM") ∧
    (sensitive_issue relPath p
       = SecurityIssue.mk "SENSITIVE_FILE" relPath
           "Configuration file may contain sensitive information" "MEDIUM"
     ↔ ∀ j q, j < 6 → sensitivePatterns !! j = Some q → matches_path relPath q = false) ∧
    sp_pattern <$> take 6 sensitivePatterns
      = [".env"; ".aws/credentials"; ".ssh/id_rsa"; ".ssh/id_dsa"; ".ssh/id_ecdsa";
         ".ssh/id_ed25519"].
Proof.
  intros Hd.
  assert (matches_path relPath config_json_entry = true) as Hc.
  { unfold matches_path. simpl. by apply (Contains_app_r _ ".docker/"). }
  split; [done|].
  destruct (list_find (λ p, matches_path relPath p = true) sensitivePatterns)
    as [[i p]|] eqn:Hfind.
  - exists i, p. split; [done|].
    apply list_find_Some in Hfind as (Hi & Hp & Hbefore).
    assert (i ≤ 6) as Hle.
    { destruct (decide (i ≤ 6)); [done|]. exfalso.
      apply (Hbefore 6 config_json_entry); [done|lia|done]. }
    split; [done|]. split; [done|]. split; [done|]. split.
    + rewrite matchSensitive_find.
      assert (list_find (λ p, matches_path relPath p = true) sensitivePatterns = Some (i, p))
        as -> by (apply list_find_Some; eauto). done.
    + assert (i = 6 → sensitive_issue relPath p
                      = SecurityIssue.mk "SENSITIVE_FILE" relPath
                          "Configuration file may contain sensitive information" "MEDIUM")
        as Hgeneric.
      { intros ->. change (Some config_json_entry = Some p) in Hi. by simplify_eq. }
      split; [done|]. split; [|reflexivity]. split.
      * intros Hgen j q Hj Hq.
        assert (i = 6) as ->.
        { destruct (decide (i = 6)) as [|Hne]; [done|]. exfalso.
          unfold sensitive_issue in Hgen.
          assert (sp_desc p = "Configuration file may contain sensitive information")
            as Hdesc by congruence.
          clear Hgen Hgeneric Hbefore Hp Hq.
          destruct i as [|[|[|[|[|[|i]]]]]]; [..|lia];
            injection Hi as <-; discriminate Hdesc. }
        apply not_true_is_false. by apply (Hbefore j q).
      * intros Hnone. apply Hgeneric.
        destruct (decide (i = 6)) as [|Hne]; [done|]. exfalso.
        assert (i < 6) as Hlt by lia.
        rewrite (Hnone i p Hlt Hi) in Hp. done.
  - apply list_find_None in Hfind.
    exfalso. eapply (Forall_lookup_1 _ _ 6 config_json_entry) in Hfind; done.
Qed.

Lemma docker_config_entry_shadowed_witness :
  ∃ i p,
    list_find (λ p, matches_path "root/.docker/config.json" p = true) sensitivePatterns
      = Some (i, p) ∧ i ≤ 6.
Proof.
  destruct (docker_config_entry_shadowed "root/.docker/config.json" [])
    as [_ (i & p & H1 & H2 & _)]; [by vm_compute|]. eauto.
Defined.

(** C10 as stated fails: the file [.env/.docker/config.json] contains
    [.docker/config.json] in its path, and its finding is the [.env] one
    (HIGH), not the generic configuration-file finding; and the
    description text of the [.docker/config.json] entry is emitted for a
    file [.dockercfg], whose entry has the same text. *)
Lemma docker_config_not_generic :
  strings.Contains (strings.ToLower ".env/.docker/config.json") ".docker/config.json" = true ∧
  findSensitiveFiles "/img" env_docker_tree
    = ([SecurityIssue.mk "SENSITIVE_FILE" ".env/.docker/config.json"
          "Environment file may contain sensitive information" "HIGH"], None) ∧
  findSensitiveFiles "/img" env_docker_tree
    ≠ ([sensitive_issue ".env/.docker/config.json" config_json_entry], None) ∧
  findSensitiveFiles "/img" dockercfg_tree
    = ([SecurityIssue.mk "SENSITIVE_FILE" ".dockercfg"
          (sp_desc docker_config_entry) "MEDIUM"], None).
Proof. repeat split; vm_compute; (reflexivity || discriminate). Qed.

Lemma range_ascending_valid : valid_range_order range_ascending.
Proof. intros m. apply sort_entries_perm. Qed.

Lemma range_descending_valid : valid_range_order range_descending.
Proof. intros m. unfold range_descending. by rewrite reverse_Permutation, sort_entries_perm. Qed.

Lemma checkNodeEntry_app tag issues e :
  checkNodeEntry tag issues e = issues ++ checkNodeEntry tag [] e.
Proof.
  unfold checkNodeEntry. destruct e as [name version].
  destruct (nodeVulnPackages !! name); [|by rewrite app_nil_r].
  destruct (String.ltb _ _); [done|by rewrite app_nil_r].
Qed.

Lemma foldl_checkNodeEntry tag l : ∀ issues,
  foldl (checkNodeEntry tag) issues l = issues ++ flat_map (checkNodeEntry tag []) l.
Proof.
  induction l as [|e l IH]; intros issues; simpl; [by rewrite app_nil_r|].
  rewrite IH, (checkNodeEntry_app tag issues e). by rewrite <-app_assoc.
Qed.

Lemma opt_perm_refl {B} (a : option (list B)) : opt_perm a a.
Proof. destruct a; simpl; done. Qed.

Lemma checkPackageFiles_rel pfs1 pfs2 baseName rel content :
  Forall2 (λ pf1 pf2 : string * (option string → option (list SecurityIssue.t)),
             pf1.1 = pf2.1 ∧ opt_perm (pf1.2 content) (pf2.2 content)) pfs1 pfs2 →
  ∀ issues1 issues2, issues1 ≡ₚ issues2 →
  checkPackageFiles pfs1 baseName rel content issues1
  ≡ₚ checkPackageFiles pfs2 baseName rel content issues2.
Proof.
  induction 1 as [|pf1 pf2 pfs1 pfs2 [Hname Hcheck] _ IH]; intros issues1 issues2 Hi;
    cbn [checkPackageFiles]; [done|].
  rewrite <-Hname. destruct (decide (baseName = pf1.1)); [|by apply IH].
  unfold opt_perm in Hcheck.
  destruct (pf1.2 content) as [p1|], (pf2.2 content) as [p2|]; try done.
  apply IH. by rewrite Hi, Hcheck.
Qed.

Lemma countSeverity_fields issues : ∀ result,
  let counted := foldl countSeverity result issues in
  let count sev := Z.of_nat (length (List.filter
                     (λ i, bool_decide (SecurityIssue.Severity i = sev)) issues)) in
  SecurityResult.HighSeverity counted = (SecurityResult.HighSeverity result + count "HIGH")%Z ∧
  SecurityResult.MediumSeverity counted
    = (SecurityResult.MediumSeverity result + count "MEDIUM")%Z ∧
  SecurityResult.LowSeverity counted = (SecurityResult.LowSeverity result + count "LOW")%Z.
Proof.
  induction issues as [|i issues IH]; intros result; simpl; [lia|].
  destruct (IH (countSeverity result i)) as (-> & -> & ->). simpl.
  repeat match goal with
  | |- context [decide ?P] => destruct (decide P) as [->|?]; simpl
  | |- context [bool_decide ?P] => destruct (bool_decide_reflect P); simpl; try done
  end; lia.
Qed.

Lemma filter_length_perm {B} (f : B → bool) l1 l2 :
  l1 ≡ₚ l2 → length (List.filter f l1) = length (List.filter f l2).
Proof.
  induction 1; simpl; repeat case_match; simpl; congruence.
Qed.

Section two_orders.
Variable json_Unmarshal : string → option packageJSON.
Variables order1 order2 : gmap string string → list (string * string).
Hypothesis Hvalid1 : valid_range_order order1.
Hypothesis Hvalid2 : valid_range_order order2.

Lemma flat_map_perm {B C} (f : B → list C) l1 l2 :
  l1 ≡ₚ l2 → flat_map f l1 ≡ₚ flat_map f l2.
Proof.
  induction 1 as [|x l l' _ IH|x y l|l l' l'' _ IH1 _ IH2]; simpl.
  - done.
  - by rewrite IH.
  - rewrite !app_assoc. f_equiv. apply Permutation_app_comm.
  - by rewrite IH1.
Qed.

Lemma checkNodePackages_perm content :
  match checkNodePackages json_Unmarshal order1 content,
        checkNodePackages json_Unmarshal order2 content with
  | Some a, Some b => a ≡ₚ b
  | None, None => True
  | _, _ => False
  end.
Proof using Hvalid1 Hvalid2.
  unfold checkNodePackages. destruct content as [data|]; [|done].
  destruct (json_Unmarshal data) as [pkg|]; [|done].
  rewrite !foldl_checkNodeEntry. simpl.
  f_equiv; apply flat_map_perm; (etrans; [apply Hvalid1|symmetry; apply Hvalid2]).
Qed.

Lemma packageFiles_rel content :
  Forall2 (λ pf1 pf2 : string * (option string → option (list SecurityIssue.t)),
             pf1.1 = pf2.1 ∧ opt_perm (pf1.2 content) (pf2.2 content))
    (packageFiles json_Unmarshal order1) (packageFiles json_Unmarshal order2).
Proof using Hvalid1 Hvalid2.
  unfold packageFiles. repeat constructor; simpl; try apply opt_perm_refl.
  apply checkNodePackages_perm.
Qed.

Lemma findVulnerablePackages_perm imagePath tree :
  (findVulnerablePackages json_Unmarshal order1 imagePath tree).1
    ≡ₚ (findVulnerablePackages json_Unmarshal order2 imagePath tree).1 ∧
  (findVulnerablePackages json_Unmarshal order1 imagePath tree).2
    = (findVulnerablePackages json_Unmarshal order2 imagePath tree).2.
Proof using Hvalid1 Hvalid2.
  unfold findVulnerablePackages, Walk. apply (walk_rel Permutation); [|done].
  intros path rel info err s1 s2 Hs. unfold findVulnerablePackagesFn.
  destruct err; [done|]. destruct (IsDir info); [done|]. cbn [fst snd].
  split; [|done]. apply checkPackageFiles_rel; [apply packageFiles_rel|done].
Qed.

Lemma AnalyzeSecurity_perm imagePath tree :
  same_findings (sub_report_opt (AnalyzeSecurity json_Unmarshal order1 imagePath tree))
                (sub_report_opt (AnalyzeSecurity json_Unmarshal order2 imagePath tree)).
Proof using Hvalid1 Hvalid2.
  unfold AnalyzeSecurity.
  destruct (findSensitiveFiles imagePath tree) as [sensitive [e|]]; [done|].
  destruct (findHardcodedSecrets imagePath tree) as [secrets [e|]]; [done|].
  destruct (findVulnerablePackages_perm imagePath tree) as [Hp He].
  destruct (findVulnerablePackages _ order1 _ _) as [v1 e1],
           (findVulnerablePackages _ order2 _ _) as [v2 e2]. simpl in Hp, He. subst e2.
  destruct e1; [done|]. cbn [sub_report_opt same_findings].
  cbn [SecurityResult.Issues SecurityResult.TotalIssues SecurityResult.HighSeverity
       SecurityResult.MediumSeverity SecurityResult.LowSeverity].
  assert (([] ++ sensitive) ++ secrets ++ v1 ≡ₚ ([] ++ sensitive) ++ secrets ++ v2) as Hall
    by (by rewrite Hp).
  set (i1 := ([] ++ sensitive) ++ secrets ++ v1) in *.
  set (i2 := ([] ++ sensitive) ++ secrets ++ v2) in *.
  pose proof (countSeverity_fields i1 (SecurityResult.mk i1 0 0 0 0)) as (H1 & M1 & L1).
  pose proof (countSeverity_fields i2 (SecurityResult.mk i2 0 0 0 0)) as (H2 & M2 & L2).
  pose proof (countSeverity_total i1 (SecurityResult.mk i1 0 0 0 0)) as C1.
  rewrite H1, M1, L1, H2, M2, L2. simpl.
  rewrite !(filter_length_perm _ i1 i2 Hall), (Permutation_length Hall).
  split; [|done].
  assert (∀ issues r, SecurityResult.Issues (foldl countSeverity r issues)
                      = SecurityResult.Issues r) as Hkeep.
  { induction issues as [|x xs IHx]; intros r; simpl; [done|]. by rewrite IHx. }
  by rewrite !Hkeep.
Qed.

(** C9 (amended). Two runs over the same tree give the same directory
    report and the same size report, and security reports with the same
    findings and the same counts; the order of the findings may differ,
    because the findings of one [package.json] follow the order in which
    Go ranges over its dependency maps. *)
Theorem reports_determined_up_to_range_order
    (now1 now2 : Z) (imagePath : string) (tree : node) (verbose : bool) :
  let run1 := AnalyzeImage json_Unmarshal order1 now1 imagePath tree verbose in
  let run2 := AnalyzeImage json_Unmarshal order2 now2 imagePath tree verbose in
  DirectoryInfo_ run1 = DirectoryInfo_ run2 ∧
  SizeInfo_ run1 = SizeInfo_ run2 ∧
  same_findings (SecurityInfo run1) (SecurityInfo run2).
Proof using Hvalid1 Hvalid2.
  cbv zeta.
  destruct (AnalyzeImage_sub_reports json_Unmarshal order1 now1 imagePath tree verbose)
    as (_ & -> & -> & ->).
  destruct (AnalyzeImage_sub_reports json_Unmarshal order2 now2 imagePath tree verbose)
    as (_ & -> & -> & ->).
  split; [done|]. split; [done|]. apply AnalyzeSecurity_perm.
Qed.
End two_orders.

Lemma reports_determined_witness :
  same_findings
    (SecurityInfo (AnalyzeImage json_two_deps range_ascending 0 "/img" two_deps_tree false))
    (SecurityInfo (AnalyzeImage json_two_deps range_descending 1 "/img" two_deps_tree false)).
Proof.
  apply (reports_determined_up_to_range_order json_two_deps range_ascending range_descending
           range_ascending_valid range_descending_valid 0 1 "/img" two_deps_tree false).
Defined.

(** C9 as stated fails: a [package.json] with two vulnerable dependencies
    gives two different security reports under two range orders. *)
Lemma security_report_depends_on_range_order :
  valid_range_order range_ascending ∧ valid_range_order range_descending ∧
  AnalyzeSecurity json_two_deps range_ascending "/img" two_deps_tree
  ≠ AnalyzeSecurity json_two_deps range_descending "/img" two_deps_tree.
Proof.
  split; [apply range_ascending_valid|]. split; [apply range_descending_valid|].
  vm_compute. discriminate.
Qed.

(** C1 (code bug). The containment test is a string-prefix test, so an
    entry named [../image-evil/pwn.txt] resolves to the sibling
    [/tmp/scan/image-evil/pwn.txt] of the destination [/tmp/scan/image],
    passes the test, and is written outside the destination without an
    error; likewise for a layer tarball and [utils.ExtractTar]. *)
Theorem sibling_prefix_escapes_containment :
  let target := filepath.Join ["/tmp/scan/image"; "../image-evil/pwn.txt"] in
  let outer :=
    extractFromTarFile untar_sibling gunzip_none "/tmp/image.tar" "/tmp/scan" outer_fs in
  let layerTarget :=
    filepath.Join ["/tmp/scan/image/l1/extracted"; "../extracted-evil/pwn.txt"] in
  let layer :=
    ExtractTar untar_sibling "/tmp/scan/image/l1/layer.tar"
      "/tmp/scan/image/l1/extracted" layer_fs in
  (target = "/tmp/scan/image-evil/pwn.txt" ∧
   ¬ inside "/tmp/scan/image" target ∧
   outer.2 = inl "/tmp/scan/image" ∧
   outer.1 !! target = Some (os.FsFile 420 "x")) ∧
  (layerTarget = "/tmp/scan/image/l1/extracted-evil/pwn.txt" ∧
   ¬ inside "/tmp/scan/image/l1/extracted" layerTarget ∧
   layer.2 = None ∧
   layer.1 !! layerTarget = Some (os.FsFile 420 "x")).
Proof.
  cbv zeta. split.
  - split; [vm_compute; reflexivity|].
    split; [apply (bool_decide_eq_false_1 (inside _ _)); vm_compute; reflexivity|].
    split; vm_compute; reflexivity.
  - split; [vm_compute; reflexivity|].
    split; [apply (bool_decide_eq_false_1 (inside _ _)); vm_compute; reflexivity|].
    split; vm_compute; reflexivity.
Qed.

(** C2 (code bug). The bounds of the table carry their operator: the
    declared version is compared with the string [<4.17.21], not with
    [4.17.21]. The version [4.17.21] is not below [4.17.21], and it is
    flagged all the same, with the advice to update to [>=4.17.21]. *)
Theorem fixed_version_still_flagged :
  String.ltb "4.17.21" "4.17.21" = false ∧
  nodeVulnPackages !! "lodash"
    = Some (mkVuln "<4.17.21" "HIGH" "Prototype Pollution in lodash" ">=4.17.21") ∧
  checkNodePackages (λ _, Some fixed_lodash_pkg) range_ascending (Some "{}")
    = Some [SecurityIssue.mk "VULNERABLE_PACKAGE" "package.json: lodash@4.17.21"
              "Prototype Pollution in lodash. Update to >=4.17.21" "HIGH"] ∧
  checkNodePackages (λ _, Some (mkPackageJSON {[ "lodash" := "4.17.20" ]} ∅))
    range_ascending (Some "{}")
    = Some [SecurityIssue.mk "VULNERABLE_PACKAGE" "package.json: lodash@4.17.20"
              "Prototype Pollution in lodash. Update to >=4.17.21" "HIGH"].
Proof. repeat split; vm_compute; reflexivity. Qed.

(** Every declared version that starts with a digit is below every bound
    of the table, because the bounds start with the byte [<]. *)
Lemma digit_version_flagged (tag name : string) (vuln : vulnPackage) (c : ascii) (rest : string) :
  nodeVulnPackages !! name = Some vuln →
  (48 ≤ nat_of_ascii c ≤ 57)%nat →
  ∃ issue, checkNodeEntry tag [] (name, String c rest) = [issue].
Proof.
  intros Hv Hc. unfold checkNodeEntry. rewrite Hv.
  assert (stripRange (String c rest) = String c rest) as ->.
  { unfold stripRange, strings.HasPrefix. cbn [String.prefix].
    destruct (Ascii.ascii_dec "^" c) as [<-|]; [vm_compute in Hc; lia|].
    destruct (Ascii.ascii_dec "~" c) as [<-|]; [vm_compute in Hc; lia|]. done. }
  assert (String.ltb (String c rest) (vp_version vuln) = true) as ->; [|eauto].
  assert (∃ r, vp_version vuln = String "<" r) as [r ->].
  { apply elem_of_list_to_map_2 in Hv.
    repeat (apply elem_of_cons in Hv as [Hv|Hv]; [simplify_eq; simpl; eauto|]).
    by apply elem_of_nil in Hv. }
  unfold String.ltb. simpl. unfold Ascii.compare.
  assert (N_of_ascii c < N_of_ascii "<")%N as Hlt.
  { unfold nat_of_ascii in Hc. change (N_of_ascii "<") with 60%N. lia. }
  apply N.compare_lt_iff in Hlt. by rewrite Hlt.
Qed.

(** ** [sort.Slice] sorts *)

(** [use H]: keep the conclusion of [H] when [lia] proves its premises. *)
Ltac spec_lia H :=
  repeat lazymatch type of H with
  | ?P → _ => let HP := fresh in (assert (HP : P) by lia); specialize (H HP); clear HP
  end.

Ltac use H :=
  let Hu := fresh "Hu" in
  pose proof H as Hu;
  try spec_lia Hu;
  lazymatch type of Hu with
  | _ → _ => clear Hu
  | _ => idtac
  end.

(** Instantiate a hypothesis quantified over two indices at all pairs of
    the given index terms. *)
Ltac inst2 H ts :=
  let rec outer l :=
    lazymatch l with
    | nil => idtac
    | cons ?x ?xs =>
        let rec inner m :=
          lazymatch m with
          | nil => idtac
          | cons ?y ?ys => use (H x y); inner ys
          end in
        inner ts; outer xs
    end in
  outer ts.

Section SliceCorrect.

Context {A : Type}.
Variable key : A → Z.
Variable less : A → A → bool.
Hypothesis Hless : ∀ x y, less x y = bool_decide (key x < key y)%Z.

Implicit Types d : list A.

Lemma Swap_length d i j : length (sort.Swap d i j) = length d.
Proof.
  unfold sort.Swap. destruct (d !! i), (d !! j); try done.
  by rewrite !length_insert.
Qed.

Lemma Swap_perm d i j : sort.Swap d i j ≡ₚ d.
Proof.
  unfold sort.Swap. destruct (d !! i) as [x|] eqn:Hi, (d !! j) as [y|] eqn:Hj; try done.
  by apply Permutation_insert_swap.
Qed.

Lemma Swap_lookup d i j k :
  i < length d → j < length d →
  sort.Swap d i j !! k
  = if decide (k = i) then d !! j else if decide (k = j) then d !! i else d !! k.
Proof.
  intros Hi Hj. unfold sort.Swap.
  destruct (lookup_lt_is_Some_2 d i Hi) as [x Hx], (lookup_lt_is_Some_2 d j Hj) as [y Hy].
  rewrite Hx, Hy.
  destruct (decide (k = i)) as [->|].
  { by rewrite list_lookup_insert_eq by (by rewrite length_insert). }
  rewrite list_lookup_insert_ne by done.
  destruct (decide (k = j)) as [->|].
  { by rewrite list_lookup_insert_eq. }
  by rewrite list_lookup_insert_ne.
Qed.

Lemma Swap_noop d i j : length d ≤ i ∨ length d ≤ j → sort.Swap d i j = d.
Proof.
  intros H. unfold sort.Swap.
  destruct (d !! i) as [x|] eqn:Hi; [|done].
  destruct (d !! j) as [y|] eqn:Hj; [|done].
  apply lookup_lt_Some in Hi, Hj. lia.
Qed.

Lemma Swap_lookup_other d i j k : k ≠ i → k ≠ j → sort.Swap d i j !! k = d !! k.
Proof.
  intros Hi Hj.
  destruct (decide (i < length d ∧ j < length d)) as [[??]|?].
  - rewrite Swap_lookup by done. by rewrite !decide_False.
  - rewrite Swap_noop; [done|lia].
Qed.

Lemma K_Swap d i j k :
  i < length d → j < length d →
  K key (sort.Swap d i j) k
  = if decide (k = i) then K key d j else if decide (k = j) then K key d i else K key d k.
Proof.
  intros Hi Hj. unfold K. rewrite Swap_lookup by done. repeat case_decide; done.
Qed.

Lemma Less_K d i j :
  i < length d → j < length d →
  sort.Less less d i j = bool_decide (K key d i < K key d j)%Z.
Proof using Hless.
  intros Hi Hj. unfold sort.Less, K.
  destruct (lookup_lt_is_Some_2 d i Hi) as [x ->], (lookup_lt_is_Some_2 d j Hj) as [y ->].
  apply Hless.
Qed.

Lemma swaps_trans a b d1 d2 d3 : swaps a b d1 d2 → swaps a b d2 d3 → swaps a b d1 d3.
Proof.
  induction 1 as [|d i j d' Hi Hj _ IH]; [done|].
  intros H3. apply (swaps_step _ _ d i j); [done..|by apply IH].
Qed.

Lemma swaps_mono a b a' b' d d' :
  a' ≤ a → b ≤ b' → swaps a b d d' → swaps a' b' d d'.
Proof.
  intros Ha Hb. induction 1 as [|d i j d' Hi Hj _ IH]; [apply swaps_refl|].
  apply (swaps_step _ _ d i j); [lia..|done].
Qed.

Lemma swaps_one a b d i j : a ≤ i < b → a ≤ j < b → swaps a b d (sort.Swap d i j).
Proof. intros. apply (swaps_step _ _ d i j); [done..|apply swaps_refl]. Qed.

Lemma swaps_length a b d d' : swaps a b d d' → length d' = length d.
Proof. induction 1 as [|d i j d' _ _ _ IH]; [done|]. by rewrite IH, Swap_length. Qed.

Lemma swaps_perm a b d d' : swaps a b d d' → d' ≡ₚ d.
Proof. induction 1 as [|d i j d' _ _ _ IH]; [done|]. by rewrite IH, Swap_perm. Qed.

Lemma swaps_lookup_outside a b d d' k :
  swaps a b d d' → k < a ∨ b ≤ k → d' !! k = d !! k.
Proof.
  induction 1 as [|d i j d' Hi Hj _ IH]; intros Hk; [done|].
  rewrite IH by done. apply Swap_lookup_other; lia.
Qed.

Lemma swaps_K_outside a b d d' k :
  swaps a b d d' → k < a ∨ b ≤ k → K key d' k = K key d k.
Proof. intros H Hk. unfold K. by rewrite (swaps_lookup_outside a b d d' k). Qed.

(** A property of all the keys in [a, b) is kept. *)
Lemma swaps_K_forall (P : Z → Prop) a b d d' :
  swaps a b d d' →
  (∀ k, a ≤ k < b → P (K key d k)) → ∀ k, a ≤ k < b → P (K key d' k).
Proof.
  induction 1 as [|d i j d' Hi Hj _ IH]; intros HP; [done|].
  apply IH. intros k Hk.
  destruct (decide (i < length d ∧ j < length d)) as [[??]|?].
  - rewrite K_Swap by done. repeat case_decide; auto.
  - rewrite Swap_noop by lia. auto.
Qed.

Lemma insert_down_spec a i : ∀ j d,
  a ≤ j → j ≤ i → i < length d →
  sorted_range key a j d → sorted_range key j (S i) d →
  (∀ p q, a ≤ p → p < j → j < q → q ≤ i → (K key d p ≤ K key d q)%Z) →
  swaps a (S i) d (sort.insert_down less a j d) ∧
  sorted_range key a (S i) (sort.insert_down less a j d).
Proof using Hless.
  induction j as [|j IH]; intros d Haj Hji Hi Hs1 Hs2 Hc; cbn [sort.insert_down].
  - split; [apply swaps_refl|]. intros p q ???. apply Hs2; lia.
  - rewrite Less_K by lia.
    destruct (a <? S j) eqn:Ha; [apply Nat.ltb_lt in Ha|apply Nat.ltb_ge in Ha]; cbn [andb].
    + case_bool_decide as Hlt.
      * destruct (IH (sort.Swap d (S j) j)) as [Hsw Hso].
        -- lia.
        -- lia.
        -- by rewrite Swap_length.
        -- intros p q ???. rewrite !K_Swap by lia.
           repeat case_decide; try lia. apply Hs1; lia.
        -- intros p q ???. rewrite !K_Swap by lia.
           unfold sorted_range in *.
           repeat case_decide; try subst p; try subst q;
             lazymatch goal with
             | |- (K key _ ?x ≤ K key _ ?y)%Z =>
                 inst2 Hs1 [x; y; j; S j]; inst2 Hs2 [x; y; j; S j]; inst2 Hc [x; y; j; S j]
             end; lia.
        -- intros p q ????. rewrite !K_Swap by lia.
           unfold sorted_range in *.
           repeat case_decide; try subst p; try subst q;
             lazymatch goal with
             | |- (K key _ ?x ≤ K key _ ?y)%Z =>
                 inst2 Hs1 [x; y; j; S j]; inst2 Hs2 [x; y; j; S j]; inst2 Hc [x; y; j; S j]
             end; lia.
        -- split; [|done]. eapply swaps_trans; [|exact Hsw].
           apply swaps_one; lia.
      * split; [apply swaps_refl|]. intros p q ???.
        unfold sorted_range in *.
        destruct (decide (q ≤ j)); [apply Hs1; lia|].
        destruct (decide (S j ≤ p)); [apply Hs2; lia|].
        use (Hs1 p j). use (Hs2 (S j) q). lia.
    + split; [apply swaps_refl|]. intros p q ???. apply Hs2; lia.
Qed.

Lemma insertion_loop_spec a : ∀ n i d,
  a < i → i + n ≤ length d → sorted_range key a i d →
  swaps a (i + n) d (sort.insertion_loop less a i n d) ∧
  sorted_range key a (i + n) (sort.insertion_loop less a i n d).
Proof using Hless.
  induction n as [|n IH]; intros i d Hai Hlen Hs; cbn [sort.insertion_loop].
  - rewrite Nat.add_0_r. split; [apply swaps_refl|done].
  - destruct (insert_down_spec a i i d) as [Hsw Hso]; [lia..|done| | |].
    { intros p q ???. assert (p = q) as -> by lia. lia. }
    { intros p q ????. lia. }
    destruct (IH (S i) (sort.insert_down less a i d)) as [Hsw2 Hso2].
    + lia.
    + rewrite (swaps_length _ _ _ _ Hsw). lia.
    + done.
    + replace (i + S n) with (S i + n) by lia. split; [|done].
      eapply swaps_trans; [|exact Hsw2]. eapply swaps_mono; [| |exact Hsw]; lia.
Qed.

Lemma insertionSort_spec d a b :
  a ≤ b → b ≤ length d →
  swaps a b d (sort.insertionSort_func less d a b) ∧
  sorted_range key a b (sort.insertionSort_func less d a b).
Proof using Hless.
  intros Hab Hb. unfold sort.insertionSort_func.
  destruct (decide (b ≤ S a)) as [Hsmall|Hbig].
  - replace (b - S a) with 0 by lia. cbn [sort.insertion_loop].
    split; [apply swaps_refl|]. intros p q ???. assert (p = q) as -> by lia. lia.
  - destruct (insertion_loop_spec a (b - S a) (S a) d) as [Hsw Hso]; [lia|lia| |].
    { intros p q ???. assert (p = q) as -> by lia. lia. }
    replace (S a + (b - S a)) with b in * by lia. done.
Qed.

Lemma scan_up_spec (p : nat → bool) : ∀ n i,
  let i' := sort.scan_up p n i in
  i ≤ i' ∧ i' ≤ i + n ∧ (∀ k, i ≤ k → k < i' → p k = true) ∧ (i' < i + n → p i' = false).
Proof.
  induction n as [|n IH]; intros i; cbn [sort.scan_up]; cbv zeta.
  - repeat split; intros; first [lia|done].
  - destruct (p i) eqn:Hp.
    + specialize (IH (S i)). cbv zeta in IH. destruct IH as (H1 & H2 & H3 & H4).
      repeat split; try lia.
      * intros k ??. destruct (decide (k = i)) as [->|]; [done|]. apply H3; lia.
      * intros. apply H4. lia.
    + repeat split; intros; first [lia|done].
Qed.

Lemma scan_down_spec (p : nat → bool) i : ∀ j1,
  let j1' := sort.scan_down p i j1 in
  j1' ≤ j1 ∧ (i ≤ j1 → i ≤ j1') ∧ (∀ k, j1' ≤ k → k < j1 → p k = true) ∧
  (i < j1' → p (j1' - 1) = false).
Proof.
  induction j1 as [|j IH]; cbn [sort.scan_down]; cbv zeta.
  - repeat split; intros; first [lia|done].
  - destruct (i <=? j) eqn:Hij; [apply Nat.leb_le in Hij|apply Nat.leb_gt in Hij]; cbn [andb].
    + destruct (p j) eqn:Hp.
      * cbv zeta in IH. destruct IH as (H1 & H2 & H3 & H4).
        repeat split; try lia; [|done].
        intros k ??. destruct (decide (k = j)) as [->|]; [done|]. apply H3; lia.
      * repeat split; try (intros; lia).
        intros _. by replace (S j - 1) with j by lia.
    + repeat split; intros; first [lia|done].
Qed.

Section loop.
Variable U : Z → bool.
Variables up down : list A → nat → bool.
Variables a b : nat.
Variable p : Z.
Hypothesis Hup : ∀ d k, K key d a = p → a < length d → k < length d → up d k = U (K key d k).
Hypothesis Hdown : ∀ d k, K key d a = p → a < length d → k < length d → down d k = negb (U (K key d k)).

Lemma scans_spec d i j1 :
  K key d a = p → part_inv key U a b i j1 d →
  let i' := sort.scan_up (up d) (j1 - i) i in
  let j1' := sort.scan_down (down d) i' j1 in
  part_inv key U a b i' j1' d ∧ i ≤ i' ∧ j1' ≤ j1 ∧
  (i' < j1' → U (K key d i') = false ∧ U (K key d (j1' - 1)) = true ∧ S i' < j1').
Proof using Hup Hdown.
  intros Hp (Hai & Hij & Hjb & Hbn & Hl & Hr). cbv zeta.
  destruct (scan_up_spec (up d) (j1 - i) i) as (U1 & U2 & U3 & U4).
  set (i' := sort.scan_up (up d) (j1 - i) i) in *.
  destruct (scan_down_spec (down d) i' j1) as (D1 & D2 & D3 & D4).
  set (j1' := sort.scan_down (down d) i' j1) in *.
  assert (∀ k, a < k → k < i' → U (K key d k) = true) as Hl'.
  { intros k ??. destruct (decide (k < i)); [by apply Hl|].
    rewrite <-Hup by (done || lia). apply U3; lia. }
  assert (∀ k, j1' ≤ k → k < b → U (K key d k) = false) as Hr'.
  { intros k ??. destruct (decide (j1 ≤ k)); [by apply Hr|].
    apply negb_true_iff. rewrite <-Hdown by (done || lia). apply D3; lia. }
  split; [repeat split; try done; lia|].
  split; [done|]. split; [done|]. intros Hlt.
  assert (U (K key d i') = false) as Hi'.
  { rewrite <-Hup by (done || lia). apply U4. lia. }
  assert (U (K key d (j1' - 1)) = true) as Hj'.
  { apply negb_false_iff. rewrite <-Hdown by (done || lia). apply D4. lia. }
  split; [done|]. split; [done|].
  destruct (decide (i' = j1' - 1)) as [Heq|]; [|lia].
  rewrite <-Heq in Hj'. congruence.
Qed.

Lemma partition_loop_spec : ∀ fuel d i j1,
  K key d a = p → part_inv key U a b i j1 d → j1 - i < fuel →
  let '(d', i', j1') := sort.partition_loop up down fuel i j1 d in
  swaps (S a) b d d' ∧ part_inv key U a b i' j1' d' ∧ i' = j1' ∧ i ≤ i'.
Proof using Hup Hdown.
  induction fuel as [|fuel IH]; intros d i j1 Hp Hinv Hfuel; [lia|].
  cbn [sort.partition_loop].
  destruct (scans_spec d i j1 Hp Hinv) as (Hinv' & Hii & Hjj & Hmid).
  set (i' := sort.scan_up (up d) (j1 - i) i) in *.
  set (j1' := sort.scan_down (down d) i' j1) in *.
  destruct (j1' <=? i') eqn:Hexit; [apply Nat.leb_le in Hexit|apply Nat.leb_gt in Hexit].
  - split; [apply swaps_refl|]. split; [done|].
    destruct Hinv' as (? & ? & _). split; lia.
  - destruct (Hmid Hexit) as (Hi' & Hj' & Hgap).
    destruct Hinv' as (Hai & Hij & Hjb & Hbn & Hl & Hr).
    specialize (IH (sort.Swap d i' (j1' - 1)) (S i') (j1' - 1)).
    destruct (sort.partition_loop up down fuel (S i') (j1' - 1) (sort.Swap d i' (j1' - 1)))
      as [[d' i''] j1''].
    destruct IH as (Hsw & Hinv'' & Heq & Hle).
    + rewrite K_Swap by lia. rewrite !decide_False by lia. done.
    + repeat split; try lia.
      * rewrite Swap_length. lia.
      * intros k ??. rewrite K_Swap by lia.
        destruct (decide (k = i')) as [->|]; [done|].
        rewrite decide_False by lia. apply Hl; lia.
      * intros k ??. rewrite K_Swap by lia.
        rewrite decide_False by lia.
        destruct (decide (k = j1' - 1)) as [->|]; [done|]. apply Hr; lia.
    + lia.
    + split; [|split; [done|split; [done|lia]]].
      eapply swaps_trans; [|exact Hsw]. apply swaps_one; lia.
Qed.

End loop.

Lemma partition_func_spec d a b pivot :
  a ≤ pivot → pivot < b → b ≤ length d →
  let '(d', mid, _) := sort.partition_func less d a b pivot in
  swaps a b d d' ∧ a ≤ mid ∧ mid < b ∧ K key d' mid = K key d pivot ∧
  (∀ k, a ≤ k → k < mid → (K key d' k < K key d' mid)%Z) ∧
  (∀ k, mid < k → k < b → (K key d' mid ≤ K key d' k)%Z).
Proof using Hless.
  intros Hap Hpb Hbn. unfold sort.partition_func.
  set (d0 := sort.Swap d a pivot).
  set (p := K key d pivot).
  set (U := λ z : Z, bool_decide (z < p)%Z).
  assert (length d0 = length d) as Hlen0 by apply Swap_length.
  assert (K key d0 a = p) as Hp0.
  { unfold d0. rewrite K_Swap by lia. by rewrite decide_True. }
  assert (swaps a b d d0) as Hsw0 by (apply swaps_one; lia).
  assert (Hup : ∀ d k, K key d a = p → a < length d → k < length d →
                sort.Less less d k a = U (K key d k)).
  { intros d1 k Hk ??. rewrite Less_K by done. by rewrite Hk. }
  assert (Hdown : ∀ d k, K key d a = p → a < length d → k < length d →
                  negb (sort.Less less d k a) = negb (U (K key d k))).
  { intros d1 k Hk ??. by rewrite Hup. }
  assert (part_inv key U a b (a + 1) b d0) as Hinv0.
  { repeat split; try lia; intros; lia. }
  destruct (scans_spec U (λ d i, sort.Less less d i a)
              (λ d j, negb (sort.Less less d j a)) a b p Hup Hdown d0 (a + 1) b Hp0 Hinv0)
    as (Hinv1 & Hii & Hjj & Hmid).
  replace (b - (a + 1)) with (b - (a + 1)) in * by lia.
  set (i := sort.scan_up (λ i, sort.Less less d0 i a) (b - (a + 1)) (a + 1)) in *.
  set (j1 := sort.scan_down (λ j, negb (sort.Less less d0 j a)) i b) in *.
  destruct Hinv1 as (Hai & Hij & Hjb & _ & Hl & Hr).
  assert (∀ d1 m, swaps (S a) b d0 d1 → a < m + 1 → m < b → m + 1 ≤ b →
            (∀ k, a < k → k < m + 1 → U (K key d1 k) = true) →
            (∀ k, m + 1 ≤ k → k < b → U (K key d1 k) = false) →
            swaps a b d (sort.Swap d1 m a) ∧ a ≤ m ∧ m < b ∧
            K key (sort.Swap d1 m a) m = p ∧
            (∀ k, a ≤ k → k < m → (K key (sort.Swap d1 m a) k < K key (sort.Swap d1 m a) m)%Z) ∧
            (∀ k, m < k → k < b → (K key (sort.Swap d1 m a) m ≤ K key (sort.Swap d1 m a) k)%Z))
    as Hfinish.
  { intros d1 m Hsw1 ??? Hl1 Hr1.
    assert (length d1 = length d) as Hlen1 by (rewrite (swaps_length _ _ _ _ Hsw1); done).
    assert (K key d1 a = p) as Hp1 by (rewrite (swaps_K_outside _ _ _ _ _ Hsw1) by lia; done).
    split; [|split; [lia|split; [lia|]]].
    { eapply swaps_trans; [exact Hsw0|]. eapply swaps_trans.
      - eapply swaps_mono; [| |exact Hsw1]; lia.
      - apply swaps_one; lia. }
    assert (K key (sort.Swap d1 m a) m = p) as Hm.
    { rewrite K_Swap by lia. by rewrite decide_True. }
    rewrite Hm. split; [done|]. split.
    - intros k ??. rewrite K_Swap by lia.
      rewrite decide_False by lia.
      destruct (decide (k = a)) as [->|].
      + specialize (Hl1 m). unfold U in Hl1. rewrite bool_decide_eq_true in Hl1.
        apply Hl1; lia.
      + specialize (Hl1 k). unfold U in Hl1. rewrite bool_decide_eq_true in Hl1.
        apply Hl1; lia.
    - intros k ??. rewrite K_Swap by lia.
      rewrite !decide_False by lia.
      specialize (Hr1 k). unfold U in Hr1. rewrite bool_decide_eq_false in Hr1.
      assert (¬ (K key d1 k < p)%Z) by (apply Hr1; lia). lia. }
  destruct (j1 <=? i) eqn:Hexit; [apply Nat.leb_le in Hexit|apply Nat.leb_gt in Hexit].
  - destruct (Hfinish d0 (j1 - 1)) as (F1 & F2 & F3 & F4 & F5 & F6);
      [apply swaps_refl|lia|lia|lia| | |].
    { intros k ??. apply Hl; lia. }
    { intros k ??. apply Hr; lia. }
    repeat split; try done; lia.
  - destruct (Hmid Hexit) as (Hi' & Hj' & Hgap).
    pose proof (partition_loop_spec U (λ d i, sort.Less less d i a)
      (λ d j, negb (sort.Less less d j a)) a b p Hup Hdown (b - a)
      (sort.Swap d0 i (j1 - 1)) (S i) (j1 - 1)) as Hloop.
    destruct (sort.partition_loop _ _ (b - a) (S i) (j1 - 1) (sort.Swap d0 i (j1 - 1)))
      as [[d2 i2] j2].
    destruct Hloop as (Hsw2 & Hinv2 & Heq & Hle).
    + rewrite K_Swap by lia. rewrite !decide_False by lia. done.
    + repeat split; try lia.
      * rewrite Swap_length. lia.
      * intros k ??. rewrite K_Swap by lia.
        destruct (decide (k = i)) as [->|]; [done|].
        rewrite decide_False by lia. apply Hl; lia.
      * intros k ??. rewrite K_Swap by lia.
        rewrite decide_False by lia.
        destruct (decide (k = j1 - 1)) as [->|]; [done|]. apply Hr; lia.
    + lia.
    + destruct Hinv2 as (? & ? & ? & _ & Hl2 & Hr2).
      destruct (Hfinish d2 (j2 - 1)) as (F1 & F2 & F3 & F4 & F5 & F6); try lia.
      { eapply swaps_trans; [|exact Hsw2]. apply swaps_one; lia. }
      { intros k ??. apply Hl2; lia. }
      { intros k ??. apply Hr2; lia. }
      repeat split; try done; lia.
Qed.

Lemma siftDown_loop_spec first lo hi : ∀ fuel root d,
  first + hi ≤ length d → lo ≤ root → hi ≤ fuel + root →
  sift_inv key first lo hi root d →
  let d' := sort.siftDown_loop less fuel root hi first d in
  swaps (first + lo) (first + hi) d d' ∧ heap_at key first lo hi d'.
Proof using Hless.
  induction fuel as [|fuel IH]; intros root d Hlen Hlo Hfuel [I1 I2]; cbv zeta;
    cbn [sort.siftDown_loop].
  { split; [apply swaps_refl|]. intros r c Hr Hc Hhi.
    destruct (decide (r = root)) as [->|]; [unfold heap_child in Hc; lia|]. by apply I1. }
  destruct (hi <=? 2 * root + 1) eqn:Hleaf;
    [apply Nat.leb_le in Hleaf|apply Nat.leb_gt in Hleaf].
  { split; [apply swaps_refl|]. intros r c Hr Hc Hhi.
    destruct (decide (r = root)) as [->|]; [unfold heap_child in Hc; lia|]. by apply I1. }
  remember (2 * root + 1) as child eqn:Hchild.
  set (c' := if (child + 1 <? hi) && sort.Less less d (first + child) (first + child + 1)
             then child + 1 else child).
  assert (heap_child root c' ∧ c' < hi ∧
          (K key d (first + child) ≤ K key d (first + c'))%Z ∧
          (child + 1 < hi → (K key d (first + (child + 1)) ≤ K key d (first + c'))%Z)) as
    (Hc'1 & Hc'2 & Hc'3 & Hc'4).
  { unfold c'. destruct (child + 1 <? hi) eqn:H2;
      [apply Nat.ltb_lt in H2|apply Nat.ltb_ge in H2]; cbn [andb].
    - rewrite Less_K by lia.
      replace (first + child + 1) with (first + (child + 1)) by lia.
      case_bool_decide.
      + unfold heap_child. repeat split; lia.
      + unfold heap_child. repeat split; lia.
    - unfold heap_child. repeat split; lia. }
  clearbody c'.
  rewrite Less_K by lia.
  case_bool_decide as Hlt; cbn [negb].
  - (* swap and continue *)
    destruct (IH c' (sort.Swap d (first + root) (first + c'))) as [Hsw Hheap].
    + by rewrite Swap_length.
    + unfold heap_child in *. lia.
    + unfold heap_child in *. lia.
    + split.
      * intros r c Hr Hne Hc Hhi. rewrite !K_Swap by lia.
        unfold heap_child in *.
        destruct (decide (r = root)) as [->|Hrr].
        -- rewrite (decide_True (P := first + root = first + root)) by done.
           destruct (decide (c = c')) as [->|].
           ++ rewrite decide_False by lia. rewrite decide_True by done. lia.
           ++ rewrite !decide_False by lia.
              assert (c = child ∨ c = child + 1) as [->| ->] by lia; lia.
        -- rewrite (decide_False (P := first + r = first + root)) by lia.
           rewrite (decide_False (P := first + r = first + c')) by lia.
           destruct (decide (c = root)) as [->|].
           ++ rewrite decide_True by done. apply (I2 r c'); (done || lia).
           ++ rewrite decide_False by lia.
              rewrite decide_False by lia. apply I1; (done || lia).
      * intros g c Hg Hgc Hcc Hhi. rewrite !K_Swap by lia.
        unfold heap_child in *.
        assert (g = root) as -> by lia.
        rewrite (decide_True (P := first + root = first + root)) by done.
        rewrite !decide_False by lia.
        apply (I1 c' c); unfold heap_child; lia.
    + split; [|done]. eapply swaps_trans; [|exact Hsw].
      unfold heap_child in *. apply swaps_one; lia.
  - split; [apply swaps_refl|]. intros r c Hr Hc Hhi.
    destruct (decide (r = root)) as [->|]; [|by apply I1].
    unfold heap_child in Hc.
    assert (c = child ∨ c = child + 1) as [->| ->] by lia; lia.
Qed.

Lemma siftDown_spec first lo hi d :
  first + hi ≤ length d →
  sift_inv key first lo hi lo d →
  swaps (first + lo) (first + hi) d (sort.siftDown_func less d lo hi first) ∧
  heap_at key first lo hi (sort.siftDown_func less d lo hi first).
Proof using Hless.
  intros. unfold sort.siftDown_func. apply siftDown_loop_spec; (done || lia).
Qed.

Lemma heap_build_spec first hi : ∀ i d,
  first + hi ≤ length d → heap_at key first (S i) hi d →
  swaps first (first + hi) d (sort.heap_build less i hi first d) ∧
  heap_at key first 0 hi (sort.heap_build less i hi first d).
Proof using Hless.
  induction i as [|i IH]; intros d Hlen Hheap; cbn [sort.heap_build].
  - destruct (siftDown_spec first 0 hi d) as [Hsw Hh]; [done| |].
    { split.
      - intros r c ????. apply Hheap; (done || lia).
      - intros g c ? Hg. unfold heap_child in Hg. lia. }
    split; [|done]. by rewrite Nat.add_0_r in Hsw.
  - destruct (siftDown_spec first (S i) hi d) as [Hsw Hh]; [done| |].
    { split.
      - intros r c ????. apply Hheap; (done || lia).
      - intros g c ? Hg. unfold heap_child in Hg. lia. }
    destruct (IH (sort.siftDown_func less d (S i) hi first)) as [Hsw2 Hh2].
    + by rewrite (swaps_length _ _ _ _ Hsw).
    + done.
    + split; [|done]. eapply swaps_trans; [|exact Hsw2].
      eapply swaps_mono; [| |exact Hsw]; lia.
Qed.

Lemma heap_root_max first hi d :
  heap_at key first 0 hi d → ∀ c, c < hi → (K key d (first + c) ≤ K key d (first + 0))%Z.
Proof.
  intros Hheap c. induction (lt_wf c) as [c _ IH]. intros Hc.
  destruct c as [|c]; [done|].
  assert (heap_child (c / 2) (S c)) as Hch.
  { unfold heap_child. pose proof (Nat.div_mod_eq c 2).
    pose proof (Nat.mod_upper_bound c 2). lia. }
  assert (c / 2 < S c) as Hlt.
  { pose proof (Nat.div_mod_eq c 2). lia. }
  specialize (IH (c / 2) Hlt). specialize (Hheap (c / 2) (S c)).
  assert (K key d (first + S c) ≤ K key d (first + c / 2))%Z by (apply Hheap; (done || lia)).
  assert (K key d (first + c / 2) ≤ K key d (first + 0))%Z by (apply IH; lia).
  lia.
Qed.

Lemma heap_pop_spec first hi : ∀ k d,
  first + hi ≤ length d → k ≤ hi →
  heap_at key first 0 k d →
  sorted_range key (first + k) (first + hi) d →
  (∀ x y, first ≤ x → x < first + k → first + k ≤ y → y < first + hi →
          (K key d x ≤ K key d y)%Z) →
  swaps first (first + hi) d (sort.heap_pop less k first d) ∧
  sorted_range key first (first + hi) (sort.heap_pop less k first d).
Proof using Hless.
  induction k as [|i IH]; intros d Hlen Hk Hheap Hsorted Hcross; cbn [sort.heap_pop].
  - split; [apply swaps_refl|]. by rewrite Nat.add_0_r in Hsorted.
  - set (d1 := sort.Swap d first (first + i)).
    assert (length d1 = length d) as Hlen1 by apply Swap_length.
    pose proof (heap_root_max first (S i) d Hheap) as Hmax.
    rewrite Nat.add_0_r in Hmax.
    assert (K key d1 (first + i) = K key d first) as HKi.
    { unfold d1. rewrite K_Swap by lia.
      repeat case_decide; try done; f_equal; lia. }
    assert (K key d1 first = K key d (first + i)) as HK0.
    { unfold d1. rewrite K_Swap by lia. by rewrite decide_True. }
    assert (∀ x, x ≠ first → x ≠ first + i → K key d1 x = K key d x) as HKo.
    { intros x ??. unfold d1. rewrite K_Swap by lia. by rewrite !decide_False. }
    destruct (siftDown_spec first 0 i d1) as [Hsw Hh]; [lia| |].
    { split.
      - intros r c ?? Hc ?. unfold heap_child in Hc. rewrite !HKo by lia.
        apply Hheap; unfold heap_child; lia.
      - intros g c ? Hg. unfold heap_child in Hg. lia. }
    rewrite Nat.add_0_r in Hsw.
    set (d2 := sort.siftDown_func less d1 0 i first) in *.
    destruct (IH d2) as [Hsw3 Hso3].
    + rewrite (swaps_length _ _ _ _ Hsw). lia.
    + lia.
    + done.
    + intros p q ???. rewrite !(swaps_K_outside _ _ _ _ _ Hsw) by lia.
      unfold sorted_range in Hsorted.
      destruct (decide (q = first + i)) as [->|].
      { assert (p = first + i) as -> by lia. lia. }
      rewrite (HKo q) by lia.
      destruct (decide (p = first + i)) as [->|].
      * rewrite HKi. apply Hcross; lia.
      * rewrite HKo by lia. apply Hsorted; lia.
    + intros x y ????.
      rewrite (swaps_K_outside _ _ _ _ y Hsw) by lia.
      apply (swaps_K_forall (λ z, (z ≤ K key d1 y)%Z) first (first + i) d1 d2 Hsw); [|lia].
      intros x' ?.
      assert (K key d1 x' ≤ K key d first)%Z as Hx'.
      { destruct (decide (x' = first)) as [->|].
        - rewrite HK0. apply Hmax. lia.
        - rewrite HKo by lia. specialize (Hmax (x' - first)).
          replace (first + (x' - first)) with x' in Hmax by lia. apply Hmax. lia. }
      destruct (decide (y = first + i)) as [->|].
      * rewrite HKi. done.
      * rewrite (HKo y) by lia.
        assert (K key d first ≤ K key d y)%Z by (apply Hcross; lia). lia.
    + split; [|done]. eapply swaps_trans; [|exact Hsw3].
      eapply swaps_trans.
      * apply (swaps_one first (first + hi) d first (first + i)); lia.
      * eapply swaps_mono; [| |exact Hsw]; lia.
Qed.

Lemma heapSort_spec d a b :
  a ≤ b → b ≤ length d →
  swaps a b d (sort.heapSort_func less d a b) ∧
  sorted_range key a b (sort.heapSort_func less d a b).
Proof using Hless.
  intros Hab Hb. unfold sort.heapSort_func.
  destruct (heap_build_spec a (b - a) ((b - a - 1) / 2) d) as [Hsw Hh]; [lia| |].
  { intros r c Hr Hc Hhi. unfold heap_child in Hc.
    pose proof (Nat.div_mod_eq (b - a - 1) 2).
    pose proof (Nat.mod_upper_bound (b - a - 1) 2). lia. }
  set (d1 := sort.heap_build less ((b - a - 1) / 2) (b - a) a d) in *.
  destruct (heap_pop_spec a (b - a) (b - a) d1) as [Hsw2 Hso2].
  - rewrite (swaps_length _ _ _ _ Hsw). lia.
  - lia.
  - done.
  - intros p q ???. lia.
  - intros x y ????. lia.
  - replace (a + (b - a)) with b in * by lia. split; [|done].
    eapply swaps_trans; [exact Hsw|exact Hsw2].
Qed.

Lemma left_ok_swaps a b d d' : swaps a b d d' → left_ok key a b d → left_ok key a b d'.
Proof.
  intros Hsw Hl Ha k ??.
  rewrite (swaps_K_outside _ _ _ _ (a - 1) Hsw) by lia.
  apply (swaps_K_forall (λ z, (K key d (a - 1) ≤ z)%Z) a b d d' Hsw); [|lia].
  intros k' ?. apply Hl; lia.
Qed.

Lemma left_ok_mono a b b' d : b' ≤ b → left_ok key a b d → left_ok key a b' d.
Proof. intros ? Hl Ha k ??. apply Hl; lia. Qed.

(** *** [partitionEqual_func] *)

Lemma partitionEqual_func_spec d a b pivot :
  a ≤ pivot → pivot < b → b ≤ length d →
  (∀ k, a ≤ k → k < b → (K key d pivot ≤ K key d k)%Z) →
  let '(d', mid) := sort.partitionEqual_func less d a b pivot in
  swaps a b d d' ∧ a < mid ∧ mid ≤ b ∧
  (∀ k, a ≤ k → k < mid → K key d' k = K key d pivot) ∧
  (∀ k, mid ≤ k → k < b → (K key d pivot < K key d' k)%Z).
Proof using Hless.
  intros Hap Hpb Hbn Hmin. unfold sort.partitionEqual_func.
  set (d0 := sort.Swap d a pivot).
  set (p := K key d pivot) in *.
  set (U := λ z : Z, negb (bool_decide (p < z)%Z)).
  assert (length d0 = length d) as Hlen0 by apply Swap_length.
  assert (K key d0 a = p) as Hp0.
  { unfold d0. rewrite K_Swap by lia. by rewrite decide_True. }
  assert (swaps a b d d0) as Hsw0 by (apply swaps_one; lia).
  assert (Hup : ∀ d k, K key d a = p → a < length d → k < length d →
                negb (sort.Less less d a k) = U (K key d k)).
  { intros d1 k Hk ??. rewrite Less_K by done. by rewrite Hk. }
  assert (Hdown : ∀ d k, K key d a = p → a < length d → k < length d →
                  sort.Less less d a k = negb (U (K key d k))).
  { intros d1 k Hk ??. rewrite <-Hup by done. by rewrite negb_involutive. }
  assert (part_inv key U a b (a + 1) b d0) as Hinv0.
  { repeat split; intros; first [lia|done]. }
  pose proof (partition_loop_spec U (λ d i, negb (sort.Less less d a i))
    (λ d j, sort.Less less d a j) a b p Hup Hdown (b - a) d0 (a + 1) b Hp0 Hinv0) as Hloop.
  destruct (sort.partition_loop _ _ (b - a) (a + 1) b d0) as [[d' i] j1].
  destruct Hloop as (Hsw & (Hai & Hij & Hjb & Hbn' & Hl & Hr) & Heq & Hle); [lia|].
  subst j1.
  assert (swaps a b d d') as Hswall.
  { eapply swaps_trans; [exact Hsw0|]. eapply swaps_mono; [| |exact Hsw]; lia. }
  assert (K key d' a = p) as Hp'.
  { rewrite (swaps_K_outside _ _ _ _ _ Hsw) by lia. done. }
  assert (∀ k, a ≤ k → k < b → (p ≤ K key d' k)%Z) as Hmin'.
  { intros k ??. apply (swaps_K_forall (λ z, (p ≤ z)%Z) a b d d' Hswall); [|lia].
    intros k' ?. apply Hmin; lia. }
  split; [done|]. split; [lia|]. split; [lia|]. split.
  - intros k ??. destruct (decide (k = a)) as [->|]; [done|].
    specialize (Hl k). unfold U in Hl. rewrite negb_true_iff, bool_decide_eq_false in Hl.
    assert (¬ (p < K key d' k)%Z) by (apply Hl; lia).
    specialize (Hmin' k). lia.
  - intros k ??. specialize (Hr k). unfold U in Hr.
    rewrite negb_false_iff, bool_decide_eq_true in Hr. apply Hr; lia.
Qed.

(** *** [choosePivot_func] *)

Lemma order2_func_in d x y s :
  let r := sort.order2_func less d x y s in
  (r.1.1 = x ∧ r.1.2 = y) ∨ (r.1.1 = y ∧ r.1.2 = x).
Proof. unfold sort.order2_func. destruct (sort.Less less d y x); simpl; auto. Qed.

Lemma median_func_in d x y z s :
  let r := sort.median_func less d x y z s in r.1 = x ∨ r.1 = y ∨ r.1 = z.
Proof.
  unfold sort.median_func.
  pose proof (order2_func_in d x y s) as H1.
  destruct (sort.order2_func less d x y s) as [[x1 y1] s1]. simpl in H1.
  pose proof (order2_func_in d y1 z s1) as H2.
  destruct (sort.order2_func less d y1 z s1) as [[y2 z2] s2]. simpl in H2.
  pose proof (order2_func_in d x1 y2 s2) as H3.
  destruct (sort.order2_func less d x1 y2 s2) as [[x3 y3] s3]. simpl in *.
  intuition congruence.
Qed.

Lemma choosePivot_func_range d a b :
  a < b →
  let r := sort.choosePivot_func less d a b in a ≤ r.1 ∧ r.1 < b.
Proof.
  intros Hab. unfold sort.choosePivot_func.
  set (l := b - a).
  pose proof (Nat.div_mod_eq l 4) as Hdiv.
  pose proof (Nat.mod_upper_bound l 4) as Hmod.
  assert (l = b - a) as Hl by done. clearbody l.
  set (q := l / 4) in *. clearbody q.
  destruct (8 <=? l) eqn:H8; [apply Nat.leb_le in H8|apply Nat.leb_gt in H8].
  - destruct (50 <=? l) eqn:H50; [apply Nat.leb_le in H50|apply Nat.leb_gt in H50].
    + unfold sort.medianAdjacent_func.
      pose proof (median_func_in d (a + q * 1 - 1) (a + q * 1) (a + q * 1 + 1) 0) as M1.
      destruct (sort.median_func less d (a + q * 1 - 1) _ _ 0) as [i s1]. simpl in M1.
      pose proof (median_func_in d (a + q * 2 - 1) (a + q * 2) (a + q * 2 + 1) s1) as M2.
      destruct (sort.median_func less d (a + q * 2 - 1) _ _ s1) as [j s2]. simpl in M2.
      pose proof (median_func_in d (a + q * 3 - 1) (a + q * 3) (a + q * 3 + 1) s2) as M3.
      destruct (sort.median_func less d (a + q * 3 - 1) _ _ s2) as [k s3]. simpl in M3.
      pose proof (median_func_in d i j k s3) as M4.
      destruct (sort.median_func less d i j k s3) as [m s4]. simpl in M4.
      assert (a ≤ m ∧ m < b) by lia.
      destruct s4 as [|[|[|[|[|[|[|[|[|[|[|[|[|?]]]]]]]]]]]]]; simpl; done.
    + pose proof (median_func_in d (a + q * 1) (a + q * 2) (a + q * 3) 0) as M4.
      destruct (sort.median_func less d _ _ _ 0) as [m s4]. simpl in M4.
      assert (a ≤ m ∧ m < b) by lia.
      destruct s4 as [|[|[|[|[|[|[|[|[|[|[|[|[|?]]]]]]]]]]]]]; simpl; done.
  - simpl. lia.
Qed.

(** *** [reverseRange_func] and [breakPatterns_func] *)

Lemma reverse_loop_spec a b : ∀ fuel i j d,
  a ≤ i → j < b → swaps a b d (sort.reverse_loop fuel i j d).
Proof.
  induction fuel as [|fuel IH]; intros i j d Hi Hj; cbn [sort.reverse_loop];
    [apply swaps_refl|].
  destruct (i <? j) eqn:Hij; [apply Nat.ltb_lt in Hij|apply swaps_refl].
  eapply swaps_trans; [apply (swaps_one a b d i j); lia|]. apply IH; lia.
Qed.

Lemma reverseRange_func_spec d a b :
  a < b → swaps a b d (sort.reverseRange_func d a b).
Proof. intros. unfold sort.reverseRange_func. apply reverse_loop_spec; lia. Qed.

Lemma nextPowerOfTwo_bound length :
  0 < length → (0 < sort.nextPowerOfTwo length ≤ 2 * Z.of_nat length)%Z.
Proof.
  intros Hl. unfold sort.nextPowerOfTwo, sort.bits_Len.
  destruct length as [|n]; [lia|].
  pose proof (Nat.log2_spec (S n) Hl) as [Hlo _].
  rewrite Nat2Z.inj_succ, Z.pow_succ_r by lia.
  assert (2 ^ Z.of_nat (Nat.log2 (S n)) = Z.of_nat (2 ^ Nat.log2 (S n)))%Z as ->.
  { rewrite Nat2Z.inj_pow. done. }
  assert (0 < 2 ^ Nat.log2 (S n)) by (apply Nat.neq_0_lt_0, Nat.pow_nonzero; lia).
  lia.
Qed.

Lemma breakPatterns_loop_spec a b length modulus idx : ∀ n i random d,
  length = b - a → 0 < length →
  (0 < modulus ≤ 2 * Z.of_nat length)%Z →
  (∃ k, (0 ≤ k)%Z ∧ modulus = (2 ^ k)%Z) →
  a + 1 ≤ idx → idx + i + n ≤ b + 1 →
  swaps a b d (sort.breakPatterns_loop n i random modulus idx a length d).
Proof.
  induction n as [|n IH]; intros i random d Hlen Hpos Hmod Hpow Hidx Hin;
    cbn [sort.breakPatterns_loop]; [apply swaps_refl|].
  set (r := sort.xorshift_Next random).
  assert (0 ≤ Z.land r (modulus - 1) < modulus)%Z as Hland.
  { destruct Hpow as (k & Hk & ->).
    replace (2 ^ k - 1)%Z with (Z.ones k) by (rewrite Z.ones_equiv; lia).
    rewrite Z.land_ones by done. apply Z.mod_pos_bound. lia. }
  set (other := Z.to_nat (Z.land r (modulus - 1))) in *.
  assert (other < 2 * length) by lia.
  eapply swaps_trans; [|apply IH; (done || lia)].
  apply swaps_one; [lia|].
  destruct (length <=? other) eqn:Ho; [apply Nat.leb_le in Ho|apply Nat.leb_gt in Ho]; lia.
Qed.

Lemma breakPatterns_func_spec d a b :
  a ≤ b → swaps a b d (sort.breakPatterns_func d a b).
Proof.
  intros Hab. unfold sort.breakPatterns_func.
  destruct (8 <=? b - a) eqn:H8; [apply Nat.leb_le in H8|apply swaps_refl].
  pose proof (Nat.div_mod_eq (b - a) 4) as Hdiv.
  pose proof (Nat.mod_upper_bound (b - a) 4) as Hmod.
  apply breakPatterns_loop_spec; try lia.
  - apply nextPowerOfTwo_bound. lia.
  - unfold sort.nextPowerOfTwo. eexists. split; [|done]. lia.
Qed.

(** *** [partialInsertionSort_func] *)

Lemma scan_sorted_spec a b : ∀ n i d,
  a < i → i + n = b → b ≤ length d → sorted_range key a i d →
  let i' := sort.scan_sorted less n i d in
  i ≤ i' ∧ i' ≤ b ∧ sorted_range key a i' d ∧ (i' < b → (K key d i' < K key d (i' - 1))%Z).
Proof using Hless.
  induction n as [|n IH]; intros i d Hai Hin Hb Hs; cbv zeta; cbn [sort.scan_sorted].
  - repeat split; intros; first [lia|done].
  - rewrite Less_K by lia.
    case_bool_decide as Hlt; cbn [negb].
    + split; [lia|]. split; [lia|]. split; [done|]. done.
    + destruct (IH (S i) d) as (H1 & H2 & H3 & H4); try lia.
      { intros p q ???. unfold sorted_range in Hs.
        destruct (decide (q = i)) as [->|]; [|apply Hs; lia].
        destruct (decide (p = i)) as [->|]; [lia|].
        assert (K key d p ≤ K key d (i - 1))%Z by (apply Hs; lia). lia. }
      repeat split; first [lia|done].
Qed.

Lemma shift_left_spec a i : ∀ j d,
  a ≤ j → j ≤ i → i < length d →
  left_ok key a (S i) d →
  sorted_range key a j d → sorted_range key j (S i) d →
  (∀ p q, a ≤ p → p < j → j < q → q ≤ i → (K key d p ≤ K key d q)%Z) →
  swaps a (S i) d (sort.shift_left less j d) ∧
  sorted_range key a (S i) (sort.shift_left less j d).
Proof using Hless.
  induction j as [|j IH]; intros d Haj Hji Hi Hleft Hs1 Hs2 Hc; cbn [sort.shift_left].
  - split; [apply swaps_refl|]. intros p q ???. apply Hs2; lia.
  - rewrite Less_K by lia.
    case_bool_decide as Hlt; cbn [negb].
    + assert (a ≤ j) as Haj'.
      { destruct (decide (a ≤ j)); [done|]. assert (a = S j) as -> by lia.
        unfold left_ok in Hleft. specialize (Hleft ltac:(lia) (S j)).
        replace (S j - 1) with j in Hleft by lia.
        assert (K key d j ≤ K key d (S j))%Z by (apply Hleft; lia). lia. }
      destruct (IH (sort.Swap d (S j) j)) as [Hsw Hso].
      * lia.
      * lia.
      * by rewrite Swap_length.
      * eapply left_ok_swaps; [|exact Hleft]. apply swaps_one; lia.
      * intros p q ???. rewrite !K_Swap by lia.
        repeat case_decide; try lia. apply Hs1; lia.
      * intros p q ???. rewrite !K_Swap by lia.
        unfold sorted_range in *.
        repeat case_decide; try subst p; try subst q;
          lazymatch goal with
          | |- (K key _ ?x ≤ K key _ ?y)%Z =>
              inst2 Hs1 [x; y; j; S j]; inst2 Hs2 [x; y; j; S j]; inst2 Hc [x; y; j; S j]
          end; lia.
      * intros p q ????. rewrite !K_Swap by lia.
        unfold sorted_range in *.
        repeat case_decide; try subst p; try subst q;
          lazymatch goal with
          | |- (K key _ ?x ≤ K key _ ?y)%Z =>
              inst2 Hs1 [x; y; j; S j]; inst2 Hs2 [x; y; j; S j]; inst2 Hc [x; y; j; S j]
          end; lia.
      * split; [|done]. eapply swaps_trans; [|exact Hsw]. apply swaps_one; lia.
    + split; [apply swaps_refl|]. intros p q ???.
      unfold sorted_range in *.
      destruct (decide (q ≤ j)); [apply Hs1; lia|].
      destruct (decide (S j ≤ p)); [apply Hs2; lia|].
      use (Hs1 p j). use (Hs2 (S j) q). lia.
Qed.

Lemma shift_right_spec b : ∀ n j d,
  0 < j → j + n ≤ b → swaps (j - 1) b d (sort.shift_right less n j d).
Proof.
  induction n as [|n IH]; intros j d Hj Hb; cbn [sort.shift_right]; [apply swaps_refl|].
  destruct (negb _); [apply swaps_refl|].
  eapply swaps_trans; [apply (swaps_one (j - 1) b d j (j - 1)); lia|].
  eapply swaps_mono; [| |apply IH]; lia.
Qed.

Lemma partialInsertion_loop_spec a b : ∀ steps i d,
  a < i → i ≤ b → b ≤ length d → left_ok key a b d → sorted_range key a i d →
  let r := sort.partialInsertion_loop less steps i a b d in
  swaps a b d r.1 ∧ (r.2 = true → sorted_range key a b r.1).
Proof using Hless.
  induction steps as [|steps IH]; intros i d Hai Hib Hb Hleft Hs; cbv zeta;
    cbn [sort.partialInsertion_loop].
  { split; [apply swaps_refl|done]. }
  destruct (scan_sorted_spec a b (b - i) i d) as (H1 & H2 & H3 & H4); try (done || lia).
  set (i' := sort.scan_sorted less (b - i) i d) in *. clearbody i'.
  destruct (i' =? b) eqn:Hend; [apply Nat.eqb_eq in Hend; subst i'|apply Nat.eqb_neq in Hend].
  { split; [apply swaps_refl|done]. }
  destruct (b - a <? 50); [split; [apply swaps_refl|done]|].
  set (d1 := sort.Swap d i' (i' - 1)).
  assert (swaps a b d d1) as Hsw1 by (apply swaps_one; lia).
  assert (length d1 = length d) as Hlen1 by apply Swap_length.
  assert (K key d1 (i' - 1) = K key d i') as HKa.
  { unfold d1. rewrite K_Swap by lia. rewrite decide_False by lia.
    by rewrite decide_True. }
  assert (K key d1 i' = K key d (i' - 1)) as HKb.
  { unfold d1. rewrite K_Swap by lia. by rewrite decide_True. }
  assert (∀ x, x ≠ i' → x ≠ i' - 1 → K key d1 x = K key d x) as HKo.
  { intros x ??. unfold d1. rewrite K_Swap by lia. by rewrite !decide_False. }
  set (d2 := if 2 <=? i' - a then sort.shift_left less (i' - 1) d1 else d1).
  assert (swaps a i' d1 d2 ∧ sorted_range key a i' d2) as [Hsw2 Hs2].
  { unfold d2. destruct (2 <=? i' - a) eqn:H2a;
      [apply Nat.leb_le in H2a|apply Nat.leb_gt in H2a].
    - destruct (shift_left_spec a (i' - 1) (i' - 1) d1) as [Hx Hy]; [lia|lia|lia| | | | |].
      + eapply left_ok_mono; [|eapply left_ok_swaps; [exact Hsw1|exact Hleft]]. lia.
      + intros p q ???. rewrite !HKo by lia. apply H3; lia.
      + intros p q ???. assert (p = q) as -> by lia. lia.
      + intros p q ????. lia.
      + replace (S (i' - 1)) with i' in * by lia. done.
    - split; [apply swaps_refl|]. intros p q ???. assert (p = q) as -> by lia. lia. }
  set (d3 := if 2 <=? b - i' then sort.shift_right less (b - (i' + 1)) (i' + 1) d2 else d2).
  assert (swaps i' b d2 d3) as Hsw3.
  { unfold d3. destruct (2 <=? b - i'); [|apply swaps_refl].
    eapply swaps_mono; [| |apply (shift_right_spec b)]; lia. }
  assert (swaps a b d d3) as Hsw.
  { eapply swaps_trans; [exact Hsw1|]. eapply swaps_trans.
    - eapply swaps_mono; [| |exact Hsw2]; lia.
    - eapply swaps_mono; [| |exact Hsw3]; lia. }
  destruct (IH i' d3) as [Hsw4 Hdone]; try lia.
  - rewrite (swaps_length _ _ _ _ Hsw). lia.
  - by eapply left_ok_swaps.
  - intros p q ???. rewrite !(swaps_K_outside _ _ _ _ _ Hsw3) by lia. apply Hs2; lia.
  - split; [|done]. eapply swaps_trans; [exact Hsw|exact Hsw4].
Qed.

Lemma partialInsertionSort_func_spec d a b :
  a < b → b ≤ length d → left_ok key a b d →
  let r := sort.partialInsertionSort_func less d a b in
  swaps a b d r.1 ∧ (r.2 = true → sorted_range key a b r.1).
Proof using Hless.
  intros Hab Hb Hleft. unfold sort.partialInsertionSort_func.
  apply partialInsertion_loop_spec; try (done || lia).
  intros p q ???. assert (p = q) as -> by lia. lia.
Qed.

End SliceCorrect.

Section pdqsort.
Context {A : Type}.
Variable key : A → Z.
Variable less : A → A → bool.
Hypothesis Hless : ∀ x y, less x y = bool_decide (key x < key y)%Z.
Implicit Types d : list A.

Lemma sorted_join a mid b d :
  a ≤ mid → mid < b →
  sorted_range key a mid d → sorted_range key (mid + 1) b d →
  (∀ k, a ≤ k → k < mid → (K key d k ≤ K key d mid)%Z) →
  (∀ k, mid < k → k < b → (K key d mid ≤ K key d k)%Z) →
  sorted_range key a b d.
Proof.
  intros ?? Hl Hr Hlo Hhi p q ???. unfold sorted_range in *.
  destruct (decide (q < mid)); [apply Hl; lia|].
  destruct (decide (mid < p)); [apply Hr; lia|].
  destruct (decide (p = mid)) as [->|]; [destruct (decide (q = mid)) as [->|]|].
  - lia.
  - apply Hhi; lia.
  - assert (K key d p ≤ K key d mid)%Z by (apply Hlo; lia).
    destruct (decide (q = mid)) as [->|]; [done|].
    assert (K key d mid ≤ K key d q)%Z by (apply Hhi; lia). lia.
Qed.

Lemma pdqsort_loop_spec : ∀ fuel d a b limit wasBalanced wasPartitioned,
  a ≤ b → b ≤ length d → b - a < fuel → left_ok key a b d →
  let d' := sort.pdqsort_loop less fuel d a b limit wasBalanced wasPartitioned in
  swaps a b d d' ∧ sorted_range key a b d'.
Proof using Hless.
  induction fuel as [|fuel IH]; intros d a b limit wb wp Hab Hb Hfuel Hleft; [lia|].
  cbv zeta.
  remember (sort.pdqsort_loop less (S fuel) d a b limit wb wp) as d' eqn:Hd'.
  cbn [sort.pdqsort_loop] in Hd'. cbv zeta in Hd'.
  destruct (b - a <=? 12) eqn:H12. { subst d'. by apply insertionSort_spec. }
  apply Nat.leb_gt in H12.
  destruct (limit =? 0). { subst d'. by apply heapSort_spec. }
  (* breakPatterns *)
  destruct (if negb wb then (sort.breakPatterns_func d a b, limit - 1) else (d, limit))
    as [d1 limit1] eqn:E1.
  assert (swaps a b d d1) as Hsw1.
  { destruct wb; simpl in E1; injection E1 as <- _;
      [apply swaps_refl|by apply breakPatterns_func_spec]. }
  clear E1.
  (* choosePivot *)
  pose proof (choosePivot_func_range less d1 a b ltac:(lia)) as Hpiv.
  destruct (sort.choosePivot_func less d1 a b) as [pivot hint]. simpl in Hpiv.
  destruct (match hint with
            | sort.decreasingHint =>
                (sort.reverseRange_func d1 a b, b - 1 - (pivot - a), sort.increasingHint)
            | _ => (d1, pivot, hint)
            end) as [[d2 pivot2] hint2] eqn:E2.
  assert (swaps a b d1 d2 ∧ a ≤ pivot2 ∧ pivot2 < b) as (Hsw2 & Hp2a & Hp2b).
  { destruct hint; injection E2 as <- <- _;
      try (split; [apply swaps_refl|lia]).
    split; [apply reverseRange_func_spec; lia|lia]. }
  clear E2.
  assert (swaps a b d d2) as Hsw12 by (eapply swaps_trans; eauto).
  assert (length d2 = length d) as Hlen2 by (by rewrite (swaps_length _ _ _ _ Hsw12)).
  assert (left_ok key a b d2) as Hleft2 by (by eapply left_ok_swaps).
  (* partialInsertionSort *)
  destruct (match hint2 with
            | sort.increasingHint =>
                if wb && wp then sort.partialInsertionSort_func less d2 a b else (d2, false)
            | _ => (d2, false)
            end) as [d3 done] eqn:E3.
  assert (swaps a b d2 d3 ∧ (done = true → sorted_range key a b d3)) as [Hsw3 Hdone].
  { pose proof (partialInsertionSort_func_spec key less Hless d2 a b ltac:(lia) ltac:(lia) Hleft2)
      as Hpart. cbv zeta in Hpart.
    destruct hint2; try (injection E3 as <- <-; split; [apply swaps_refl|done]).
    destruct (wb && wp); [|injection E3 as <- <-; split; [apply swaps_refl|done]].
    rewrite E3 in Hpart. done. }
  clear E3.
  assert (swaps a b d d3) as Hsw13 by (eapply swaps_trans; eauto).
  assert (length d3 = length d) as Hlen3 by (by rewrite (swaps_length _ _ _ _ Hsw13)).
  assert (left_ok key a b d3) as Hleft3 by (by eapply left_ok_swaps).
  destruct done. { subst d'. split; [done|by apply Hdone]. }
  clear Hdone.
  destruct ((0 <? a) && negb (sort.Less less d3 (a - 1) pivot2)) eqn:E4.
  - (* partitionEqual *)
    apply andb_prop in E4 as [Ha0 Hnl]. apply Nat.ltb_lt in Ha0.
    rewrite (Less_K key less Hless) in Hnl by lia.
    apply negb_true_iff, bool_decide_eq_false in Hnl.
    pose proof (partitionEqual_func_spec key less Hless d3 a b pivot2 Hp2a Hp2b ltac:(lia))
      as Heq.
    destruct (sort.partitionEqual_func less d3 a b pivot2) as [d4 mid].
    destruct Heq as (Hsw4 & Hm1 & Hm2 & Hlo & Hhi).
    { intros k ??. specialize (Hleft3 Ha0 k). assert (K key d3 (a - 1) ≤ K key d3 k)%Z
        by (apply Hleft3; lia). lia. }
    assert (length d4 = length d) as Hlen4 by (by rewrite (swaps_length _ _ _ _ Hsw4)).
    destruct (IH d4 mid b limit1 wb wp) as [Hsw5 Hso5]; [lia|lia|lia| |].
    { intros _ k ??. rewrite Hlo by lia. specialize (Hhi k). lia. }
    rewrite <-Hd' in Hsw5, Hso5. split.
    + eapply swaps_trans; [exact Hsw13|]. eapply swaps_trans; [exact Hsw4|].
      eapply swaps_mono; [| |exact Hsw5]; lia.
    + intros p q ???.
      assert (∀ k, a ≤ k → k < mid → K key d' k = K key d3 pivot2) as Hlo'.
      { intros k ??. rewrite (swaps_K_outside key _ _ _ _ _ Hsw5) by lia. by apply Hlo. }
      assert (∀ k, mid ≤ k → k < b → (K key d3 pivot2 < K key d' k)%Z) as Hhi'.
      { intros k ??.
        apply (swaps_K_forall key (λ z, (K key d3 pivot2 < z)%Z) mid b d4 d' Hsw5); [|lia].
        intros k' ?. apply Hhi; lia. }
      destruct (decide (mid ≤ p)); [apply Hso5; lia|].
      rewrite (Hlo' p) by lia.
      destruct (decide (mid ≤ q)); [specialize (Hhi' q); lia|].
      rewrite (Hlo' q) by lia. lia.
  - (* partition *)
    clear E4.
    pose proof (partition_func_spec key less Hless d3 a b pivot2 Hp2a Hp2b ltac:(lia)) as Hpa.
    destruct (sort.partition_func less d3 a b pivot2) as [[d4 mid] already].
    destruct Hpa as (Hsw4 & Hm1 & Hm2 & _ & Hlo & Hhi).
    assert (swaps a b d d4) as Hsw14 by (eapply swaps_trans; eauto).
    assert (length d4 = length d) as Hlen4 by (by rewrite (swaps_length _ _ _ _ Hsw14)).
    assert (left_ok key a b d4) as Hleft4 by (by eapply left_ok_swaps).
    destruct (mid - a <? b - mid).
    + destruct (IH d4 a mid limit1 true true) as [Hsw5 Hso5]; [lia|lia|lia| |].
      { eapply left_ok_mono; [|exact Hleft4]. lia. }
      set (d5 := sort.pdqsort_loop less fuel d4 a mid limit1 true true) in *.
      assert (length d5 = length d) as Hlen5 by (by rewrite (swaps_length _ _ _ _ Hsw5)).
      assert (∀ k, mid ≤ k → K key d5 k = K key d4 k) as Hsame5.
      { intros k ?. apply (swaps_K_outside key _ _ _ _ _ Hsw5). lia. }
      destruct (IH d5 (mid + 1) b limit1 ((b - a) `div` 8 <=? mid - a) already)
        as [Hsw6 Hso6]; [lia|lia|lia| |].
      { intros _ k ??. replace (mid + 1 - 1) with mid by lia.
        rewrite !Hsame5 by lia. apply Hhi; lia. }
      rewrite <-Hd' in Hsw6, Hso6. split.
      * eapply swaps_trans; [exact Hsw14|]. eapply swaps_trans.
        -- eapply swaps_mono; [| |exact Hsw5]; lia.
        -- eapply swaps_mono; [| |exact Hsw6]; lia.
      * assert (∀ k, k < mid + 1 → K key d' k = K key d5 k) as Hsame6.
        { intros k ?. apply (swaps_K_outside key _ _ _ _ _ Hsw6). lia. }
        apply (sorted_join a mid b d'); [lia|lia| |done| |].
        -- intros p q ???. rewrite !Hsame6 by lia. apply Hso5; lia.
        -- intros k ??. rewrite !Hsame6 by lia. rewrite (Hsame5 mid) by lia.
           apply (swaps_K_forall key (λ z, (z ≤ K key d4 mid)%Z) a mid d4 d5 Hsw5); [|lia].
           intros k' ?. specialize (Hlo k'). lia.
        -- intros k ??. rewrite (Hsame6 mid) by lia. rewrite (Hsame5 mid) by lia.
           apply (swaps_K_forall key (λ z, (K key d4 mid ≤ z)%Z) (mid + 1) b d5 d' Hsw6);
             [|lia].
           intros k' ?. rewrite Hsame5 by lia. apply Hhi; lia.
    + destruct (IH d4 (mid + 1) b limit1 true true) as [Hsw5 Hso5]; [lia|lia|lia| |].
      { intros _ k ??. replace (mid + 1 - 1) with mid by lia. apply Hhi; lia. }
      set (d5 := sort.pdqsort_loop less fuel d4 (mid + 1) b limit1 true true) in *.
      assert (length d5 = length d) as Hlen5 by (by rewrite (swaps_length _ _ _ _ Hsw5)).
      assert (∀ k, k < mid + 1 → K key d5 k = K key d4 k) as Hsame5.
      { intros k ?. apply (swaps_K_outside key _ _ _ _ _ Hsw5). lia. }
      destruct (IH d5 a mid limit1 ((b - a) `div` 8 <=? b - mid) already)
        as [Hsw6 Hso6]; [lia|lia|lia| |].
      { intros Ha0 k ??. rewrite !Hsame5 by lia. apply Hleft4; lia. }
      rewrite <-Hd' in Hsw6, Hso6. split.
      * eapply swaps_trans; [exact Hsw14|]. eapply swaps_trans.
        -- eapply swaps_mono; [| |exact Hsw5]; lia.
        -- eapply swaps_mono; [| |exact Hsw6]; lia.
      * assert (∀ k, mid ≤ k → K key d' k = K key d5 k) as Hsame6.
        { intros k ?. apply (swaps_K_outside key _ _ _ _ _ Hsw6). lia. }
        apply (sorted_join a mid b d'); [lia|lia|done| | |].
        -- intros p q ???. rewrite !Hsame6 by lia. apply Hso5; lia.
        -- intros k ??. rewrite (Hsame6 mid) by lia. rewrite (Hsame5 mid) by lia.
           apply (swaps_K_forall key (λ z, (z ≤ K key d4 mid)%Z) a mid d5 d' Hsw6); [|lia].
           intros k' ?. rewrite Hsame5 by lia. specialize (Hlo k'). lia.
        -- intros k ??. rewrite !Hsame6 by lia. rewrite (Hsame5 mid) by lia.
           apply (swaps_K_forall key (λ z, (K key d4 mid ≤ z)%Z) (mid + 1) b d4 d5 Hsw5);
             [|lia].
           intros k' ?. apply Hhi; lia.
Qed.

(** [sort.Slice] rearranges its argument so that the keys do not
    decrease. *)
Theorem Slice_correct (x : list A) :
  sort.Slice less x ≡ₚ x ∧ sorted_range key 0 (length x) (sort.Slice less x).
Proof using Hless.
  unfold sort.Slice, sort.pdqsort_func.
  destruct (pdqsort_loop_spec (S (length x - 0)) x 0 (length x)
              (sort.bits_Len (length x)) true true) as [Hsw Hso]; [lia|lia|lia| |].
  { intros ?. lia. }
  split; [by eapply swaps_perm|done].
Qed.

End pdqsort.

(** ** Insertion sort keeps the order of equal elements *)

Section SliceStable.

Context {A : Type}.
Variable less : A → A → bool.
Variable P : A → Prop.
Context `{!∀ x, Decision (P x)}.
Hypothesis Hless : ∀ x y, less x y = true → ¬ (P x ∧ P y).

Lemma Swap_adjacent_filter : ∀ (d : list A) j x y,
  d !! j = Some y → d !! S j = Some x → ¬ (P x ∧ P y) →
  filter P (sort.Swap d (S j) j) = filter P d.
Proof.
  induction d as [|h t IH]; intros [|j] x y Hy Hx HP; try done.
  - destruct t as [|h2 t]; [done|]. cbn in Hy, Hx.
    injection Hy as ->. injection Hx as ->.
    unfold sort.Swap. cbn -[filter]. rewrite !filter_cons.
    repeat case_decide; try done. tauto.
  - change (t !! j = Some y) in Hy. change (t !! S j = Some x) in Hx.
    specialize (IH j x y Hy Hx HP).
    unfold sort.Swap in IH. rewrite Hx, Hy in IH.
    unfold sort.Swap.
    change ((h :: t) !! S (S j)) with (t !! S j). change ((h :: t) !! S j) with (t !! j).
    rewrite Hx, Hy. change (filter P (h :: <[S j:=y]> (<[j:=x]> t)) = filter P (h :: t)).
    rewrite !filter_cons, IH. done.
Qed.

Lemma insert_down_filter a : ∀ j (d : list A),
  filter P (sort.insert_down less a j d) = filter P d.
Proof using Hless.
  induction j as [|j IH]; intros d; cbn [sort.insert_down]; [done|].
  destruct ((a <? S j) && sort.Less less d (S j) j) eqn:E; [|done].
  apply andb_prop in E as [_ E]. rewrite IH.
  unfold sort.Less in E.
  destruct (d !! S j) as [x|] eqn:Hx; [|done].
  destruct (d !! j) as [y|] eqn:Hy; [|done].
  eapply Swap_adjacent_filter; eauto.
Qed.

Lemma insertion_loop_filter a : ∀ n i (d : list A),
  filter P (sort.insertion_loop less a i n d) = filter P d.
Proof using Hless.
  induction n as [|n IH]; intros i d; cbn [sort.insertion_loop]; [done|].
  by rewrite IH, insert_down_filter.
Qed.

Lemma insertionSort_filter (d : list A) a b :
  filter P (sort.insertionSort_func less d a b) = filter P d.
Proof using Hless. apply insertion_loop_filter. Qed.

Lemma Slice_small (x : list A) :
  length x ≤ 12 → sort.Slice less x = sort.insertionSort_func less x 0 (length x).
Proof.
  intros Hlen. unfold sort.Slice, sort.pdqsort_func. cbv zeta.
  cbn [sort.pdqsort_loop].
  replace (length x - 0 <=? 12) with true; [done|].
  symmetry. apply Nat.leb_le. lia.
Qed.

Lemma Slice_filter_small (x : list A) :
  length x ≤ 12 → filter P (sort.Slice less x) = filter P x.
Proof using Hless. intros Hlen. rewrite Slice_small by done. apply insertionSort_filter. Qed.

End SliceStable.

(** ** Sorting by size, largest first *)

Section descending.

Context {B : Type}.
Variable size : B → Z.

Lemma non_increasing_nil : non_increasing size [].
Proof. by intros i x y ?. Qed.

Lemma non_increasing_singleton x : non_increasing size [x].
Proof. intros [|i] ???; done. Qed.

Lemma non_increasing_cons x y l :
  (size y ≤ size x)%Z → non_increasing size (y :: l) → non_increasing size (x :: y :: l).
Proof.
  intros Hxy Hl [|i] x' y' Hx Hy; cbn in Hx, Hy.
  - congruence.
  - by apply (Hl i).
Qed.

Lemma non_increasing_tail x l : non_increasing size (x :: l) → non_increasing size l.
Proof. intros Hl i x' y' Hx Hy. by apply (Hl (S i)). Qed.

Lemma non_increasing_head x y l :
  non_increasing size (x :: y :: l) → (size y ≤ size x)%Z.
Proof. intros Hl. by apply (Hl 0). Qed.

Lemma non_increasing_take n l : non_increasing size l → non_increasing size (take n l).
Proof.
  intros Hl i x y Hx Hy.
  apply lookup_take_Some in Hx as [Hx _]. apply lookup_take_Some in Hy as [Hy _].
  by apply (Hl i).
Qed.

Lemma non_increasing_top count l :
  non_increasing size l → non_increasing size (top count l).
Proof. intros Hl. unfold top. case_bool_decide; [by apply non_increasing_take|done]. Qed.

(** The specification's sort as a function is the specification's sort
    as a relation. *)
Lemma stable_insert_perm x l : stable_insert size x l ≡ₚ x :: l.
Proof.
  induction l as [|y l IH]; cbn; [done|].
  destruct (size x <? size y)%Z; [|done].
  rewrite IH. apply Permutation_swap.
Qed.

Lemma stable_insert_filter x l s :
  filter (λ z, size z = s) (stable_insert size x l) = filter (λ z, size z = s) (x :: l).
Proof.
  induction l as [|y l IH]; cbn [stable_insert]; [done|].
  destruct (size x <? size y)%Z eqn:E; [|done]. apply Z.ltb_lt in E.
  rewrite (filter_cons _ y), IH, !filter_cons.
  repeat case_decide; try done; lia.
Qed.

Lemma stable_insert_non_increasing x l :
  non_increasing size l → non_increasing size (stable_insert size x l).
Proof.
  induction l as [|y l IH]; intros Hl; cbn [stable_insert].
  - apply non_increasing_singleton.
  - destruct (size x <? size y)%Z eqn:E.
    + apply Z.ltb_lt in E. specialize (IH (non_increasing_tail _ _ Hl)).
      destruct l as [|z l]; cbn [stable_insert] in *.
      * apply non_increasing_cons; [lia|apply non_increasing_singleton].
      * pose proof (non_increasing_head _ _ _ Hl).
        destruct (size x <? size z)%Z; apply non_increasing_cons; try done; lia.
    + apply Z.ltb_ge in E. by apply non_increasing_cons.
Qed.

Lemma stable_sort_desc_stable l :
  stable_descending_sort size l (stable_sort_desc size l).
Proof.
  induction l as [|x l (Hp & Hn & Hk)].
  - split; [done|]. split; [apply non_increasing_nil|done].
  - change (stable_sort_desc size (x :: l))
      with (stable_insert size x (stable_sort_desc size l)).
    split; [|split].
    + by rewrite stable_insert_perm, Hp.
    + by apply stable_insert_non_increasing.
    + intros s. rewrite stable_insert_filter, !filter_cons, (Hk s). done.
Qed.

Lemma desc_less x y :
  (size y <? size x)%Z = bool_decide (- size x < - size y)%Z.
Proof.
  case_bool_decide as H.
  - apply Z.ltb_lt. lia.
  - apply Z.ltb_ge. lia.
Qed.

(** [sort.Slice] with the comparison of the size analyzer. *)
Lemma Slice_descending (l : list B) :
  descending_sort size l (sort.Slice (λ x y, (size y <? size x)%Z) l).
Proof.
  destruct (Slice_correct (λ x, (- size x)%Z) _ desc_less l) as [Hp Hs].
  split; [done|]. split.
  - intros i x y Hx Hy.
    assert (S i < length l) as Hi.
    { rewrite <-(Permutation_length Hp). by eapply lookup_lt_Some. }
    specialize (Hs i (S i) ltac:(lia) ltac:(lia) Hi).
    unfold K in Hs. rewrite Hx, Hy in Hs. cbn in Hs. lia.
  - intros Hlen s. apply Slice_filter_small; [|done].
    intros x y Hlt%Z.ltb_lt [??]. lia.
Qed.

End descending.

(** ** The sequences of the size report *)

Lemma getLayerSizes_descending imagePath tree layerSizes :
  getLayerSizes imagePath tree = (Some layerSizes, None) →
  descending_sort LayerSize.Size (collectLayerSizes (globLayers imagePath tree)) layerSizes.
Proof.
  unfold getLayerSizes. cbv zeta. intros [= <-].
  apply (Slice_descending LayerSize.Size).
Qed.

Lemma getLargestFiles_descending imagePath tree count largestFiles :
  getLargestFiles imagePath tree count = (Some largestFiles, None) →
  ∃ files sorted,
    Walk getLargestFilesFn imagePath tree [] = (files, None) ∧
    descending_sort FileSize.Size files sorted ∧
    largestFiles = top count sorted.
Proof.
  unfold getLargestFiles.
  destruct (Walk getLargestFilesFn imagePath tree []) as [files [e|]]; [done|].
  cbv zeta. intros [= <-]. eexists _, _. split; [done|]. split; [|done].
  apply (Slice_descending FileSize.Size).
Qed.

Lemma GetTopDirectories_descending imagePath tree count largestDirs :
  GetTopDirectories imagePath tree count = (Some largestDirs, None) →
  ∃ dirs sorted,
    Walk getTopDirectoriesFn imagePath tree [] = (dirs, None) ∧
    descending_sort DirectoryInfo.Size dirs sorted ∧
    largestDirs = top count sorted.
Proof.
  unfold GetTopDirectories.
  destruct (Walk getTopDirectoriesFn imagePath tree []) as [dirs [e|]]; [done|].
  cbv zeta. intros [= <-]. eexists _, _. split; [done|]. split; [|done].
  apply (Slice_descending DirectoryInfo.Size).
Qed.

Lemma AnalyzeSize_parts imagePath tree info :
  AnalyzeSize imagePath tree = (Some info, None) →
  getLayerSizes imagePath tree = (Some (SizeInfo.LayerSizes info), None) ∧
  getLargestFiles imagePath tree 10 = (Some (SizeInfo.LargestFiles info), None) ∧
  GetTopDirectories imagePath tree 5 = (Some (SizeInfo.LargestDirs info), None).
Proof.
  unfold AnalyzeSize.
  destruct (getDirSize imagePath tree) as [totalSize [e|]]; [done|].
  destruct (getLayerSizes imagePath tree) as [[layerSizes|] [e|]]; try done.
  destruct (getLargestFiles imagePath tree 10) as [[largestFiles|] [e|]]; try done.
  destruct (GetTopDirectories imagePath tree 5) as [[largestDirs|] [e|]]; try done.
  destruct (getFileTypeBreakdown imagePath tree) as [fileTypeBreakdown [e|]]; [done|].
  by intros [= <-].
Qed.

(** C3 (as amended): when the size analyzer returns a report, its three
    sequences are non-increasing by size. [LayerSizes] is a rearrangement
    of the collected layers, [LargestFiles] and [LargestDirs] are the
    first 10 and the first 5 entries of a non-increasing rearrangement of
    the collected files and directories. Entries of equal size keep their
    encounter order when at most twelve entries were collected. *)
Theorem size_report_descending imagePath tree info :
  AnalyzeSize imagePath tree = (Some info, None) →
  (non_increasing LayerSize.Size (SizeInfo.LayerSizes info) ∧
   non_increasing FileSize.Size (SizeInfo.LargestFiles info) ∧
   non_increasing DirectoryInfo.Size (SizeInfo.LargestDirs info)) ∧
  descending_sort LayerSize.Size
    (collectLayerSizes (globLayers imagePath tree)) (SizeInfo.LayerSizes info) ∧
  (∃ files sorted,
     Walk getLargestFilesFn imagePath tree [] = (files, None) ∧
     descending_sort FileSize.Size files sorted ∧
     SizeInfo.LargestFiles info = top 10 sorted) ∧
  (∃ dirs sorted,
     Walk getTopDirectoriesFn imagePath tree [] = (dirs, None) ∧
     descending_sort DirectoryInfo.Size dirs sorted ∧
     SizeInfo.LargestDirs info = top 5 sorted).
Proof.
  intros (Hlayers & Hfiles & Hdirs)%AnalyzeSize_parts.
  apply getLayerSizes_descending in Hlayers.
  apply getLargestFiles_descending in Hfiles as (files & sf & Hwf & Hsf & Hf).
  apply GetTopDirectories_descending in Hdirs as (dirs & sd & Hwd & Hsd & Hd).
  split; [|split; [done|split; eauto 6]].
  split; [apply Hlayers|].
  rewrite Hf, Hd. split; apply non_increasing_top; [apply Hsf|apply Hsd].
Qed.

Lemma size_report_descending_witness :
  let info := default (SizeInfo.mk 0 [] [] [] ∅) (AnalyzeSize "/img" thirteen_layers).1 in
  (non_increasing LayerSize.Size (SizeInfo.LayerSizes info) ∧
   non_increasing FileSize.Size (SizeInfo.LargestFiles info) ∧
   non_increasing DirectoryInfo.Size (SizeInfo.LargestDirs info)) ∧
  descending_sort LayerSize.Size
    (collectLayerSizes (globLayers "/img" thirteen_layers)) (SizeInfo.LayerSizes info) ∧
  (∃ files sorted,
     Walk getLargestFilesFn "/img" thirteen_layers [] = (files, None) ∧
     descending_sort FileSize.Size files sorted ∧
     SizeInfo.LargestFiles info = top 10 sorted) ∧
  (∃ dirs sorted,
     Walk getTopDirectoriesFn "/img" thirteen_layers [] = (dirs, None) ∧
     descending_sort DirectoryInfo.Size dirs sorted ∧
     SizeInfo.LargestDirs info = top 5 sorted).
Proof.
  apply (size_report_descending "/img" thirteen_layers).
  vm_compute. reflexivity.
Defined.

(** C3 (as stated) fails: of thirteen layers collected in the order
    [a] to [m], twelve of one byte and the last of two, the report lists
    [g] and [c] before [a]. The stable sort lists [a] to [l] in that
    order after [m]. *)
Lemma layer_sizes_not_stable :
  collectLayerSizes (globLayers "/img" thirteen_layers)
    = ((λ id, LayerSize.mk id 1)
         <$> ["a"; "b"; "c"; "d"; "e"; "f"; "g"; "h"; "i"; "j"; "k"; "l"])
      ++ [LayerSize.mk "m" 2] ∧
  SizeInfo.LayerSizes <$> (AnalyzeSize "/img" thirteen_layers).1
    = Some (LayerSize.mk "m" 2 ::
            ((λ id, LayerSize.mk id 1)
               <$> ["g"; "c"; "d"; "e"; "f"; "a"; "h"; "i"; "j"; "k"; "l"; "b"])) ∧
  stable_sort_desc LayerSize.Size (collectLayerSizes (globLayers "/img" thirteen_layers))
    = LayerSize.mk "m" 2 ::
      ((λ id, LayerSize.mk id 1)
         <$> ["a"; "b"; "c"; "d"; "e"; "f"; "g"; "h"; "i"; "j"; "k"; "l"]) ∧
  ¬ stable_descending_sort LayerSize.Size
      (collectLayerSizes (globLayers "/img" thirteen_layers))
      (default [] (SizeInfo.LayerSizes <$> (AnalyzeSize "/img" thirteen_layers).1)).
Proof.
  repeat split; try (vm_compute; reflexivity).
  intros (_ & _ & Hkeep). specialize (Hkeep 1%Z).
  vm_compute in Hkeep. discriminate Hkeep.
Qed.

(** ** A walk is a run over its events *)

Section walk_events.
Context {St : Type}.
Variable fn : @WalkFunc St.

Lemma run_app (evs rest : list event) (s : St) :
  run fn (evs ++ rest) s
  = match run fn evs s with
    | (s1, Some e) => (s1, Some e)
    | (s1, None) => run fn rest s1
    end.
Proof.
  revert s. induction evs as [|[[[path rel] info] err] evs IH]; intros s; simpl; [done|].
  destruct (fn path rel info err s) as [s1 [e|]]; [done|]. apply IH.
Qed.

Lemma walk_events (info : node) : ∀ path rel s,
  walk fn info path rel s = run fn (events info path rel) s.
Proof.
  induction info as [sz c|sz|sz es IH] using node_ind2; intros path rel s; simpl.
  - by destruct (fn path rel (File sz c) None s) as [s1 [e|]].
  - by destruct (fn path rel (Dir sz None) (Some ErrReadDir) s) as [s1 [e|]].
  - destruct (fn path rel (Dir sz (Some es)) None s) as [s1 [e|]]; [done|].
    rewrite (sort_entries_map (λ c, walk fn c)), (sort_entries_map events).
    assert (Forall (λ e : string * node, ∀ path rel s,
              walk fn e.2 path rel s = run fn (events e.2 path rel) s)
              (sort_entries es)) as IH'.
    { by rewrite sort_entries_perm. }
    clear IH. revert s1.
    induction IH' as [|e l He _ IHl]; intros s1; simpl; [done|].
    rewrite run_app, <-He.
    destruct (walk fn e.2 _ _ s1) as [s2 [err|]]; [done|]. apply IHl.
Qed.

Lemma Walk_events (root : string) (tree : node) (s : St) :
  Walk fn root tree s = run fn (events tree root []) s.
Proof. apply walk_events. Qed.

(** A walk function that returns the listing error it is given and
    otherwise folds a step without failing. *)
Variable step : visit → St → St.
Hypothesis Hok : ∀ path rel info s, fn path rel info None s = (step (path, rel, info) s, None).
Hypothesis Herr : ∀ path rel info e s, fn path rel info (Some e) s = (s, Some e).

Lemma run_passive (evs : list event) (s : St) :
  run fn evs s = (foldl (λ s v, step v s) s (ok_prefix evs), first_error evs).
Proof using Hok Herr.
  revert s. induction evs as [|[[[path rel] info] [e|]] evs IH]; intros s; simpl; [done|..].
  - by rewrite Herr.
  - rewrite Hok. apply IH.
Qed.

End walk_events.

Lemma foldl_snoc_visits (vs : list visit) (seen : list visit) :
  foldl (λ s v, s ++ [v]) seen vs = seen ++ vs.
Proof.
  revert seen. induction vs as [|v vs IH]; intros seen; simpl; [by rewrite app_nil_r|].
  by rewrite IH, <-app_assoc.
Qed.

Lemma visited_events (root : string) (tree : node) :
  visited root tree = (ok_prefix (events tree root []), first_error (events tree root [])).
Proof.
  unfold visited. rewrite Walk_events.
  rewrite (run_passive recordFn (λ v s, s ++ [v])).
  - by rewrite foldl_snoc_visits.
  - done.
  - done.
Qed.

(** A passive walk function folds its step over the visited entries. *)
Lemma Walk_passive {St : Type} (fn : @WalkFunc St) (step : visit → St → St)
    (root : string) (tree : node) (s : St) :
  (∀ path rel info s, fn path rel info None s = (step (path, rel, info) s, None)) →
  (∀ path rel info e s, fn path rel info (Some e) s = (s, Some e)) →
  Walk fn root tree s
  = (foldl (λ s v, step v s) s (visited root tree).1, (visited root tree).2).
Proof.
  intros Hok Herr. rewrite Walk_events, visited_events.
  by apply run_passive.
Qed.

(** *** The shape of the events *)

Lemma events_names_forall (P : event → Prop)
    (ws : list (string * (string → list string → list event))) path rel :
  Forall (λ w, Forall P (w.2 (filepath.Join [path; w.1]) (rel ++ [w.1]))) ws →
  Forall P (events_names ws path rel).
Proof.
  induction 1 as [|[name w] ws Hw _ IH]; simpl; [constructor|].
  apply Forall_app. split; [exact Hw|exact IH].
Qed.

Lemma events_children (P : event → Prop) (es : list (string * node)) path rel :
  Forall (λ e, ∀ path rel, Forall P (events e.2 path rel)) es →
  Forall P (events_names (sort_entries (map (λ e, (e.1, events e.2)) es)) path rel).
Proof.
  intros H. rewrite (sort_entries_map events).
  apply events_names_forall. apply Forall_map.
  rewrite sort_entries_perm.
  eapply Forall_impl; [exact H|]. intros e He. apply He.
Qed.

Lemma events_head (info : node) path rel :
  ∃ err tail, events info path rel = ((path, rel, info), err) :: tail ∧
    (err = None ∨ (err = Some ErrReadDir ∧ tail = [] ∧ listable info = false)).
Proof.
  destruct info as [sz c|sz [es|]]; simpl.
  - eexists _, _. split; [done|by left].
  - eexists _, _. split; [done|by left].
  - eexists _, _. split; [done|by right].
Qed.

(** Every event below the first has a longer list of names. *)
Lemma events_rel_length (info : node) : ∀ path rel,
  Forall (λ ev : event, length rel ≤ length ev.1.1.2) (events info path rel).
Proof.
  induction info as [sz c|sz|sz es IH] using node_ind2; intros path rel; simpl.
  - by repeat constructor.
  - by repeat constructor.
  - constructor; [done|].
    rewrite (sort_entries_map events).
    apply events_names_forall, Forall_map. rewrite sort_entries_perm.
    eapply Forall_impl; [exact IH|]. intros e He. simpl.
    eapply Forall_impl; [apply He|].
    intros ev Hev. simpl in Hev. rewrite length_app in Hev. simpl in Hev. lia.
Qed.

Lemma events_tail_below (info : node) path rel :
  Forall (λ ev : event, length rel < length ev.1.1.2) (tail (events info path rel)).
Proof.
  destruct info as [sz c|sz [es|]]; simpl; try constructor.
  rewrite (sort_entries_map events).
  apply events_names_forall, Forall_map, Forall_forall. intros e _. simpl.
  eapply Forall_impl; [apply events_rel_length|].
  intros ev Hev. simpl in Hev. rewrite length_app in Hev. simpl in Hev. lia.
Qed.

(** The error of an event is that of an unlistable directory. *)
Lemma events_errors (info : node) : ∀ path rel,
  Forall (λ ev : event, ev.2 = None ∨ ev.2 = Some ErrReadDir) (events info path rel).
Proof.
  induction info as [sz c|sz|sz es IH] using node_ind2; intros path rel; simpl.
  - constructor; [by left|constructor].
  - constructor; [by right|constructor].
  - constructor; [by left|]. apply events_children.
    eapply Forall_impl; [exact IH|]. intros e He path' rel'. apply He.
Qed.

Lemma first_error_None (evs : list event) :
  first_error evs = None ↔ Forall (λ ev : event, ev.2 = None) evs.
Proof.
  induction evs as [|[v [e|]] evs IH]; simpl.
  - split; [constructor|done].
  - split; [done|]. by intros [? _]%Forall_cons.
  - rewrite IH. split; [by constructor|by intros [_ ?]%Forall_cons].
Qed.

Lemma first_error_ReadDir (evs : list event) e :
  Forall (λ ev : event, ev.2 = None ∨ ev.2 = Some ErrReadDir) evs →
  first_error evs = Some e → e = ErrReadDir.
Proof.
  induction 1 as [|[v [e'|]] evs Hev _ IH]; simpl; [done|..].
  - destruct Hev as [?|?]; simplify_eq/=. congruence.
  - done.
Qed.

Lemma ok_prefix_all (evs : list event) :
  Forall (λ ev : event, ev.2 = None) evs → ok_prefix evs = evs.*1.
Proof.
  induction 1 as [|[v e] evs Hev _ IH]; simpl in *; [done|]. subst e. by rewrite IH.
Qed.

Lemma events_names_exists_error
    (ws : list (string * (string → list string → list event))) path rel :
  Forall (λ ev : event, ev.2 = None) (events_names ws path rel) ↔
  Forall (λ w, Forall (λ ev : event, ev.2 = None)
                 (w.2 (filepath.Join [path; w.1]) (rel ++ [w.1]))) ws.
Proof.
  induction ws as [|[name w] ws IH]; simpl.
  - split; constructor.
  - rewrite Forall_app, Forall_cons, IH. done.
Qed.

(** A tree is listable exactly when its walk meets no listing error. *)
Lemma listable_events (info : node) : ∀ path rel,
  listable info = true ↔ Forall (λ ev : event, ev.2 = None) (events info path rel).
Proof.
  induction info as [sz c|sz|sz es IH] using node_ind2; intros path rel; simpl.
  - split; [by repeat constructor|done].
  - split; [done|]. by intros [? _]%Forall_cons.
  - rewrite Forall_cons, (sort_entries_map events), events_names_exists_error.
    rewrite Forall_map. rewrite sort_entries_perm.
    rewrite List.forallb_forall. rewrite Forall_forall in IH.
    split.
    + intros H. split; [done|]. apply Forall_forall. intros e He. simpl.
      apply IH; [done|]. by apply H, list_elem_of_In.
    + intros [_ H] e He%list_elem_of_In. rewrite Forall_forall in H.
      eapply IH; [done|]. apply (H e He).
Qed.

Lemma listable_visited (root : string) (tree : node) :
  listable tree = true ↔ (visited root tree).2 = None.
Proof.
  rewrite visited_events. simpl. rewrite first_error_None. apply listable_events.
Qed.

Lemma visited_error (root : string) (tree : node) e :
  (visited root tree).2 = Some e → e = ErrReadDir.
Proof.
  rewrite visited_events. simpl. apply first_error_ReadDir, events_errors.
Qed.

(** ** Sizes *)

Lemma wrap64_eq (x y : Z) :
  wrap64 x = wrap64 y ↔ (x mod 2 ^ 64 = y mod 2 ^ 64)%Z.
Proof.
  unfold wrap64. split.
  - intros H.
    assert ((x + 2 ^ 63) mod 2 ^ 64 = (y + 2 ^ 63) mod 2 ^ 64)%Z as H' by lia.
    rewrite <-(Z.add_simpl_r x (2 ^ 63)), <-(Z.add_simpl_r y (2 ^ 63)).
    rewrite (Zminus_mod (x + 2 ^ 63)), (Zminus_mod (y + 2 ^ 63)). by rewrite H'.
  - intros H. f_equal. rewrite (Zplus_mod x), (Zplus_mod y). by rewrite H.
Qed.

Lemma wrap64_mod (x : Z) : (wrap64 x mod 2 ^ 64 = x mod 2 ^ 64)%Z.
Proof.
  unfold wrap64.
  rewrite Zminus_mod, Z.mod_mod by lia.
  rewrite <-Zminus_mod. f_equal. lia.
Qed.

Lemma wrap64_add_l (x y : Z) : wrap64 (wrap64 x + y) = wrap64 (x + y).
Proof.
  apply wrap64_eq. rewrite (Zplus_mod (wrap64 x)), wrap64_mod, <-Zplus_mod. done.
Qed.

Lemma wrap64_idemp (x : Z) : wrap64 (wrap64 x) = wrap64 x.
Proof. apply wrap64_eq, wrap64_mod. Qed.

Lemma wrap64_0 : wrap64 0 = 0%Z.
Proof. reflexivity. Qed.

Lemma file_sizes_nil : file_sizes [] = [].
Proof. done. Qed.

Lemma file_sizes_cons (v : visit) (vs : list visit) :
  file_sizes (v :: vs) = if IsDir v.2 then file_sizes vs else Size v.2 :: file_sizes vs.
Proof. unfold file_sizes, is_file. simpl. by destruct (IsDir v.2). Qed.

Lemma sum_sizes_nil : sum_sizes [] = 0%Z.
Proof. done. Qed.

Lemma sum_sizes_cons (x : Z) (l : list Z) : sum_sizes (x :: l) = (x + sum_sizes l)%Z.
Proof. done. Qed.

(** The step of [getDirSize] and of [utils.GetDirSize]. *)
Lemma foldl_size_step (vs : list visit) (size : Z) :
  foldl (λ s (v : visit), if IsDir v.2 then s else add64 s (Size v.2)) (wrap64 size) vs
  = wrap64 (size + sum_sizes (file_sizes vs)).
Proof.
  revert size. induction vs as [|v vs IH]; intros size; cbn [foldl].
  - by rewrite file_sizes_nil, sum_sizes_nil, Z.add_0_r.
  - rewrite file_sizes_cons. destruct (IsDir v.2).
    + apply IH.
    + unfold add64. rewrite wrap64_add_l, IH, sum_sizes_cons. f_equal. lia.
Qed.

Lemma getDirSize_visited (path : string) (tree : node) :
  getDirSize path tree
  = (wrap64 (sum_sizes (file_sizes (visited path tree).1)), (visited path tree).2).
Proof.
  unfold getDirSize.
  rewrite (Walk_passive getDirSizeFn
             (λ v s, if IsDir v.2 then s else add64 s (Size v.2))); [|done|done].
  f_equal. rewrite <-wrap64_0 at 1. by rewrite foldl_size_step.
Qed.

Lemma foldl_pointwise {B C : Type} (f g : B → C → B) (l : list C) (s : B) :
  (∀ s x, f s x = g s x) → foldl f s l = foldl g s l.
Proof.
  intros Hfg. revert s. induction l as [|x l IH]; intros s; simpl; [done|].
  by rewrite Hfg, IH.
Qed.

(** X1. The size that [getDirSize] and [utils.GetDirSize] return is the
    sum of the sizes of the regular files the walk visits, reduced to
    [int64]; directories do not count. The error is the one of the walk,
    and the sum then stops at the entries visited before it. *)
Theorem dir_size_is_sum_of_files (path : string) (tree : node) :
  getDirSize path tree
    = (wrap64 (sum_sizes (file_sizes (visited path tree).1)), (visited path tree).2) ∧
  utils.GetDirSize path tree = getDirSize path tree.
Proof.
  split; [apply getDirSize_visited|].
  unfold utils.GetDirSize, getDirSize.
  rewrite (Walk_passive utils.GetDirSizeFn
             (λ v s, if negb (IsDir v.2) then add64 s (Size v.2) else s)); [|done|done].
  rewrite (Walk_passive getDirSizeFn
             (λ v s, if IsDir v.2 then s else add64 s (Size v.2))); [|done|done].
  f_equal. apply foldl_pointwise. intros s v. by destruct (IsDir v.2).
Qed.

(** *** The directory report *)

Lemma visited_root (root : string) (tree : node) :
  ∃ vs, ((visited root tree).1 = [] ∨ (visited root tree).1 = (root, [], tree) :: vs) ∧
        Forall (λ v : visit, v.1.2 ≠ []) vs.
Proof.
  rewrite visited_events. simpl.
  pose proof (events_tail_below tree root []) as Htail.
  destruct (events_head tree root []) as (err & tl & Hev & Herr).
  rewrite Hev in *. simpl in *.
  destruct Herr as [->|(-> & -> & _)].
  - exists (ok_prefix tl). split; [by right|].
    clear Hev. induction Htail as [|[[[p r] i] [e|]] tl Hv _ IH]; simpl; try constructor.
    + simpl in Hv. destruct r; simpl in *; [lia|done].
    + exact IH.
  - exists []. split; [by left|constructor].
Qed.

Lemma AnalyzeDirectory_walk (imagePath : string) (tree : node) (verbose : bool) :
  Walk (analyzeDirectoryFn verbose) imagePath tree
    (DirectoryInfo.mk imagePath 0 0 0 None ∅ None)
  = (foldl (λ s v, directory_step verbose v s)
       (DirectoryInfo.mk imagePath 0 0 0 None ∅ None) (visited imagePath tree).1,
     (visited imagePath tree).2).
Proof.
  apply Walk_passive.
  - intros path rel info s. unfold directory_step, analyzeDirectoryFn. simpl.
    destruct (decide (rel = [])); [done|]. by destruct (IsDir info).
  - done.
Qed.

Lemma directory_step_size verbose (vs : list visit) : ∀ info size,
  Forall (λ v : visit, v.1.2 ≠ []) vs →
  DirectoryInfo.Size info = wrap64 size →
  DirectoryInfo.Size (foldl (λ s v, directory_step verbose v s) info vs)
  = wrap64 (size + sum_sizes (file_sizes vs)).
Proof.
  induction vs as [|v vs IH]; intros info size Hvs Hsize; cbn [foldl].
  - by rewrite file_sizes_nil, sum_sizes_nil, Z.add_0_r.
  - apply Forall_cons in Hvs as [Hv Hvs].
    rewrite file_sizes_cons.
    unfold directory_step at 2, analyzeDirectoryFn.
    destruct (decide (v.1.2 = [])); [done|].
    destruct (IsDir v.2) eqn:Hd; cbn [fst].
    + by apply IH.
    + rewrite (IH _ (size + Size v.2)%Z); [|done|].
      * rewrite sum_sizes_cons. f_equal. lia.
      * simpl. unfold add64. by rewrite Hsize, wrap64_add_l.
Qed.

Lemma AnalyzeDirectory_Size_fst imagePath tree verbose :
  DirectoryInfo.Size (AnalyzeDirectory imagePath tree verbose).1
  = DirectoryInfo.Size
      (Walk (analyzeDirectoryFn verbose) imagePath tree
         (DirectoryInfo.mk imagePath 0 0 0 None ∅ None)).1.
Proof.
  unfold AnalyzeDirectory.
  destruct (Walk (analyzeDirectoryFn verbose) imagePath tree _) as [info err].
  by destruct verbose.
Qed.

(** X2. For an image path that is a directory, the total size in the
    directory report is the size [getDirSize] computes for the same tree
    (the total of the size report). For an image path that is a regular
    file the directory report counts nothing: its size is zero. *)
Theorem directory_size_agrees (imagePath : string) (tree : node) (verbose : bool) :
  DirectoryInfo.Size (AnalyzeDirectory imagePath tree verbose).1
  = if IsDir tree then (getDirSize imagePath tree).1 else 0%Z.
Proof.
  rewrite AnalyzeDirectory_Size_fst, AnalyzeDirectory_walk, getDirSize_visited. simpl.
  destruct (visited_root imagePath tree) as (vs & [Hv|Hv] & Hvs); rewrite Hv; cbn [foldl].
  - by destruct (IsDir tree).
  - unfold directory_step at 2, analyzeDirectoryFn. cbn [fst snd].
    rewrite decide_True by done. cbn [fst].
    rewrite (directory_step_size verbose vs _ 0); [|done|done].
    rewrite file_sizes_cons. cbn [snd]. destruct (IsDir tree) eqn:Hd; [done|].
    destruct tree as [sz c|sz es]; [|done].
    unfold visited in Hv. simpl in Hv. injection Hv as <-.
    done.
Qed.

(** *** The breakdown by file type *)

Lemma histogram_total_insert (k : string) (v : Z) (m : gmap string Z) :
  histogram_total (<[k := v]> m) = (histogram_total m - default 0 (m !! k) + v)%Z.
Proof.
  unfold histogram_total.
  assert (Hcomm : ∀ (m' : gmap string Z) (j1 j2 : string) (z1 z2 y : Z),
    j1 ≠ j2 → m' !! j1 = Some z1 → m' !! j2 = Some z2 →
    (z1 + (z2 + y) = z2 + (z1 + y))%Z) by (intros; lia).
  destruct (m !! k) as [x|] eqn:Hk; simpl.
  - rewrite <-(insert_delete_eq m k v).
    rewrite map_fold_insert_L; [|by eauto|by rewrite lookup_delete_eq].
    rewrite (map_fold_delete_L _ _ k x m); [lia|by eauto|done].
  - rewrite map_fold_insert_L; [lia|by eauto|done].
Qed.

Lemma getFileTypeBreakdown_walk (imagePath : string) (tree : node) :
  getFileTypeBreakdown imagePath tree
  = (foldl (λ s v, breakdown_step v s) ∅ (visited imagePath tree).1,
     (visited imagePath tree).2).
Proof.
  unfold getFileTypeBreakdown. apply Walk_passive; [|done].
  intros path rel info s. unfold breakdown_step, getFileTypeBreakdownFn. simpl.
  by destruct (IsDir info).
Qed.

Lemma breakdown_step_total (vs : list visit) : ∀ m size,
  wrap64 (histogram_total m) = wrap64 size → m !! "" = None →
  let m' := foldl (λ s v, breakdown_step v s) m vs in
  wrap64 (histogram_total m') = wrap64 (size + sum_sizes (file_sizes vs)) ∧
  m' !! "" = None.
Proof.
  induction vs as [|v vs IH]; intros m size Hm Hk; cbn [foldl].
  - by rewrite file_sizes_nil, sum_sizes_nil, Z.add_0_r.
  - rewrite file_sizes_cons.
    unfold breakdown_step at 2 4, getFileTypeBreakdownFn.
    destruct (IsDir v.2) eqn:Hd; cbn [fst].
    + by apply IH.
    + set (ext := if decide (filepath.Ext v.1.1 = "") then "[no extension]"
                  else filepath.Ext v.1.1).
      assert (ext ≠ "") as Hext by (unfold ext; by case_decide).
      destruct (IH (<[ext := add64 (default 0%Z (m !! ext)) (Size v.2)]> m)
                  (size + Size v.2)%Z) as [IH1 IH2].
      * rewrite histogram_total_insert. unfold add64.
        apply wrap64_eq.
        replace (histogram_total m - default 0 (m !! ext)
                 + wrap64 (default 0 (m !! ext) + Size v.2))%Z
          with (wrap64 (default 0 (m !! ext) + Size v.2)
                + (histogram_total m - default 0 (m !! ext)))%Z by lia.
        rewrite Zplus_mod, wrap64_mod, <-Zplus_mod.
        replace (default 0 (m !! ext) + Size v.2
                 + (histogram_total m - default 0 (m !! ext)))%Z
          with (histogram_total m + Size v.2)%Z by lia.
        apply wrap64_eq in Hm.
        rewrite Zplus_mod, Hm, <-Zplus_mod. done.
      * by rewrite lookup_insert_ne.
      * split; [|exact IH2]. rewrite IH1, sum_sizes_cons. f_equal. lia.
Qed.

(** X3. The buckets of the breakdown by file type add up, modulo
    [2^64], to the total size of the image, and no bucket has the empty
    extension as its key: files without an extension are counted under
    [[no extension]]. *)
Theorem breakdown_sums_to_total (imagePath : string) (tree : node) :
  wrap64 (histogram_total (getFileTypeBreakdown imagePath tree).1)
    = (getDirSize imagePath tree).1 ∧
  (getFileTypeBreakdown imagePath tree).1 !! "" = None.
Proof.
  rewrite getFileTypeBreakdown_walk, getDirSize_visited. simpl.
  destruct (breakdown_step_total (visited imagePath tree).1 ∅ 0) as [H1 H2]; [done|done|].
  split; [|exact H2]. by rewrite H1.
Qed.

(** ** When the analyzers fail *)

Section run_checked.
Context {St : Type}.
Variable fn : @WalkFunc St.
Variable step : visit → St → St.
Variable check : visit → option error.
Hypothesis Hok : ∀ path rel info s,
  fn path rel info None s = (step (path, rel, info) s, check (path, rel, info)).
Hypothesis Herr : ∀ path rel info e s, fn path rel info (Some e) s = (s, Some e).

Lemma run_checked_error (evs : list event) (s : St) :
  (run fn evs s).2 = first_error (checked check evs).
Proof using Hok Herr.
  revert s. induction evs as [|[[[path rel] info] [e|]] evs IH]; intros s; simpl; [done|..].
  - by rewrite Herr.
  - rewrite Hok. destruct (check (path, rel, info)); [done|]. apply IH.
Qed.

Lemma run_checked_ok (evs : list event) (s : St) :
  first_error (checked check evs) = None →
  run fn evs s = (foldl (λ s v, step v s) s evs.*1, None).
Proof using Hok Herr.
  revert s. induction evs as [|[[[path rel] info] [e|]] evs IH]; intros s; simpl; [done|done|].
  rewrite Hok. destruct (check (path, rel, info)); [done|]. apply IH.
Qed.

End run_checked.

Lemma first_error_checked_listable (check : visit → option error) (evs : list event) :
  Forall (λ ev : event, ev.2 = None) evs →
  first_error (checked check evs)
  = match List.find (λ v, bool_decide (is_Some (check v))) evs.*1 with
    | Some v => check v
    | None => None
    end.
Proof.
  induction 1 as [|[v e] evs Hev _ IH]; [done|]. simpl in Hev. subst e.
  cbn [checked fmap list_fmap first_error List.find fst snd] in *.
  destruct (check v) as [e|] eqn:Hc.
  - rewrite bool_decide_eq_true_2 by eauto. done.
  - rewrite bool_decide_eq_false_2 by (by intros [??]). apply IH.
Qed.

Lemma first_error_checked_unlistable (check : visit → option error) (evs : list event) :
  first_error evs ≠ None → first_error (checked check evs) ≠ None.
Proof.
  induction evs as [|[v [e|]] evs IH]; simpl; [done|done|].
  intros H. destruct (check v); [done|]. by apply IH.
Qed.

Lemma visited_listable (root : string) (tree : node) :
  listable tree = true →
  visited root tree = ((events tree root []).*1, None) ∧
  Forall (λ ev : event, ev.2 = None) (events tree root []).
Proof.
  intros Hl. pose proof (proj1 (listable_events tree root []) Hl) as Hev.
  split; [|done]. rewrite visited_events. f_equal.
  - by apply ok_prefix_all.
  - by apply first_error_None.
Qed.

Lemma visited_unlistable (root : string) (tree : node) :
  listable tree = false → (visited root tree).2 = Some ErrReadDir.
Proof.
  intros Hl. destruct (visited root tree).2 as [e|] eqn:He.
  - by rewrite (visited_error _ _ _ He).
  - apply listable_visited in He. congruence.
Qed.

(** The nodes of a listable tree are listable. *)
Lemma events_nodes_listable (info : node) : ∀ path rel,
  listable info = true →
  Forall (λ ev : event, listable ev.1.2 = true) (events info path rel).
Proof.
  induction info as [sz c|sz|sz es IH] using node_ind2; intros path rel Hl.
  - by repeat constructor.
  - done.
  - cbn [events]. constructor; [done|].
    rewrite (sort_entries_map events).
    apply events_names_forall, Forall_map. rewrite sort_entries_perm.
    cbn [listable] in Hl. rewrite List.forallb_forall in Hl.
    rewrite Forall_forall in IH. apply Forall_forall. intros e He. simpl.
    apply IH; [done|]. by apply Hl, list_elem_of_In.
Qed.

(** *** The directory and the size report *)


Lemma getLargestFiles_walk (imagePath : string) (tree : node) :
  Walk getLargestFilesFn imagePath tree []
  = (file_entry <$> visited_files imagePath tree, (visited imagePath tree).2).
Proof.
  rewrite (Walk_passive getLargestFilesFn
             (λ v s, if IsDir v.2 then s else s ++ [file_entry v])).
  - f_equal. unfold visited_files.
    assert (∀ vs acc,
      foldl (λ s (v : visit), if IsDir v.2 then s else s ++ [file_entry v]) acc vs
      = acc ++ (file_entry <$> List.filter is_file vs)) as H.
    { induction vs as [|v vs IH]; intros acc; simpl; [by rewrite app_nil_r|].
      unfold is_file at 1. destruct (IsDir v.2); simpl; [apply IH|].
      by rewrite IH, <-app_assoc. }
    apply (H _ []).
  - intros path rel info s. unfold getLargestFilesFn, file_entry, rel_path. simpl.
    by destruct (IsDir info).
  - done.
Qed.

Lemma getTopDirectoriesFn_checked path rel info s :
  getTopDirectoriesFn path rel info None s
  = (subdir_step (path, rel, info) s, subdir_check (path, rel, info)).
Proof.
  unfold getTopDirectoriesFn, subdir_step, subdir_check, dir_entry, rel_path. simpl.
  destruct (bool_decide (rel = []) || negb (IsDir info)); [done|].
  by destruct (getDirSize path info) as [size [e|]].
Qed.

Lemma subdir_step_listable (vs : list visit) : ∀ acc,
  Forall (λ v : visit, listable v.2 = true) vs →
  foldl (λ s v, subdir_step v s) acc vs
  = acc ++ (dir_entry <$> List.filter (λ v, non_root v && is_dir v) vs).
Proof.
  induction vs as [|v vs IH]; intros acc Hvs; simpl; [by rewrite app_nil_r|].
  apply Forall_cons in Hvs as [Hv Hvs].
  unfold subdir_step at 2, non_root at 1, is_dir at 1.
  destruct (bool_decide (v.1.2 = [])); simpl; [by apply IH|].
  destruct (IsDir v.2); simpl; [|by apply IH].
  rewrite getDirSize_visited. simpl.
  rewrite (proj1 (listable_visited v.1.1 v.2) Hv).
  rewrite IH by done. by rewrite <-app_assoc.
Qed.

Lemma subdir_check_listable (v : visit) :
  listable v.2 = true → subdir_check v = None.
Proof.
  intros Hv. unfold subdir_check. destruct (_ || _); [done|].
  rewrite getDirSize_visited. simpl. by apply listable_visited.
Qed.

Lemma getTopDirectories_walk (imagePath : string) (tree : node) :
  (listable tree = true →
   Walk getTopDirectoriesFn imagePath tree []
   = (dir_entry <$> visited_subdirs imagePath tree, None)) ∧
  (listable tree = false →
   (Walk getTopDirectoriesFn imagePath tree []).2 = Some ErrReadDir).
Proof.
  rewrite Walk_events. split; intros Hl.
  - destruct (visited_listable imagePath tree Hl) as [Hv Hev].
    pose proof (events_nodes_listable tree imagePath [] Hl) as Hnodes.
    rewrite (run_checked_ok _ subdir_step subdir_check getTopDirectoriesFn_checked).
    + unfold visited_subdirs. rewrite Hv. simpl.
      rewrite subdir_step_listable; [done|].
      apply Forall_fmap. eapply Forall_impl; [exact Hnodes|]. done.
    + done.
    + rewrite first_error_checked_listable by done.
      destruct (List.find _ _) as [v|] eqn:Hfind; [|done].
      apply List.find_some in Hfind as [Hin _].
      apply subdir_check_listable.
      apply list_elem_of_In, list_elem_of_fmap in Hin as ([v' e] & -> & Hin).
      rewrite Forall_forall in Hnodes. apply (Hnodes _ Hin).
  - rewrite (run_checked_error _ subdir_step subdir_check getTopDirectoriesFn_checked)
      by done.
    assert (Forall (λ ev : event, ev.2 = None ∨ ev.2 = Some ErrReadDir)
              (checked subdir_check (events tree imagePath []))) as Hall.
    { unfold checked. apply Forall_fmap.
      eapply Forall_impl; [apply events_errors|]. intros [v [e|]] Hev; simpl in *.
      - done.
      - unfold subdir_check. destruct (_ || _); [by left|].
        rewrite getDirSize_visited. simpl.
        destruct (visited v.1.1 v.2).2 as [e|] eqn:He; [|by left].
        right. by rewrite (visited_error _ _ _ He). }
    destruct (first_error (checked subdir_check (events tree imagePath []))) as [e|] eqn:He.
    + by rewrite (first_error_ReadDir _ _ Hall He).
    + exfalso. revert He. apply first_error_checked_unlistable.
      pose proof (visited_unlistable imagePath tree Hl) as Hv.
      rewrite visited_events in Hv. simpl in Hv. by rewrite Hv.
Qed.



(** ** The largest files and directories *)

Lemma non_increasing_global {B : Type} (size : B → Z) (l : list B) :
  non_increasing size l →
  ∀ i j x y, i ≤ j → l !! i = Some x → l !! j = Some y → (size y ≤ size x)%Z.
Proof.
  intros Hl i j x y Hij Hx Hy.
  remember (j - i) as d eqn:Hd. revert j y Hij Hy Hd.
  induction d as [|d IH]; intros j y Hij Hy Hd.
  - assert (j = i) as -> by lia. rewrite Hx in Hy. injection Hy as ->. lia.
  - destruct j as [|j]; [lia|].
    assert (is_Some (l !! j)) as [z Hz].
    { apply lookup_lt_is_Some. apply lookup_lt_Some in Hy. lia. }
    specialize (IH j z ltac:(lia) Hz ltac:(lia)).
    pose proof (Hl j z y Hz Hy). lia.
Qed.

Lemma top_length {B : Type} (count : Z) (l : list B) :
  length (top count l)
  = if bool_decide (0 < count ∧ count < Z.of_nat (length l))%Z
    then Z.to_nat count else length l.
Proof.
  unfold top. case_bool_decide; [|done]. rewrite length_take. lia.
Qed.

(** The first [count] entries of a sequence sorted by non-increasing
    size: a selection of [count] entries (all of them when [count] is
    not positive or not smaller than their number) such that no entry
    left out is larger than a selected one. *)
Lemma top_selects_largest {B : Type} (size : B → Z) (count : Z) (all sorted : list B) :
  sorted ≡ₚ all → non_increasing size sorted →
  length (top count sorted)
    = (if bool_decide (0 < count ∧ count < Z.of_nat (length all))%Z
       then Z.to_nat count else length all) ∧
  ∃ rest, top count sorted ++ rest ≡ₚ all ∧
    ∀ x y, x ∈ top count sorted → y ∈ rest → (size y ≤ size x)%Z.
Proof.
  intros Hp Hs. split.
  - rewrite top_length. by rewrite (Permutation_length Hp).
  - unfold top. case_bool_decide as Hc.
    + exists (drop (Z.to_nat count) sorted). split.
      * by rewrite take_drop.
      * intros x y [i Hx]%list_elem_of_lookup [j Hy]%list_elem_of_lookup.
        apply lookup_take_Some in Hx as [Hx Hi].
        rewrite lookup_drop in Hy.
        apply (non_increasing_global size sorted Hs i (Z.to_nat count + j)); [lia|done|done].
    + exists []. split; [by rewrite app_nil_r|]. intros x y _ Hy. by apply elem_of_nil in Hy.
Qed.

(** X5. When [getLargestFiles] succeeds, it returns [count] of the
    regular files the walk visited, each with its relative path and its
    size ([all] of them when [count] is zero, negative, or not smaller
    than their number), and no file left out is larger than a file
    returned. *)
Theorem largest_files_are_largest
    (imagePath : string) (tree : node) (count : Z) (largest : list FileSize.t) :
  getLargestFiles imagePath tree count = (Some largest, None) →
  let all := file_entry <$> visited_files imagePath tree in
  length largest
    = (if bool_decide (0 < count ∧ count < Z.of_nat (length all))%Z
       then Z.to_nat count else length all) ∧
  ∃ rest, largest ++ rest ≡ₚ all ∧
    ∀ x y, x ∈ largest → y ∈ rest → (FileSize.Size y ≤ FileSize.Size x)%Z.
Proof.
  unfold getLargestFiles. rewrite getLargestFiles_walk.
  destruct (visited imagePath tree).2 as [e|]; [done|].
  cbv zeta. intros [= <-].
  destruct (Slice_descending FileSize.Size (file_entry <$> visited_files imagePath tree))
    as (Hp & Hs & _).
  by apply top_selects_largest.
Qed.

Lemma largest_files_are_largest_witness :
  let largest := [FileSize.mk "app/data.bin" 2048; FileSize.mk "app/main.py" 26] in
  let all := file_entry <$> visited_files "/img" sample_tree in
  length largest
    = (if bool_decide (0 < 2 ∧ 2 < Z.of_nat (length all))%Z
       then Z.to_nat 2 else length all) ∧
  ∃ rest, largest ++ rest ≡ₚ all ∧
    ∀ x y, x ∈ largest → y ∈ rest → (FileSize.Size y ≤ FileSize.Size x)%Z.
Proof.
  apply (largest_files_are_largest "/img" sample_tree 2).
  vm_compute. reflexivity.
Defined.

Lemma GetTopDirectories_listable imagePath tree count dirs :
  GetTopDirectories imagePath tree count = (Some dirs, None) →
  listable tree = true ∧
  dirs = top count (sort.Slice (λ x y, (DirectoryInfo.Size y <? DirectoryInfo.Size x)%Z)
                      (dir_entry <$> visited_subdirs imagePath tree)).
Proof.
  unfold GetTopDirectories.
  destruct (getTopDirectories_walk imagePath tree) as [Hyes Hno].
  destruct (listable tree).
  - rewrite Hyes by done. cbv zeta. by intros [= <-].
  - specialize (Hno eq_refl).
    destruct (Walk getTopDirectoriesFn imagePath tree []) as [ds [e|]]; [done|].
    simpl in Hno. done.
Qed.

(** X6. When [GetTopDirectories] succeeds, it returns [count] of the
    directories below the root ([all] of them when [count] is zero,
    negative, or not smaller than their number), and no directory left
    out is larger than one returned. The size of a directory is the sum,
    reduced to [int64], of the sizes of the regular files in it and below
    it; the entry carries no counts and no lists. *)
Theorem top_directories_are_largest
    (imagePath : string) (tree : node) (count : Z) (dirs : list DirectoryInfo.t) :
  GetTopDirectories imagePath tree count = (Some dirs, None) →
  let all := dir_entry <$> visited_subdirs imagePath tree in
  length dirs
    = (if bool_decide (0 < count ∧ count < Z.of_nat (length all))%Z
       then Z.to_nat count else length all) ∧
  (∃ rest, dirs ++ rest ≡ₚ all ∧
     ∀ x y, x ∈ dirs → y ∈ rest → (DirectoryInfo.Size y ≤ DirectoryInfo.Size x)%Z) ∧
  (∀ d, d ∈ dirs → ∃ v, v ∈ visited_subdirs imagePath tree ∧
     d = DirectoryInfo.mk (rel_path v)
           (wrap64 (sum_sizes (file_sizes (visited v.1.1 v.2).1))) 0 0 None ∅ None).
Proof.
  intros [Hl ->]%GetTopDirectories_listable. cbv zeta.
  destruct (Slice_descending DirectoryInfo.Size (dir_entry <$> visited_subdirs imagePath tree))
    as (Hp & Hs & _).
  destruct (top_selects_largest DirectoryInfo.Size count _ _ Hp Hs) as [Hlen Hrest].
  split; [exact Hlen|]. split; [exact Hrest|].
  intros d Hd.
  assert (d ∈ dir_entry <$> visited_subdirs imagePath tree) as Hin.
  { rewrite <-Hp. unfold top in Hd. case_bool_decide; [|done].
    apply list_elem_of_lookup in Hd as [i Hi]. apply lookup_take_Some in Hi as [Hi _].
    by eapply list_elem_of_lookup_2. }
  apply list_elem_of_fmap in Hin as (v & -> & Hv).
  exists v. split; [done|]. unfold dir_entry. by rewrite getDirSize_visited.
Qed.

Lemma top_directories_are_largest_witness :
  let dirs := [DirectoryInfo.mk "app" 2088 0 0 None ∅ None] in
  let all := dir_entry <$> visited_subdirs "/img" sample_tree in
  length dirs
    = (if bool_decide (0 < 1 ∧ 1 < Z.of_nat (length all))%Z
       then Z.to_nat 1 else length all) ∧
  (∃ rest, dirs ++ rest ≡ₚ all ∧
     ∀ x y, x ∈ dirs → y ∈ rest → (DirectoryInfo.Size y ≤ DirectoryInfo.Size x)%Z) ∧
  (∀ d, d ∈ dirs → ∃ v, v ∈ visited_subdirs "/img" sample_tree ∧
     d = DirectoryInfo.mk (rel_path v)
           (wrap64 (sum_sizes (file_sizes (visited v.1.1 v.2).1))) 0 0 None ∅ None).
Proof.
  apply (top_directories_are_largest "/img" sample_tree 1).
  vm_compute. reflexivity.
Defined.

(** ** The security analyzer *)

Lemma scan_error (ps : list string) :
  (bufio.scan ps).2
  = if existsb (λ p, (bufio.MaxScanTokenSize <=? String.length p)%nat) ps
    then Some ErrTooLong else None.
Proof.
  induction ps as [|p ps IH]; cbn [bufio.scan existsb]; [done|].
  destruct (bufio.MaxScanTokenSize <=? String.length p)%nat; [done|].
  cbn [orb]. rewrite <-IH. by destruct (bufio.scan ps).
Qed.

Lemma secret_check_long (v : visit) :
  secret_check v = if scanned v && has_long_line v then Some ErrTooLong else None.
Proof.
  unfold secret_check, has_long_line. destruct (scanned v); [|done]. cbn [andb].
  destruct (content_of v.2) as [data|]; [|done].
  unfold bufio.ScanLines. apply scan_error.
Qed.

Lemma findHardcodedSecretsFn_checked path rel info issues :
  findHardcodedSecretsFn path rel info None issues
  = (issues ++ file_secrets (path, rel, info), secret_check (path, rel, info)).
Proof.
  unfold findHardcodedSecretsFn, file_secrets, secret_check, scanned, rel_path.
  cbn [fst snd].
  destruct (IsDir info); cbn [orb andb negb]; [by rewrite app_nil_r|].
  destruct (isBinaryFile path (content_of info)); cbn [negb]; [by rewrite app_nil_r|].
  destruct (content_of info) as [data|]; [|by rewrite app_nil_r].
  destruct (bufio.ScanLines data) as [lines e]. cbn [fst snd].
  by rewrite scanSecrets_lines.
Qed.

Lemma foldl_append_findings {B : Type} (f : B → list SecurityIssue.t) (l : list B) :
  ∀ acc, foldl (λ s v, s ++ f v) acc l = acc ++ flat_map f l.
Proof.
  induction l as [|x l IH]; intros acc; simpl; [by rewrite app_nil_r|].
  by rewrite IH, <-app_assoc.
Qed.

Lemma flat_map_files {B : Type} (f : visit → list B) (vs : list visit) :
  flat_map (λ v, if IsDir v.2 then [] else f v) vs = flat_map f (List.filter is_file vs).
Proof.
  induction vs as [|v vs IH]; simpl; [done|].
  unfold is_file at 1. destruct (IsDir v.2); simpl; by rewrite IH.
Qed.

Lemma findSensitiveFiles_visited (imagePath : string) (tree : node) :
  findSensitiveFiles imagePath tree
  = (flat_map (λ v, sensitive_findings (rel_path v)) (visited_files imagePath tree),
     (visited imagePath tree).2).
Proof.
  unfold findSensitiveFiles.
  rewrite (Walk_passive findSensitiveFilesFn
             (λ v s, s ++ if IsDir v.2 then [] else sensitive_findings (rel_path v))).
  - f_equal. rewrite (foldl_append_findings
      (λ v : visit, if IsDir v.2 then [] else sensitive_findings (rel_path v))).
    apply flat_map_files.
  - intros path rel info s. unfold findSensitiveFilesFn, rel_path. cbn [fst snd].
    destruct (IsDir info); [by rewrite app_nil_r|].
    by rewrite matchSensitive_find.
  - done.
Qed.

Lemma first_error_checked_None (check : visit → option error) (evs : list event) :
  first_error (checked check evs) = None → Forall (λ ev : event, ev.2 = None) evs.
Proof.
  intros H. apply first_error_None.
  destruct (first_error evs) eqn:He; [|done].
  exfalso. revert H. apply first_error_checked_unlistable. by rewrite He.
Qed.

Lemma first_error_checked_flag (check : visit → option error) (flag : visit → bool)
    (e0 : error) (evs : list event) :
  (∀ v, check v = if flag v then Some e0 else None) →
  Forall (λ ev : event, ev.2 = None) evs →
  first_error (checked check evs) = if existsb flag evs.*1 then Some e0 else None.
Proof.
  intros Hc. induction 1 as [|[v e] evs Hev _ IH]; [done|]. simpl in Hev. subst e.
  cbn [checked fmap list_fmap first_error existsb fst snd] in *.
  rewrite Hc. destruct (flag v); [done|]. apply IH.
Qed.

Lemma findHardcodedSecrets_error (imagePath : string) (tree : node) :
  listable tree = true →
  (findHardcodedSecrets imagePath tree).2
  = if existsb (λ v, scanned v && has_long_line v) (visited imagePath tree).1
    then Some ErrTooLong else None.
Proof.
  intros Hl. unfold findHardcodedSecrets. rewrite Walk_events.
  rewrite (run_checked_error _ (λ v s, s ++ file_secrets v) secret_check
             findHardcodedSecretsFn_checked) by done.
  destruct (visited_listable imagePath tree Hl) as [Hv Hev]. rewrite Hv. cbn [fst].
  by apply first_error_checked_flag; [apply secret_check_long|].
Qed.

Lemma findHardcodedSecrets_visited (imagePath : string) (tree : node)
    (issues : list SecurityIssue.t) :
  findHardcodedSecrets imagePath tree = (issues, None) →
  issues = flat_map file_secrets (visited imagePath tree).1.
Proof.
  unfold findHardcodedSecrets. rewrite Walk_events. intros Hrun.
  pose proof (run_checked_error _ (λ v s, s ++ file_secrets v) secret_check
                findHardcodedSecretsFn_checked ltac:(done)
                (events tree imagePath []) []) as Herr.
  rewrite Hrun in Herr. cbn [snd] in Herr. symmetry in Herr.
  rewrite (run_checked_ok _ (λ v s, s ++ file_secrets v) secret_check
             findHardcodedSecretsFn_checked) in Hrun by done.
  injection Hrun as <-.
  apply first_error_checked_None in Herr.
  rewrite visited_events. cbn [fst]. rewrite (ok_prefix_all _ Herr).
  by rewrite (foldl_append_findings file_secrets).
Qed.

Section Security.
Variable json_Unmarshal : string → option packageJSON.
Variable range_order : gmap string string → list (string * string).

Lemma checkPackageFiles_app pfs baseName rel content : ∀ issues,
  checkPackageFiles pfs baseName rel content issues
  = issues ++ checkPackageFiles pfs baseName rel content [].
Proof.
  induction pfs as [|pf pfs IH]; intros issues; cbn [checkPackageFiles].
  - by rewrite app_nil_r.
  - destruct (decide (baseName = pf.1)); [|apply IH].
    destruct (pf.2 content) as [pkgIssues|]; [|by rewrite app_nil_r].
    rewrite IH, (IH ([] ++ _)). by rewrite app_assoc.
Qed.

(** The findings of the package check in one visited file. *)
Lemma findVulnerablePackages_visited (imagePath : string) (tree : node) :
  findVulnerablePackages json_Unmarshal range_order imagePath tree
  = (flat_map (λ v : visit,
        checkPackageFiles (packageFiles json_Unmarshal range_order)
          (filepath.Base v.1.1) v.1.2 (content_of v.2) [])
       (visited_files imagePath tree),
     (visited imagePath tree).2).
Proof.
  unfold findVulnerablePackages.
  rewrite (Walk_passive (findVulnerablePackagesFn json_Unmarshal range_order)
             (λ v s, s ++ if IsDir v.2 then []
                          else checkPackageFiles (packageFiles json_Unmarshal range_order)
                                 (filepath.Base v.1.1) v.1.2 (content_of v.2) [])).
  - f_equal. rewrite (foldl_append_findings
      (λ v : visit, if IsDir v.2 then []
                    else checkPackageFiles (packageFiles json_Unmarshal range_order)
                           (filepath.Base v.1.1) v.1.2 (content_of v.2) [])).
    apply flat_map_files.
  - intros path rel info s. unfold findVulnerablePackagesFn. cbn [fst snd].
    destruct (IsDir info); [by rewrite app_nil_r|].
    by rewrite checkPackageFiles_app.
  - done.
Qed.

(** X7. The security analyzer returns a report exactly when it returns
    no error. On a tree with a directory that cannot be listed it fails
    with the error of that directory, whatever the files hold. Whenever
    it returns a report, every directory of the tree could be listed and
    no scanned file (a regular file that is not taken for a binary) has
    a line of 64 KiB or more: one such line anywhere in the image leaves
    the image without a security report. *)
Theorem security_analysis_errors (imagePath : string) (tree : node) :
  (listable tree = false →
   AnalyzeSecurity json_Unmarshal range_order imagePath tree = (None, Some ErrReadDir)) ∧
  (is_Some (AnalyzeSecurity json_Unmarshal range_order imagePath tree).1 →
   listable tree = true ∧
   existsb (λ v, scanned v && has_long_line v) (visited imagePath tree).1 = false) ∧
  (is_Some (AnalyzeSecurity json_Unmarshal range_order imagePath tree).1
   ↔ (AnalyzeSecurity json_Unmarshal range_order imagePath tree).2 = None).
Proof.
  unfold AnalyzeSecurity.
  rewrite findSensitiveFiles_visited, findVulnerablePackages_visited.
  destruct (listable tree) eqn:Hl.
  - rewrite (proj1 (listable_visited imagePath tree) Hl).
    pose proof (findHardcodedSecrets_error imagePath tree Hl) as Hs.
    destruct (findHardcodedSecrets imagePath tree) as [secrets [e|]]; cbn [snd] in *.
    + split; [done|]. split; [by intros [??]|]. split; [by intros [??]|done].
    + split; [done|]. destruct (existsb _ _); [done|].
      split; [done|]. split; [done|by eauto].
  - rewrite (visited_unlistable imagePath tree Hl).
    split; [done|]. split; [by intros [??]|]. split; [by intros [??]|done].
Qed.

End Security.

(** ** The findings of the security analyzer *)

Lemma sensitive_findings_elem (relPath : string) (i : SecurityIssue.t) :
  i ∈ sensitive_findings relPath →
  ∃ p, p ∈ sensitivePatterns ∧ matches_path relPath p = true ∧
       i = sensitive_issue relPath p.
Proof.
  unfold sensitive_findings.
  destruct (list_find _ _) as [[n p]|] eqn:Hf; [|by intros ?%elem_of_nil].
  intros ->%list_elem_of_singleton.
  apply list_find_Some in Hf as (Hp & Hm & _).
  exists p. split; [by eapply list_elem_of_lookup_2|done].
Qed.

Lemma sensitive_findings_none (relPath : string) :
  sensitive_findings relPath = [] ↔
  ∀ p, p ∈ sensitivePatterns →
       strings.Contains (strings.ToLower relPath) (sp_pattern p) = false.
Proof.
  unfold sensitive_findings.
  destruct (list_find _ _) as [[n p]|] eqn:Hf.
  - split; [done|]. intros H.
    apply list_find_Some in Hf as (Hp & Hm & _).
    apply list_elem_of_lookup_2 in Hp. specialize (H p Hp).
    unfold matches_path in Hm. congruence.
  - split; [|done]. intros _ p Hp.
    apply list_find_None in Hf. rewrite Forall_forall in Hf.
    specialize (Hf p Hp). unfold matches_path in Hf. by apply not_true_is_false.
Qed.

Lemma sensitivePatterns_severity :
  Forall (λ p, sp_severity p = "HIGH" ∨ sp_severity p = "MEDIUM") sensitivePatterns.
Proof.
  apply Forall_forall. intros p Hp. unfold sensitivePatterns in Hp.
  repeat (apply elem_of_cons in Hp as [->|Hp]; [simpl; auto|]).
  by apply elem_of_nil in Hp.
Qed.

Lemma secretPatterns_severity :
  Forall (λ p, sc_severity p = "HIGH") secretPatterns.
Proof.
  apply Forall_forall. intros p Hp. unfold secretPatterns in Hp.
  repeat (apply elem_of_cons in Hp as [->|Hp]; [done|]).
  by apply elem_of_nil in Hp.
Qed.

(** X8. The sensitive-file check reports, in the order of the walk, one
    finding for every visited regular file whose lower-cased relative
    path contains a pattern of the table, with the description and the
    severity of the first such pattern and the path as it is spelled;
    files that contain no pattern and directories give no finding. *)
Theorem sensitive_files_findings (imagePath : string) (tree : node) :
  findSensitiveFiles imagePath tree
    = (flat_map (λ v, sensitive_findings (rel_path v)) (visited_files imagePath tree),
       (visited imagePath tree).2) ∧
  (∀ relPath, length (sensitive_findings relPath) ≤ 1) ∧
  (∀ relPath i, i ∈ sensitive_findings relPath →
     ∃ n p, sensitivePatterns !! n = Some p ∧
       strings.Contains (strings.ToLower relPath) (sp_pattern p) = true ∧
       (∀ m q, sensitivePatterns !! m = Some q → m < n →
          strings.Contains (strings.ToLower relPath) (sp_pattern q) = false) ∧
       i = SecurityIssue.mk "SENSITIVE_FILE" relPath (sp_desc p) (sp_severity p)) ∧
  (∀ relPath, sensitive_findings relPath = [] ↔
     ∀ p, p ∈ sensitivePatterns →
          strings.Contains (strings.ToLower relPath) (sp_pattern p) = false).
Proof.
  split; [apply findSensitiveFiles_visited|]. split; [|split].
  - intros relPath. unfold sensitive_findings.
    destruct (list_find _ _) as [[??]|]; simpl; lia.
  - intros relPath i. unfold sensitive_findings.
    destruct (list_find _ _) as [[n p]|] eqn:Hf; [|by intros ?%elem_of_nil].
    intros ->%list_elem_of_singleton.
    apply list_find_Some in Hf as (Hp & Hm & Hbefore).
    exists n, p. split; [done|]. split; [done|]. split; [|done].
    intros m q Hq Hlt. specialize (Hbefore m q Hq Hlt).
    unfold matches_path in Hbefore. by apply not_true_is_false.
  - apply sensitive_findings_none.
Qed.

Lemma line_findings_elem (relPath : string) (lineNum : nat) (line : string)
    (i : SecurityIssue.t) :
  i ∈ line_findings relPath lineNum line →
  ∃ p, p ∈ secretPatterns ∧ regexp.MatchString (sc_regex p) line = true ∧
       i = secret_issue relPath lineNum p.
Proof.
  unfold line_findings.
  destruct (List.find _ _) as [p|] eqn:Hf; [|by intros ?%elem_of_nil].
  intros ->%list_elem_of_singleton.
  apply List.find_some in Hf as [Hp Hm].
  exists p. split; [by apply list_elem_of_In|done].
Qed.

Lemma elem_of_concat_imap {B C : Type} (f : nat → B → list C) (l : list B) (x : C) :
  x ∈ concat (imap f l) → ∃ n y, l !! n = Some y ∧ x ∈ f n y.
Proof.
  revert f. induction l as [|y l IH]; intros f; simpl; [by intros ?%elem_of_nil|].
  intros [H|H]%elem_of_app.
  - by exists 0, y.
  - apply IH in H as (n & z & Hn & Hx). by exists (S n), z.
Qed.

(** X9. When the secret scan succeeds, its findings are those of the
    scanned files in the order of the walk. Every finding is for a line
    of a file that is regular, can be opened and is not taken for a
    binary, names the number of that line after the relative path, and
    its pattern matches the line; a directory, a file that
    [isBinaryFile] takes for a binary and a file that cannot be opened
    give no finding. *)
Theorem secret_findings_per_file (imagePath : string) (tree : node)
    (issues : list SecurityIssue.t) :
  findHardcodedSecrets imagePath tree = (issues, None) →
  issues = flat_map file_secrets (visited imagePath tree).1 ∧
  (∀ v i, i ∈ file_secrets v →
     IsDir v.2 = false ∧ isBinaryFile v.1.1 (content_of v.2) = false ∧
     ∃ data n line p,
       content_of v.2 = Some data ∧ (bufio.ScanLines data).1 !! n = Some line ∧
       p ∈ secretPatterns ∧ regexp.MatchString (sc_regex p) line = true ∧
       i = SecurityIssue.mk "HARDCODED_SECRET" (rel_path v +:+ ":" +:+ Itoa (S n))
             (sc_desc p) (sc_severity p)) ∧
  (∀ v, IsDir v.2 = true ∨ isBinaryFile v.1.1 (content_of v.2) = true ∨
        content_of v.2 = None → file_secrets v = []).
Proof.
  intros Hrun. split; [by apply findHardcodedSecrets_visited|]. split.
  - intros v i. unfold file_secrets, scanned.
    destruct (IsDir v.2); cbn [negb andb]; [by intros ?%elem_of_nil|].
    destruct (isBinaryFile v.1.1 (content_of v.2)); cbn [negb]; [by intros ?%elem_of_nil|].
    destruct (content_of v.2) as [data|]; [|by intros ?%elem_of_nil].
    intros (n & line & Hn & Hi)%elem_of_concat_imap.
    apply line_findings_elem in Hi as (p & Hp & Hm & ->).
    split; [done|]. split; [done|]. by exists data, n, line, p.
  - intros v. unfold file_secrets, scanned.
    intros [H|[H|H]]; rewrite H; cbn [negb andb]; try done.
    + by destruct (negb (IsDir v.2)).
    + by destruct (_ && _).
Qed.

Lemma secret_findings_per_file_witness :
  [SecurityIssue.mk "HARDCODED_SECRET" "app/main.py:1" "Hardcoded password" "HIGH"]
    = flat_map file_secrets (visited "/img" sample_tree).1 ∧
  (∀ v i, i ∈ file_secrets v →
     IsDir v.2 = false ∧ isBinaryFile v.1.1 (content_of v.2) = false ∧
     ∃ data n line p,
       content_of v.2 = Some data ∧ (bufio.ScanLines data).1 !! n = Some line ∧
       p ∈ secretPatterns ∧ regexp.MatchString (sc_regex p) line = true ∧
       i = SecurityIssue.mk "HARDCODED_SECRET" (rel_path v +:+ ":" +:+ Itoa (S n))
             (sc_desc p) (sc_severity p)) ∧
  (∀ v, IsDir v.2 = true ∨ isBinaryFile v.1.1 (content_of v.2) = true ∨
        content_of v.2 = None → file_secrets v = []).
Proof.
  apply (secret_findings_per_file "/img" sample_tree).
  vm_compute. reflexivity.
Defined.

Lemma foldl_Forall_issues {B : Type} (P : SecurityIssue.t → Prop)
    (f : list SecurityIssue.t → B → list SecurityIssue.t) (l : list B) :
  (∀ acc x, Forall P acc → Forall P (f acc x)) →
  ∀ acc, Forall P acc → Forall P (foldl f acc l).
Proof. intros Hf. induction l; simpl; auto. Qed.

Lemma vulnPackages_severity (table : gmap string vulnPackage) name vuln :
  table = nodeVulnPackages ∨ table = pythonVulnPackages →
  table !! name = Some vuln → vp_severity vuln = "HIGH" ∨ vp_severity vuln = "MEDIUM".
Proof.
  intros [->| ->] H; apply elem_of_list_to_map_2 in H;
    repeat (apply elem_of_cons in H as [H|H]; [simplify_eq; simpl; auto|]);
    by apply elem_of_nil in H.
Qed.

Lemma checkNodeEntry_vulnerable tag issues e :
  Forall vulnerable_issue issues → Forall vulnerable_issue (checkNodeEntry tag issues e).
Proof.
  unfold checkNodeEntry. intros Hi. destruct e as [name version].
  destruct (nodeVulnPackages !! name) as [vuln|] eqn:Hv; [|done].
  destruct (String.ltb _ _); [|done].
  apply Forall_app; split; [done|]. apply Forall_singleton. split; [done|]. simpl.
  eapply vulnPackages_severity; [by left|done].
Qed.

Lemma checkPythonLine_vulnerable issues line :
  Forall vulnerable_issue issues → Forall vulnerable_issue (checkPythonLine issues line).
Proof.
  unfold checkPythonLine. intros Hi.
  destruct (_ || _); [done|].
  destruct (strings.Split line "==") as [|p0 [|p1 [|??]]]; try done.
  destruct (pythonVulnPackages !! _) as [vuln|] eqn:Hv; [|done].
  destruct (String.ltb _ _); [|done].
  apply Forall_app; split; [done|]. apply Forall_singleton. split; [done|]. simpl.
  eapply vulnPackages_severity; [by right|done].
Qed.

Section Security.
Variable json_Unmarshal : string → option packageJSON.
Variable range_order : gmap string string → list (string * string).

Lemma checkers_vulnerable pf content pkgIssues :
  pf ∈ packageFiles json_Unmarshal range_order →
  pf.2 content = Some pkgIssues →
  pf.1 ∈ manifest_names ∧ Forall vulnerable_issue pkgIssues.
Proof.
  unfold packageFiles, manifest_names. intros Hpf Hc.
  repeat (apply elem_of_cons in Hpf as [->|Hpf]); simpl in *.
  - split; [set_solver|].
    unfold checkNodePackages in Hc. destruct content as [data|]; [|done].
    destruct (json_Unmarshal data) as [pkg|]; [|done]. simplify_eq.
    apply foldl_Forall_issues; [intros; by apply checkNodeEntry_vulnerable|].
    apply foldl_Forall_issues; [intros; by apply checkNodeEntry_vulnerable|]. constructor.
  - split; [set_solver|].
    unfold checkPythonPackages in Hc. destruct content as [data|]; [|done].
    destruct (bufio.ScanLines data) as [lines [e|]]; [done|]. simplify_eq.
    apply foldl_Forall_issues; [intros; by apply checkPythonLine_vulnerable|]. constructor.
  - split; [set_solver|]. unfold checkRubyPackages in Hc. simplify_eq. constructor.
  - split; [set_solver|]. unfold checkGoPackages in Hc. simplify_eq. constructor.
  - by apply elem_of_nil in Hpf.
Qed.

Lemma checkPackageFiles_elem pfs baseName rel content : ∀ issues i,
  (∀ pf, pf ∈ pfs → pf ∈ packageFiles json_Unmarshal range_order) →
  i ∈ checkPackageFiles pfs baseName rel content issues →
  i ∈ issues ∨
  (baseName ∈ manifest_names ∧ SecurityIssue.Path i = Rel rel ∧ vulnerable_issue i).
Proof.
  induction pfs as [|pf pfs IH]; intros issues i Hsub; cbn [checkPackageFiles]; [by left|].
  assert (pf ∈ packageFiles json_Unmarshal range_order) as Hpf by (apply Hsub; left).
  assert (∀ pf, pf ∈ pfs → pf ∈ packageFiles json_Unmarshal range_order) as Hpfs
    by (intros; apply Hsub; by right).
  destruct (decide (baseName = pf.1)) as [->|]; [|by apply IH].
  destruct (pf.2 content) as [pkgIssues|] eqn:Hc; [|by left].
  intros [Hi|Hi]%IH; [|by right|done].
  apply elem_of_app in Hi as [Hi|Hi]; [by left|]. right.
  destruct (checkers_vulnerable pf content pkgIssues Hpf Hc) as [Hname Hall].
  apply list_elem_of_fmap in Hi as (j & -> & Hj).
  rewrite Forall_forall in Hall. specialize (Hall j Hj).
  split; [done|]. split; [done|]. exact Hall.
Qed.

Lemma findVulnerablePackages_elem (imagePath : string) (tree : node) (i : SecurityIssue.t) :
  i ∈ (findVulnerablePackages json_Unmarshal range_order imagePath tree).1 →
  vulnerable_issue i ∧
  ∃ v, v ∈ visited_files imagePath tree ∧
       filepath.Base v.1.1 ∈ manifest_names ∧ SecurityIssue.Path i = rel_path v.
Proof.
  rewrite findVulnerablePackages_visited. cbn [fst].
  intros (v & Hv & Hi)%list_elem_of_In%List.in_flat_map.
  apply list_elem_of_In in Hv, Hi.
  apply checkPackageFiles_elem in Hi as [Hi|(Hname & Hpath & Hvuln)];
    [by apply elem_of_nil in Hi| |done].
  split; [done|]. by exists v.
Qed.

(** X10. Every finding of the package check has the type
    [VULNERABLE_PACKAGE] and a severity of the tables, and its path is
    the relative path of a visited regular file named [package.json],
    [requirements.txt], [Gemfile.lock] or [go.mod]: the path the checker
    wrote, with the name and version of the package, is replaced. *)
Theorem vulnerable_findings_paths (imagePath : string) (tree : node) (i : SecurityIssue.t) :
  i ∈ (findVulnerablePackages json_Unmarshal range_order imagePath tree).1 →
  SecurityIssue.Type_ i = "VULNERABLE_PACKAGE" ∧
  (SecurityIssue.Severity i = "HIGH" ∨ SecurityIssue.Severity i = "MEDIUM") ∧
  ∃ v, v ∈ visited_files imagePath tree ∧
       filepath.Base v.1.1 ∈ manifest_names ∧ SecurityIssue.Path i = rel_path v.
Proof.
  intros [[Htype Hsev] Hv]%findVulnerablePackages_elem. done.
Qed.

Lemma known_issue_counts (issues : list SecurityIssue.t) : ∀ result,
  Forall (λ i, known_issue i = true) issues →
  let counted := foldl countSeverity result issues in
  SecurityResult.LowSeverity counted = SecurityResult.LowSeverity result ∧
  (SecurityResult.HighSeverity counted + SecurityResult.MediumSeverity counted
   = SecurityResult.HighSeverity result + SecurityResult.MediumSeverity result
     + Z.of_nat (length issues))%Z.
Proof.
  induction issues as [|i issues IH]; intros result Hall; simpl; [lia|].
  apply Forall_cons in Hall as [Hi Hall].
  destruct (IH (countSeverity result i) Hall) as [IH1 IH2]. simpl in *.
  rewrite IH1, IH2. clear IH IH1 IH2.
  unfold known_issue in Hi. apply andb_prop in Hi as [_ Hi].
  apply bool_decide_eq_true in Hi.
  unfold countSeverity. simpl.
  apply elem_of_cons in Hi as [Hi|Hi]; [rewrite Hi; simpl; lia|].
  apply elem_of_cons in Hi as [Hi|Hi]; [rewrite Hi; simpl; lia|].
  by apply elem_of_nil in Hi.
Qed.

Lemma countSeverity_Issues (issues : list SecurityIssue.t) : ∀ result,
  SecurityResult.Issues (foldl countSeverity result issues) = SecurityResult.Issues result.
Proof. induction issues as [|i issues IH]; intros result; simpl; [done|]. by rewrite IH. Qed.

Lemma AnalyzeSecurity_known (imagePath : string) (tree : node)
    (result : SecurityResult.t) :
  (AnalyzeSecurity json_Unmarshal range_order imagePath tree).1 = Some result →
  Forall (λ i, known_issue i = true) (SecurityResult.Issues result) ∧
  SecurityResult.LowSeverity result = 0%Z ∧
  (SecurityResult.HighSeverity result + SecurityResult.MediumSeverity result
   = SecurityResult.TotalIssues result)%Z ∧
  SecurityResult.TotalIssues result = Z.of_nat (length (SecurityResult.Issues result)).
Proof.
  unfold AnalyzeSecurity.
  rewrite findSensitiveFiles_visited.
  destruct (visited imagePath tree).2 as [e|] eqn:Hvis; [done|].
  pose proof (findHardcodedSecrets_visited imagePath tree) as Hsec.
  destruct (findHardcodedSecrets imagePath tree) as [secrets [e|]]; [done|].
  specialize (Hsec secrets eq_refl).
  pose proof (findVulnerablePackages_elem imagePath tree) as Hvuln.
  destruct (findVulnerablePackages _ _ imagePath tree) as [vulns [e|]]; [done|].
  cbn [fst] in Hvuln. cbv zeta.
  match goal with |- context [foldl countSeverity _ ?l] => set (issues := l) end.
  intros [= <-]. cbn [SecurityResult.Issues
    SecurityResult.LowSeverity SecurityResult.HighSeverity SecurityResult.MediumSeverity
    SecurityResult.TotalIssues].
  rewrite countSeverity_Issues. cbn [SecurityResult.Issues].
  assert (Forall (λ i, known_issue i = true) issues) as Hknown.
  { unfold issues. rewrite app_nil_l. apply Forall_app. split; [|apply Forall_app; split].
    - apply Forall_forall. intros i (v & Hv & Hi)%list_elem_of_In%List.in_flat_map.
      apply list_elem_of_In, sensitive_findings_elem in Hi as (p & Hp & _ & ->).
      pose proof sensitivePatterns_severity as Hsev. rewrite Forall_forall in Hsev.
      unfold known_issue. simpl.
      destruct (Hsev p Hp) as [-> | ->]; by vm_compute.
    - subst secrets. apply Forall_forall.
      intros i (v & Hv & Hi)%list_elem_of_In%List.in_flat_map.
      apply list_elem_of_In in Hi. unfold file_secrets in Hi.
      destruct (scanned v); [|by apply elem_of_nil in Hi].
      destruct (content_of v.2) as [data|]; [|by apply elem_of_nil in Hi].
      apply elem_of_concat_imap in Hi as (n & line & _ & Hi).
      apply line_findings_elem in Hi as (p & Hp & _ & ->).
      pose proof secretPatterns_severity as Hsev. rewrite Forall_forall in Hsev.
      unfold known_issue. simpl. rewrite (Hsev p Hp). by vm_compute.
    - apply Forall_forall. intros i [[Htype Hsev] _]%Hvuln.
      unfold known_issue. rewrite Htype.
      destruct Hsev as [-> | ->]; by vm_compute. }
  split; [exact Hknown|].
  destruct (known_issue_counts issues (SecurityResult.mk issues 0 0 0 0) Hknown)
    as [Hlow Hsum].
  cbn [SecurityResult.LowSeverity SecurityResult.HighSeverity
       SecurityResult.MediumSeverity] in Hlow, Hsum.
  split; [exact Hlow|]. split; [|done]. rewrite Hsum. lia.
Qed.

(** X11. In every report of the security analyzer each issue has one of
    the three types and the severity HIGH or MEDIUM: the analyzer never
    produces a LOW issue, so the LOW count is zero and the HIGH and
    MEDIUM counts add up to the total. *)
Theorem security_report_severities (imagePath : string) (tree : node)
    (result : SecurityResult.t) :
  (AnalyzeSecurity json_Unmarshal range_order imagePath tree).1 = Some result →
  Forall (λ i, SecurityIssue.Type_ i ∈ ["SENSITIVE_FILE"; "HARDCODED_SECRET";
                                        "VULNERABLE_PACKAGE"] ∧
               SecurityIssue.Severity i ∈ ["HIGH"; "MEDIUM"])
         (SecurityResult.Issues result) ∧
  SecurityResult.LowSeverity result = 0%Z ∧
  (SecurityResult.HighSeverity result + SecurityResult.MediumSeverity result
   = SecurityResult.TotalIssues result)%Z.
Proof.
  intros (Hknown & Hlow & Hsum & _)%AnalyzeSecurity_known.
  split; [|done].
  eapply Forall_impl; [exact Hknown|]. intros i [Ht Hs]%andb_prop.
  by apply bool_decide_eq_true in Ht, Hs.
Qed.

End Security.

Lemma security_report_severities_witness :
  let result :=
    SecurityResult.mk
      [SecurityIssue.mk "SENSITIVE_FILE" "etc/.env"
         "Environment file may contain sensitive information" "HIGH";
       SecurityIssue.mk "HARDCODED_SECRET" "app/main.py:1" "Hardcoded password" "HIGH";
       SecurityIssue.mk "VULNERABLE_PACKAGE" "app/requirements.txt"
         "SQL Injection in Django. Update to >=3.2.14" "HIGH"] 3 3 0 0 in
  Forall (λ i, SecurityIssue.Type_ i ∈ ["SENSITIVE_FILE"; "HARDCODED_SECRET";
                                        "VULNERABLE_PACKAGE"] ∧
               SecurityIssue.Severity i ∈ ["HIGH"; "MEDIUM"])
         (SecurityResult.Issues result) ∧
  SecurityResult.LowSeverity result = 0%Z ∧
  (SecurityResult.HighSeverity result + SecurityResult.MediumSeverity result
   = SecurityResult.TotalIssues result)%Z.
Proof.
  apply (security_report_severities (λ _, None) map_to_list "/img" sample_tree).
  vm_compute. reflexivity.
Defined.

Lemma vulnerable_findings_paths_witness :
  let i := SecurityIssue.mk "VULNERABLE_PACKAGE" "app/requirements.txt"
             "SQL Injection in Django. Update to >=3.2.14" "HIGH" in
  SecurityIssue.Type_ i = "VULNERABLE_PACKAGE" ∧
  (SecurityIssue.Severity i = "HIGH" ∨ SecurityIssue.Severity i = "MEDIUM") ∧
  ∃ v, v ∈ visited_files "/img" sample_tree ∧
       filepath.Base v.1.1 ∈ manifest_names ∧ SecurityIssue.Path i = rel_path v.
Proof.
  apply (vulnerable_findings_paths (λ _, None) map_to_list "/img" sample_tree).
  vm_compute. apply list_elem_of_singleton. reflexivity.
Defined.

(** ** Formatting sizes *)

Lemma round_half_even_exact (n d : Z) : (0 < d)%Z → round_half_even (n * d) d = n.
Proof.
  intros Hd. unfold round_half_even.
  rewrite Z.div_mul, Z.mod_mul by lia.
  destruct (Z.ltb_spec (2 * 0) d); [done|lia].
Qed.

Lemma float64_small (z : Z) : (Z.abs z < 2 ^ 53)%Z → float64_of_int64 z = z.
Proof.
  intros Hz. unfold float64_of_int64.
  destruct (Z.leb_spec (Z.log2 (Z.abs z) - 52) 0) as [|He]; [done|].
  exfalso. destruct (decide (Z.abs z = 0%Z)) as [H0|H0].
  - rewrite H0 in He. simpl in He. lia.
  - assert (Z.log2 (Z.abs z) < 53)%Z by (apply Z.log2_lt_pow2; lia). lia.
Qed.

(** A number with at most 53 significant bits is a float. *)
Lemma float64_shifted (n m : Z) :
  (0 ≤ n < 2 ^ 53)%Z → (0 ≤ m)%Z → float64_of_int64 (n * 2 ^ m) = (n * 2 ^ m)%Z.
Proof.
  intros Hn Hm. unfold float64_of_int64.
  destruct (Z.leb_spec (Z.log2 (Z.abs (n * 2 ^ m)) - 52) 0) as [|He]; [done|].
  assert (0 < 2 ^ m)%Z by (apply Z.pow_pos_nonneg; lia).
  destruct (decide (n = 0%Z)) as [->|Hn0]; [simpl in He; lia|].
  rewrite Z.abs_eq in * by nia.
  rewrite Z.log2_mul_pow2 in * by lia.
  assert (Z.log2 n < 53)%Z by (apply Z.log2_lt_pow2; lia).
  set (e := (m + Z.log2 n - 52)%Z) in *.
  assert (2 ^ m = 2 ^ (m - e) * 2 ^ e)%Z as Hsplit.
  { rewrite <-Z.pow_add_r by lia. f_equal. lia. }
  rewrite Hsplit at 2. rewrite (Z.mul_assoc n), round_half_even_exact
    by (apply Z.pow_pos_nonneg; lia).
  rewrite <-(Z.mul_assoc n), <-Hsplit.
  rewrite Z.sgn_pos by nia. lia.
Qed.

Lemma Sprintf_2f_whole (n d : Z) :
  (0 ≤ n)%Z → (0 < d)%Z → Sprintf_2f (n * d) d = FormatUint n +:+ ".00".
Proof.
  intros Hn Hd. unfold Sprintf_2f.
  rewrite Z.abs_eq by nia.
  rewrite (Z.mul_assoc 100), round_half_even_exact by done.
  destruct (Z.ltb_spec (n * d) 0); [nia|].
  rewrite (Z.mul_comm 100), Z.div_mul, Z.mod_mul by lia.
  reflexivity.
Qed.

Lemma Sprintf_2f_units (n m : Z) :
  (0 ≤ n < 2 ^ 23)%Z → (0 ≤ m)%Z →
  Sprintf_2f (float64_of_int64 (n * 2 ^ m)) (2 ^ m) = FormatUint n +:+ ".00".
Proof.
  intros Hn Hm. rewrite float64_shifted by lia.
  apply Sprintf_2f_whole; [lia|]. apply Z.pow_pos_nonneg; lia.
Qed.

Ltac size_thresholds :=
  unfold TB, GB, MB, KB;
  repeat match goal with
  | |- context [Z.leb ?a ?b] => destruct (Z.leb_spec a b); try lia
  end;
  cbv beta iota.

(** X12. [FormatSize] prints a whole number of units exactly: for
    [n] units of [1024^k] bytes, with [n] below 1024 (any [n] that fits
    for terabytes) and at least one unit above bytes, the text is [n]
    with two zero decimals and the name of the unit. A negative size is
    printed in bytes with its sign. *)
Theorem FormatSize_whole_units (n k : Z) :
  (0 ≤ k ≤ 4)%Z → (0 ≤ n)%Z → (0 < k → 0 < n)%Z →
  (n < if (k <? 4)%Z then 1024 else 2 ^ 23)%Z →
  FormatSize (n * 1024 ^ k) = FormatUint n +:+ ".00 " +:+ unit_name k ∧
  ((0 < n)%Z → FormatSize (- n) = "-" +:+ FormatUint n +:+ ".00 B").
Proof.
  intros Hk Hn Hpos Hlt.
  assert (n < 2 ^ 23)%Z as Hn23 by (destruct (k <? 4)%Z; lia).
  assert (k < 4 → n < 1024)%Z as Hn10 by (destruct (Z.ltb_spec k 4); lia).
  clear Hlt. split.
  - assert (k = 0 ∨ k = 1 ∨ k = 2 ∨ k = 3 ∨ k = 4)%Z as Hcases by lia.
    destruct Hcases as [Hk0 | [Hk0 | [Hk0 | [Hk0 | Hk0]]]]; subst k; unfold FormatSize.
    + change (1024 ^ 0)%Z with (2 ^ 0)%Z. size_thresholds.
      change (Sprintf_2f (float64_of_int64 (n * 2 ^ 0)) 1%Z)
        with (Sprintf_2f (float64_of_int64 (n * 2 ^ 0)) (2 ^ 0)%Z).
      rewrite Sprintf_2f_units by lia.
      by rewrite string_app_assoc.
    + change (1024 ^ 1)%Z with (2 ^ 10)%Z. size_thresholds.
      rewrite Sprintf_2f_units by lia. by rewrite string_app_assoc.
    + change (1024 ^ 2)%Z with (2 ^ 20)%Z. size_thresholds.
      rewrite Sprintf_2f_units by lia. by rewrite string_app_assoc.
    + change (1024 ^ 3)%Z with (2 ^ 30)%Z. size_thresholds.
      rewrite Sprintf_2f_units by lia. by rewrite string_app_assoc.
    + change (1024 ^ 4)%Z with (2 ^ 40)%Z. size_thresholds.
      rewrite Sprintf_2f_units by lia. by rewrite string_app_assoc.
  - intros Hn0. unfold FormatSize. size_thresholds.
    assert (n < 2 ^ 53)%Z as Hn53 by lia.
    rewrite float64_small by (rewrite Z.abs_neq; lia).
    unfold Sprintf_2f. rewrite Z.abs_neq by lia. rewrite Z.opp_involutive.
    destruct (Z.ltb_spec (- n) 0); [|lia].
    rewrite <-(Z.mul_1_r (100 * n)), round_half_even_exact by lia.
    rewrite (Z.mul_comm 100), Z.div_mul, Z.mod_mul by lia.
    change (two_digits 0) with "00". by rewrite !string_app_assoc.
Qed.

Lemma FormatSize_whole_units_witness :
  FormatSize (3 * 1024 ^ 2) = FormatUint 3 +:+ ".00 " +:+ unit_name 2 ∧
  ((0 < 3)%Z → FormatSize (- 3) = "-" +:+ FormatUint 3 +:+ ".00 B").
Proof. apply (FormatSize_whole_units 3 2); [lia|lia|lia|]. vm_compute. reflexivity. Defined.

(** ** Recommendations *)

(** A recommendation other than the fallback one. *)
Lemma specific_snoc (recs : list string) (s : string) :
  Forall (λ r, String.prefix "N" r = false) recs → String.prefix "N" s = false →
  Forall (λ r, String.prefix "N" r = false) (recs ++ [s]).
Proof. intros Hr Hs. apply Forall_app. split; [done|]. by apply Forall_singleton. Qed.

Lemma if_snoc (c : bool) (recs : list string) (r : string) :
  (if c then recs ++ [r] else recs) = recs ++ (if c then [r] else []).
Proof. destruct c; [done|by rewrite app_nil_r]. Qed.

Lemma securityRecommendations_app (s : SecurityResult.t) (recs : list string) :
  securityRecommendations s recs = recs ++ securityRecommendations s [] ∧
  Forall (λ r, String.prefix "N" r = false) (securityRecommendations s []).
Proof.
  unfold securityRecommendations.
  destruct (foldl countIssueType _ _) as [[a b] c].
  rewrite !if_snoc, !app_nil_l, <-!app_assoc. split; [done|].
  repeat (apply Forall_app; split);
    match goal with |- Forall _ (if ?c then _ else _) => destruct c end;
    try constructor; try reflexivity; constructor.
Qed.

Lemma removeExts_app (m : gmap string Z) (exts : list string) : ∀ recs,
  ∃ more,
    foldl (λ recommendations ext,
             match m !! ext with
             | Some size =>
                 if (10 * 1024 * 1024 <? size)%Z then
                   recommendations ++ ["Remove unnecessary " +:+ ext +:+ " files ("
                                       +:+ FormatSize size +:+ ")"]
                 else recommendations
             | None => recommendations
             end) recs exts = recs ++ more ∧
    Forall (λ r, String.prefix "N" r = false) more.
Proof.
  induction exts as [|ext exts IH]; intros recs; cbn [foldl].
  - exists []. by rewrite app_nil_r.
  - destruct (m !! ext) as [size|]; [|apply IH].
    destruct (10 * 1024 * 1024 <? size)%Z; [|apply IH].
    destruct (IH (recs ++ ["Remove unnecessary " +:+ ext +:+ " files ("
                           +:+ FormatSize size +:+ ")"])) as (more & -> & Hmore).
    eexists. rewrite <-app_assoc. split; [done|].
    apply Forall_app. split; [|done]. by apply Forall_singleton.
Qed.

Lemma sizeRecommendations_app (s : SizeInfo.t) (recs : list string) :
  ∃ more, sizeRecommendations s recs = recs ++ more ∧
          Forall (λ r, String.prefix "N" r = false) more.
Proof.
  unfold sizeRecommendations.
  assert (∃ more,
    (if (500 * 1024 * 1024 <? SizeInfo.TotalSize s)%Z
     then foldl (λ recommendations ext,
               match SizeInfo.FileTypeBreakdown s !! ext with
               | Some size =>
                   if (10 * 1024 * 1024 <? size)%Z then
                     recommendations ++ ["Remove unnecessary " +:+ ext +:+ " files ("
                                         +:+ FormatSize size +:+ ")"]
                   else recommendations
               | None => recommendations
               end)
            (match SizeInfo.LargestFiles s with
             | largest :: _ =>
                 if (100 * 1024 * 1024 <? FileSize.Size largest)%Z then
                   (recs ++ ["Consider reducing the image size"])
                     ++ ["Remove or optimize large files (largest: "
                         +:+ FileSize.Path largest +:+ ", "
                         +:+ FormatSize (FileSize.Size largest) +:+ ")"]
                 else recs ++ ["Consider reducing the image size"]
             | [] => recs ++ ["Consider reducing the image size"]
             end) unnecessaryExts
     else recs) = recs ++ more ∧ Forall (λ r, String.prefix "N" r = false) more)
    as (mid & -> & Hmid).
  { destruct (500 * 1024 * 1024 <? SizeInfo.TotalSize s)%Z;
      [|exists []; by rewrite app_nil_r].
    destruct (SizeInfo.LargestFiles s) as [|largest rest].
    - destruct (removeExts_app (SizeInfo.FileTypeBreakdown s) unnecessaryExts
                  (recs ++ ["Consider reducing the image size"])) as (more & -> & Hmore).
      eexists. rewrite <-app_assoc. split; [done|].
      apply Forall_app. split; [by apply Forall_singleton|done].
    - rewrite if_snoc.
      destruct (removeExts_app (SizeInfo.FileTypeBreakdown s) unnecessaryExts
                  ((recs ++ ["Consider reducing the image size"]) ++
                   (if (100 * 1024 * 1024 <? FileSize.Size largest)%Z
                    then ["Remove or optimize large files (largest: "
                          +:+ FileSize.Path largest +:+ ", "
                          +:+ FormatSize (FileSize.Size largest) +:+ ")"]
                    else []))) as (more & -> & Hmore).
      eexists. rewrite <-!app_assoc. split; [done|].
      apply Forall_app. split; [by apply Forall_singleton|].
      apply Forall_app. split; [|done].
      destruct (_ <? _)%Z; [by apply Forall_singleton|constructor]. }
  rewrite if_snoc, <-app_assoc. eexists. split; [done|].
  apply Forall_app. split; [done|].
  destruct (_ <? _)%Z; [by apply Forall_singleton|constructor].
Qed.

Lemma generateRecommendations_cases (result : AnalysisResult) :
  let specific :=
    match SizeInfo_ result with
    | Some s => sizeRecommendations s
    | None => λ recs, recs
    end (match SecurityInfo result with
         | Some s => securityRecommendations s []
         | None => []
         end) in
  Forall (λ r, String.prefix "N" r = false) specific ∧
  generateRecommendations result
  = if decide (length specific = 0) then [no_recommendation] else specific.
Proof.
  cbv zeta. split.
  - destruct (SecurityInfo result) as [sec|].
    + destruct (securityRecommendations_app sec []) as [_ Hsec].
      destruct (SizeInfo_ result) as [sz|]; [|done].
      destruct (sizeRecommendations_app sz (securityRecommendations sec []))
        as (more & -> & Hmore).
      by apply Forall_app.
    + destruct (SizeInfo_ result) as [sz|]; [|constructor].
      by destruct (sizeRecommendations_app sz []) as (more & -> & Hmore).
  - unfold generateRecommendations.
    destruct (SizeInfo_ result) as [sz|], (SecurityInfo result) as [sec|];
      case_decide as Hlen; try done;
      by apply nil_length_inv in Hlen as ->.
Qed.

(** X13. [generateRecommendations] never returns an empty list. The
    sentence [No specific recommendations at this time] is returned
    exactly when no other recommendation applies, and then alone; a
    result without a security and without a size report gets it. *)
Theorem recommendations_never_empty (result : AnalysisResult) :
  generateRecommendations result ≠ [] ∧
  (no_recommendation ∈ generateRecommendations result
   ↔ generateRecommendations result = [no_recommendation]) ∧
  (SecurityInfo result = None → SizeInfo_ result = None →
   generateRecommendations result = [no_recommendation]).
Proof.
  destruct (generateRecommendations_cases result) as [Hspec ->].
  split; [|split].
  - case_decide as Hlen; [done|]. intros Hnil. by rewrite Hnil in Hlen.
  - case_decide as Hlen; [split; [done|by intros; apply list_elem_of_singleton]|].
    split.
    + intros Hin. rewrite Forall_forall in Hspec. by specialize (Hspec _ Hin).
    + intros ->. by apply list_elem_of_singleton.
  - intros -> ->. done.
Qed.

Lemma countIssueType_known (issues : list SecurityIssue.t) : ∀ a b c,
  Forall (λ i, known_issue i = true) issues →
  let '(a', b', c') := foldl countIssueType (a, b, c) issues in
  (a' + b' + c' = a + b + c + Z.of_nat (length issues))%Z ∧
  (a ≤ a' ∧ b ≤ b' ∧ c ≤ c')%Z.
Proof.
  induction issues as [|i issues IH]; intros a b c Hall; [simpl; lia|].
  apply Forall_cons in Hall as [Hi Hall]. cbn [foldl].
  unfold known_issue in Hi. apply andb_prop in Hi as [Hi _].
  apply bool_decide_eq_true in Hi.
  unfold countIssueType at 2.
  repeat apply elem_of_cons in Hi as [Hi|Hi]; try (by apply elem_of_nil in Hi);
    rewrite Hi; simpl;
    match goal with
    | |- context [foldl countIssueType (?x, ?y, ?z) issues] =>
        specialize (IH x y z Hall);
        destruct (foldl countIssueType (x, y, z) issues) as [[a' b'] c']
    end; cbn [length]; lia.
Qed.

Section Security.
Variable json_Unmarshal : string → option packageJSON.
Variable range_order : gmap string string → list (string * string).

(** X14. When the report of [AnalyzeImage] has a security report with
    at least one issue, the recommendations start with the count of
    HIGH issues or, when there is none, with the count of MEDIUM issues,
    and the fallback sentence is not among them; the three counts by type
    that the recommendations use add up to the total of the report. *)
Theorem findings_give_recommendations (now : Z) (imagePath : string) (tree : node)
    (verbose : bool) (s : SecurityResult.t) :
  let result := AnalyzeImage json_Unmarshal range_order now imagePath tree verbose in
  SecurityInfo result = Some s → SecurityResult.Issues s ≠ [] →
  (no_recommendation ∉ generateRecommendations result) ∧
  head (generateRecommendations result)
    = Some (if (0 <? SecurityResult.HighSeverity s)%Z
            then "Address " +:+ Sprintf_d (SecurityResult.HighSeverity s)
                 +:+ " high severity security issues"
            else "Review " +:+ Sprintf_d (SecurityResult.MediumSeverity s)
                 +:+ " medium severity security issues") ∧
  (let '(sensitiveFiles, hardcodedSecrets, vulnPackages) :=
     foldl countIssueType (0, 0, 0)%Z (SecurityResult.Issues s) in
   sensitiveFiles + hardcodedSecrets + vulnPackages = SecurityResult.TotalIssues s)%Z.
Proof.
  cbv zeta. intros Hsec Hissues.
  destruct (AnalyzeImage_sub_reports json_Unmarshal range_order now imagePath tree verbose)
    as (_ & _ & Hs & _). cbv zeta in Hs. rewrite Hsec in Hs.
  assert ((AnalyzeSecurity json_Unmarshal range_order imagePath tree).1 = Some s) as Hrun.
  { destruct (AnalyzeSecurity _ _ _ _) as [r [e|]]; simpl in *; [done|]. by rewrite Hs. }
  destruct (AnalyzeSecurity_known _ _ _ _ _ Hrun) as (Hknown & Hlow & Hsum & Htotal).
  assert (0 < Z.of_nat (length (SecurityResult.Issues s)))%Z as Hpos.
  { destruct (SecurityResult.Issues s); [done|]. simpl. lia. }
  pose proof (countIssueType_known (SecurityResult.Issues s) 0 0 0 Hknown) as Hcount.
  destruct (generateRecommendations_cases
              (AnalyzeImage json_Unmarshal range_order now imagePath tree verbose))
    as [Hspec Hgen].
  rewrite Hgen. clear Hgen. rewrite Hsec in *.
  set (secrecs := securityRecommendations s []) in *.
  assert (∃ rest, secrecs
            = (if (0 <? SecurityResult.HighSeverity s)%Z
               then "Address " +:+ Sprintf_d (SecurityResult.HighSeverity s)
                    +:+ " high severity security issues"
               else "Review " +:+ Sprintf_d (SecurityResult.MediumSeverity s)
                    +:+ " medium severity security issues") :: rest) as [rest Hrest].
  { unfold secrecs, securityRecommendations.
    destruct (foldl countIssueType _ _) as [[a b] c].
    rewrite !if_snoc, !app_nil_l.
    destruct (Z.ltb_spec 0 (SecurityResult.HighSeverity s)) as [Hh|Hh]; cbn [app].
    - eauto.
    - destruct (Z.ltb_spec 0 (SecurityResult.MediumSeverity s)) as [Hm|Hm]; [|lia].
      cbn [app]. eauto. }
  assert (∃ rest', match SizeInfo_ (AnalyzeImage json_Unmarshal range_order now imagePath
                                      tree verbose) with
                   | Some sz => sizeRecommendations sz
                   | None => λ recs, recs
                   end secrecs
            = (if (0 <? SecurityResult.HighSeverity s)%Z
               then "Address " +:+ Sprintf_d (SecurityResult.HighSeverity s)
                    +:+ " high severity security issues"
               else "Review " +:+ Sprintf_d (SecurityResult.MediumSeverity s)
                    +:+ " medium severity security issues") :: rest') as [rest' Hall].
  { destruct (SizeInfo_ _) as [sz|]; [|by eauto].
    destruct (sizeRecommendations_app sz secrecs) as (more & -> & _).
    rewrite Hrest. cbn [app]. eauto. }
  rewrite Hall in *. rewrite decide_False by done.
  split; [|split].
  - intros Hin. rewrite Forall_forall in Hspec. by specialize (Hspec _ Hin).
  - done.
  - destruct (foldl countIssueType _ _) as [[a b] c]. lia.
Qed.

End Security.

Lemma findings_give_recommendations_witness :
  let result := AnalyzeImage (λ _, None) map_to_list 0 "/img" sample_tree false in
  let s := default (SecurityResult.mk [] 0 0 0 0) (SecurityInfo result) in
  (no_recommendation ∉ generateRecommendations result) ∧
  head (generateRecommendations result)
    = Some (if (0 <? SecurityResult.HighSeverity s)%Z
            then "Address " +:+ Sprintf_d (SecurityResult.HighSeverity s)
                 +:+ " high severity security issues"
            else "Review " +:+ Sprintf_d (SecurityResult.MediumSeverity s)
                 +:+ " medium severity security issues") ∧
  (let '(sensitiveFiles, hardcodedSecrets, vulnPackages) :=
     foldl countIssueType (0, 0, 0)%Z (SecurityResult.Issues s) in
   sensitiveFiles + hardcodedSecrets + vulnPackages = SecurityResult.TotalIssues s)%Z.
Proof.
  apply (findings_give_recommendations (λ _, None) map_to_list 0 "/img" sample_tree false).
  - vm_compute. reflexivity.
  - vm_compute. discriminate.
Defined.

(** ** What extraction changes *)

Lemma effect_refl dest p x : effect dest p x x.
Proof. destruct x as [[| |]|]; simpl; auto. Qed.

Lemma effect_trans dest p x y z :
  effect dest p x y → effect dest p y z → effect dest p x z.
Proof.
  unfold effect. destruct x as [[|m d|t]|].
  - intros ->. done.
  - intros [->|[Hp [d' ->]]]; [done|].
    intros [->|[_ [d'' ->]]]; right; eauto.
  - intros ->. done.
  - intros [->|[->|[Hp (m & d & ->)]]]; [done|..].
    + intros ->. auto.
    + intros [->|[_ [d' ->]]]; right; right; eauto.
Qed.

Lemma mkdir_chain_effect dest (ps : list string) : ∀ fs p,
  effect dest p (fs !! p) ((os.mkdir_chain ps fs).1 !! p).
Proof.
  induction ps as [|q ps IH]; intros fs p; cbn [os.mkdir_chain]; [apply effect_refl|].
  destruct (os.implicit_dir q); [apply IH|].
  destruct (fs !! q) as [[| |]|] eqn:Hq; try apply effect_refl; [apply IH|].
  eapply effect_trans; [|apply IH].
  destruct (decide (p = q)) as [->|Hne].
  - rewrite lookup_insert_eq, Hq. simpl. auto.
  - rewrite lookup_insert_ne by done. apply effect_refl.
Qed.

Lemma WriteFile_effect dest name mode body fs fs' p :
  strings.HasPrefix name dest = true →
  os.WriteFile name mode body fs = Some fs' →
  effect dest p (fs !! p) (fs' !! p).
Proof.
  intros Hpre. unfold os.WriteFile.
  destruct (os.implicit_dir name); [done|].
  destruct (fs !! name) as [[|m old|t]|] eqn:Hname; try done.
  - intros [= <-]. destruct (decide (p = name)) as [->|Hne].
    + rewrite lookup_insert_eq, Hname. simpl. right. eauto.
    + rewrite lookup_insert_ne by done. apply effect_refl.
  - destruct (os.IsDir fs (filepath.Dir name)); [|done].
    intros [= <-]. destruct (decide (p = name)) as [->|Hne].
    + rewrite lookup_insert_eq, Hname. simpl. right. right. eauto.
    + rewrite lookup_insert_ne by done. apply effect_refl.
Qed.

Lemma extractEntry_effect dest h body intact target fs p :
  strings.HasPrefix target dest = true →
  tar.Typeflag h ≠ tar.TypeSymlink →
  effect dest p (fs !! p) ((extractEntry h body intact target fs).1 !! p).
Proof.
  intros Hpre Hsym. unfold extractEntry.
  destruct (decide (tar.Typeflag h = tar.TypeDir)).
  { unfold os.MkdirAll.
    pose proof (mkdir_chain_effect dest (os.chain target) fs p) as H.
    by destruct (os.mkdir_chain (os.chain target) fs) as [fs1 ok]. }
  destruct (decide (tar.Typeflag h = tar.TypeReg)).
  { unfold os.MkdirAll.
    pose proof (mkdir_chain_effect dest (os.chain (filepath.Dir target)) fs p) as H.
    destruct (os.mkdir_chain (os.chain (filepath.Dir target)) fs) as [fs1 ok].
    destruct ok; [|done]. cbn [negb].
    destruct (os.WriteFile target (tar.Mode h) body fs1) as [fs2|] eqn:Hw; [|done].
    cbn [fst] in *. eapply effect_trans; [exact H|].
    by eapply WriteFile_effect. }
  destruct (decide (tar.Typeflag h = tar.TypeSymlink)); [done|].
  apply effect_refl.
Qed.

Lemma extractItems_effect dest (items : list tar.item) : ∀ fs p,
  no_symlink_entries items →
  effect dest p (fs !! p) ((extractItems items dest fs).1 !! p).
Proof.
  induction items as [|[h body intact|] items IH]; intros fs p Hitems;
    cbn [extractItems]; try apply effect_refl.
  apply Forall_cons in Hitems as [Hh Hitems].
  destruct (strings.HasPrefix (filepath.Join [dest; tar.Name h]) dest) eqn:Hpre;
    cbn [negb]; [|apply effect_refl].
  pose proof (extractEntry_effect dest h body intact _ fs p Hpre Hh) as H.
  destruct (extractEntry h body intact _ fs) as [fs1 [e|]]; [done|].
  cbn [fst] in H. eapply effect_trans; [exact H|]. by apply IH.
Qed.

Lemma effect_no_symlinks dest (fs fs' : os.filesystem) :
  no_symlinks fs → (∀ p, effect dest p (fs !! p) (fs' !! p)) → no_symlinks fs'.
Proof.
  intros Hfs Heff p x Hp. specialize (Heff p). specialize (Hfs p).
  unfold effect in Heff. rewrite Hp in Heff.
  destruct (fs !! p) as [[|m d|t']|].
  - by simplify_eq.
  - destruct Heff as [?|[_ [? ?]]]; by simplify_eq.
  - simplify_eq. by apply (Hfs (os.FsSymlink t')).
  - destruct Heff as [?|[?|[_ (? & ? & ?)]]]; by simplify_eq.
Qed.

Section Extraction.
Variable untar : string → list tar.item.

(** X15. Extracting an archive without symbolic links into a file
    system without symbolic links, whether it succeeds or fails, removes
    nothing and changes the kind of nothing. Where the destination is
    not a prefix of a path, it leaves what is there and creates at most
    a directory; regular files are created, and their content replaced
    with the mode kept, only at paths that have the destination as a
    prefix. No symbolic link appears. *)
Theorem extraction_effects (tarPath destDir : string) (fs : os.filesystem) :
  no_symlinks fs →
  (∀ m data, fs !! tarPath = Some (os.FsFile m data) → no_symlink_entries (untar data)) →
  let fs' := (ExtractTar untar tarPath destDir fs).1 in
  no_symlinks fs' ∧
  ∀ p, match fs !! p with
       | None =>
           fs' !! p = None ∨ fs' !! p = Some os.FsDir ∨
           (strings.HasPrefix p destDir = true ∧ ∃ m d, fs' !! p = Some (os.FsFile m d))
       | Some (os.FsFile m d) =>
           fs' !! p = Some (os.FsFile m d) ∨
           (strings.HasPrefix p destDir = true ∧ ∃ d', fs' !! p = Some (os.FsFile m d'))
       | Some x => fs' !! p = Some x
       end.
Proof.
  intros Hfs Htar. cbv zeta.
  assert (∀ p, effect destDir p (fs !! p) ((ExtractTar untar tarPath destDir fs).1 !! p))
    as Heff.
  { intros p. unfold ExtractTar, openTar.
    destruct (fs !! tarPath) as [[|m data|t]|] eqn:Ht; try apply effect_refl.
    apply extractItems_effect. by eapply Htar. }
  split; [by eapply effect_no_symlinks|].
  intros p. specialize (Heff p). unfold effect in Heff.
  by destruct (fs !! p) as [[| |]|].
Qed.

End Extraction.

Lemma extraction_effects_witness :
  let fs' := (ExtractTar sample_untar "/in/layer.tar" "/out" sample_fs).1 in
  no_symlinks fs' ∧
  ∀ p, match sample_fs !! p with
       | None =>
           fs' !! p = None ∨ fs' !! p = Some os.FsDir ∨
           (strings.HasPrefix p "/out" = true ∧ ∃ m d, fs' !! p = Some (os.FsFile m d))
       | Some (os.FsFile m d) =>
           fs' !! p = Some (os.FsFile m d) ∨
           (strings.HasPrefix p "/out" = true ∧ ∃ d', fs' !! p = Some (os.FsFile m d'))
       | Some x => fs' !! p = Some x
       end.
Proof.
  apply (extraction_effects sample_untar "/in/layer.tar" "/out" sample_fs).
  - apply (bool_decide_eq_true_1 (no_symlinks sample_fs)). vm_compute. reflexivity.
  - intros m data [= <- <-]. vm_compute.
    repeat constructor; discriminate.
Defined.

(** ** Extraction entry by entry *)

Lemma same_kind_refl x : same_kind x x.
Proof. by destruct x. Qed.

Lemma same_kind_trans x y z : same_kind x y → same_kind y z → same_kind x z.
Proof. destruct x, y, z; simpl; try done; congruence. Qed.

Lemma kept_refl fs : kept fs fs.
Proof. intros p x Hp. exists x. split; [done|apply same_kind_refl]. Qed.

Lemma kept_trans fs1 fs2 fs3 : kept fs1 fs2 → kept fs2 fs3 → kept fs1 fs3.
Proof.
  intros H12 H23 p x Hp. destruct (H12 p x Hp) as (y & Hy & Hxy).
  destruct (H23 p y Hy) as (z & Hz & Hyz). exists z. split; [done|].
  by eapply same_kind_trans.
Qed.

Lemma kept_insert_new fs p x : fs !! p = None → kept fs (<[p := x]> fs).
Proof.
  intros Hp q y Hq. exists y. split; [|apply same_kind_refl].
  rewrite lookup_insert_ne; [done|]. intros ->. congruence.
Qed.

(** [MkdirAll] changes no existing entry. *)
Lemma mkdir_chain_lookup (ps : list string) : ∀ fs p x,
  fs !! p = Some x → (os.mkdir_chain ps fs).1 !! p = Some x.
Proof.
  induction ps as [|q ps IH]; intros fs p x Hp; cbn [os.mkdir_chain]; [done|].
  destruct (os.implicit_dir q); [by apply IH|].
  destruct (fs !! q) as [[| |]|] eqn:Hq; try done; [by apply IH|].
  apply IH. rewrite lookup_insert_ne; [done|]. intros ->. congruence.
Qed.

Lemma mkdir_chain_new (ps : list string) : ∀ fs p,
  fs !! p = None →
  (os.mkdir_chain ps fs).1 !! p = None ∨ (os.mkdir_chain ps fs).1 !! p = Some os.FsDir.
Proof.
  induction ps as [|q ps IH]; intros fs p Hp; cbn [os.mkdir_chain]; [by left|].
  destruct (os.implicit_dir q); [by apply IH|].
  destruct (fs !! q) as [[| |]|] eqn:Hq; try (by left); [by apply IH|].
  destruct (decide (p = q)) as [->|Hne].
  - right. apply mkdir_chain_lookup. by rewrite lookup_insert_eq.
  - apply IH. by rewrite lookup_insert_ne.
Qed.

Lemma WriteFile_kept name mode body fs fs' :
  os.WriteFile name mode body fs = Some fs' → kept fs fs'.
Proof.
  unfold os.WriteFile. destruct (os.implicit_dir name); [done|].
  destruct (fs !! name) as [[|m old|t]|] eqn:Hname; try done.
  - intros [= <-] p x Hp. destruct (decide (p = name)) as [->|Hne].
    + rewrite lookup_insert_eq. rewrite Hname in Hp. injection Hp as <-.
      eexists. split; [done|]. done.
    + rewrite lookup_insert_ne by done. exists x. split; [done|apply same_kind_refl].
  - destruct (os.IsDir fs (filepath.Dir name)); [|done].
    intros [= <-]. by apply kept_insert_new.
Qed.

Lemma WriteFile_other name mode body fs fs' p :
  os.WriteFile name mode body fs = Some fs' → p ≠ name → fs' !! p = fs !! p.
Proof.
  unfold os.WriteFile. destruct (os.implicit_dir name); [done|].
  destruct (fs !! name) as [[|m old|t]|] eqn:Hname; try done.
  - intros [= <-] Hne. by rewrite lookup_insert_ne.
  - destruct (os.IsDir fs (filepath.Dir name)); [|done].
    intros [= <-] Hne. by rewrite lookup_insert_ne.
Qed.

Lemma Symlink_inv oldname newname fs fs' :
  os.Symlink oldname newname fs = Some fs' →
  fs !! newname = None ∧ fs' = <[newname := os.FsSymlink oldname]> fs.
Proof.
  unfold os.Symlink. destruct (os.implicit_dir newname); [done|].
  destruct (fs !! newname) eqn:Hn; [done|].
  destruct (os.IsDir fs (filepath.Dir newname)); [|done]. by intros [= <-].
Qed.

Lemma extractEntry_kept h body intact target fs :
  kept fs (extractEntry h body intact target fs).1.
Proof.
  unfold extractEntry.
  destruct (decide (tar.Typeflag h = tar.TypeDir)).
  { unfold os.MkdirAll.
    pose proof (mkdir_chain_lookup (os.chain target) fs) as H.
    destruct (os.mkdir_chain (os.chain target) fs) as [fs1 ok]. cbn [fst] in *.
    intros p x Hp. exists x. split; [by apply H|apply same_kind_refl]. }
  destruct (decide (tar.Typeflag h = tar.TypeReg)).
  { unfold os.MkdirAll.
    pose proof (mkdir_chain_lookup (os.chain (filepath.Dir target)) fs) as H.
    destruct (os.mkdir_chain (os.chain (filepath.Dir target)) fs) as [fs1 ok].
    cbn [fst] in *.
    assert (kept fs fs1) as H1.
    { intros p x Hp. exists x. split; [by apply H|apply same_kind_refl]. }
    destruct ok; [|done]. cbn [negb].
    destruct (os.WriteFile target (tar.Mode h) body fs1) as [fs2|] eqn:Hw; [|done].
    cbn [fst]. eapply kept_trans; [exact H1|]. by eapply WriteFile_kept. }
  destruct (decide (tar.Typeflag h = tar.TypeSymlink)); [|apply kept_refl].
  destruct (os.Symlink (tar.Linkname h) target fs) as [fs1|] eqn:Hs; [|apply kept_refl].
  apply Symlink_inv in Hs as [Hnew ->]. by apply kept_insert_new.
Qed.

(** Entries are never removed and never change their kind. *)
Lemma extractItems_kept dest (items : list tar.item) : ∀ fs,
  kept fs (extractItems items dest fs).1.
Proof.
  induction items as [|[h body intact|] items IH]; intros fs; cbn [extractItems];
    try apply kept_refl.
  destruct (negb _); [apply kept_refl|].
  pose proof (extractEntry_kept h body intact (filepath.Join [dest; tar.Name h]) fs) as H.
  destruct (extractEntry h body intact _ fs) as [fs1 [e|]]; [done|].
  eapply kept_trans; [exact H|apply IH].
Qed.

(** An entry leaves what is at another path than its own, apart from
    creating directories. *)
Lemma extractEntry_other h body intact target fs p :
  p ≠ target →
  let fs' := (extractEntry h body intact target fs).1 in
  fs' !! p = fs !! p ∨ (fs !! p = None ∧ fs' !! p = Some os.FsDir).
Proof.
  intros Hne. cbv zeta. unfold extractEntry.
  assert (∀ ps, let fs1 := (os.mkdir_chain ps fs).1 in
            fs1 !! p = fs !! p ∨ (fs !! p = None ∧ fs1 !! p = Some os.FsDir)) as Hmk.
  { intros ps. cbv zeta. destruct (fs !! p) as [x|] eqn:Hp.
    - left. by apply mkdir_chain_lookup.
    - destruct (mkdir_chain_new ps fs p Hp) as [->| ->]; auto. }
  destruct (decide (tar.Typeflag h = tar.TypeDir)).
  { unfold os.MkdirAll. specialize (Hmk (os.chain target)).
    by destruct (os.mkdir_chain (os.chain target) fs) as [fs1 ok]. }
  destruct (decide (tar.Typeflag h = tar.TypeReg)).
  { unfold os.MkdirAll. specialize (Hmk (os.chain (filepath.Dir target))).
    destruct (os.mkdir_chain (os.chain (filepath.Dir target)) fs) as [fs1 ok].
    destruct ok; [|done]. cbn [negb].
    destruct (os.WriteFile target (tar.Mode h) body fs1) as [fs2|] eqn:Hw; [|done].
    cbn [fst] in *. by rewrite (WriteFile_other _ _ _ _ _ p Hw Hne). }
  destruct (decide (tar.Typeflag h = tar.TypeSymlink)); [|by left].
  destruct (os.Symlink (tar.Linkname h) target fs) as [fs1|] eqn:Hs; [|by left].
  apply Symlink_inv in Hs as [Hnew ->]. cbn [fst]. left. by rewrite lookup_insert_ne.
Qed.

(** X16. The extraction loop goes through the entries in order and
    stops at the first one that fails: nothing is undone, and the
    entries after it are not looked at. Extracting [good ++ bad :: rest],
    where [good] extracts without error and [bad] then fails, leaves
    what [good] and the failed attempt at [bad] wrote and returns the
    error of [bad], whatever [rest] is. *)
Theorem extraction_is_not_undone (destDir : string) (good rest : list tar.item)
    (bad : tar.item) (fs fs1 fs2 : os.filesystem) (e : error) :
  extractItems good destDir fs = (fs1, None) →
  extractItems [bad] destDir fs1 = (fs2, Some e) →
  extractItems (good ++ bad :: rest) destDir fs = (fs2, Some e).
Proof.
  revert fs. induction good as [|[h body intact|] good IH]; intros fs Hgood Hbad.
  - injection Hgood as ->. cbn [app]. cbn [extractItems] in *.
    destruct bad as [h body intact|]; [|done].
    destruct (negb _); [done|].
    by destruct (extractEntry h body intact _ fs1) as [fs' [e'|]].
  - cbn [app extractItems] in *. destruct (negb _); [done|].
    destruct (extractEntry h body intact _ fs) as [fs' [e'|]]; [done|]. by apply IH.
  - done.
Qed.

Lemma extraction_is_not_undone_witness :
  let fs1 := (extractItems sample_items "/out" sample_fs).1 in
  extractItems (sample_items ++ tar.Corrupt :: sample_items) "/out" sample_fs
  = (fs1, Some ErrReadTar).
Proof.
  apply (extraction_is_not_undone "/out" sample_items sample_items tar.Corrupt sample_fs
           (extractItems sample_items "/out" sample_fs).1
           (extractItems sample_items "/out" sample_fs).1 ErrReadTar).
  - vm_compute. reflexivity.
  - vm_compute. reflexivity.
Defined.

Lemma extractItems_symlink_target dest (items : list tar.item) h body intact : ∀ fs fs1,
  extractItems items dest fs = (fs1, None) →
  tar.Entry h body intact ∈ items → tar.Typeflag h = tar.TypeSymlink →
  is_Some (fs1 !! filepath.Join [dest; tar.Name h]).
Proof.
  induction items as [|[h' body' intact'|] items IH]; intros fs fs1 Hrun Hin Hsym;
    [by apply elem_of_nil in Hin| |done].
  cbn [extractItems] in Hrun. destruct (negb _); [done|].
  destruct (extractEntry h' body' intact' _ fs) as [fs' [e'|]] eqn:Hentry; [done|].
  apply elem_of_cons in Hin as [Heq|Hin]; [|by eapply IH].
  injection Heq as <- <- <-.
  assert (is_Some (fs' !! filepath.Join [dest; tar.Name h])) as [x Hx].
  { unfold extractEntry in Hentry.
    destruct (decide (tar.Typeflag h = tar.TypeDir)) as [Hd|_]; [by rewrite Hsym in Hd|].
    destruct (decide (tar.Typeflag h = tar.TypeReg)) as [Hr|_]; [by rewrite Hsym in Hr|].
    rewrite decide_True in Hentry by done.
    destruct (os.Symlink _ _ fs) as [fs''|] eqn:Hs; [|done].
    injection Hentry as <-. apply Symlink_inv in Hs as [_ ->].
    rewrite lookup_insert_eq. eauto. }
  pose proof (extractItems_kept dest items fs' _ x Hx) as (y & Hy & _).
  rewrite Hrun in Hy. eauto.
Qed.

Lemma extractItems_symlink_exists dest (items : list tar.item) h body intact : ∀ fs,
  tar.Entry h body intact ∈ items → tar.Typeflag h = tar.TypeSymlink →
  is_Some (fs !! filepath.Join [dest; tar.Name h]) →
  (extractItems items dest fs).2 ≠ None.
Proof.
  induction items as [|[h' body' intact'|] items IH]; intros fs Hin Hsym Hex;
    [by apply elem_of_nil in Hin| |done].
  cbn [extractItems]. destruct (negb _) eqn:Hpre; [done|].
  apply elem_of_cons in Hin as [Heq|Hin].
  - injection Heq as <- <- <-. unfold extractEntry.
    destruct (decide (tar.Typeflag h = tar.TypeDir)) as [Hd|_]; [by rewrite Hsym in Hd|].
    destruct (decide (tar.Typeflag h = tar.TypeReg)) as [Hr|_]; [by rewrite Hsym in Hr|].
    rewrite decide_True by done.
    destruct (os.Symlink _ _ fs) as [fs''|] eqn:Hs; [|done].
    apply Symlink_inv in Hs as [Hnone _]. destruct Hex as [x Hx]. congruence.
  - pose proof (extractEntry_kept h' body' intact' (filepath.Join [dest; tar.Name h']) fs)
      as Hkept.
    destruct (extractEntry h' body' intact' _ fs) as [fs' [e'|]]; [done|].
    apply IH; [done|done|]. destruct Hex as [x Hx].
    destruct (Hkept _ x Hx) as (y & Hy & _). eauto.
Qed.

Section Extraction.
Variable untar : string → list tar.item.

(** X17. An archive with a symbolic link cannot be extracted twice into
    the same place: when [ExtractTar] has succeeded and the tarball is
    still what it was, a second call with the same arguments fails,
    because the link it would create exists. *)
Theorem symlink_archive_extracts_once (tarPath destDir : string) (fs fs1 : os.filesystem)
    (m : Z) (data : string) (h : tar.Header) (body : string) (intact : bool) :
  fs !! tarPath = Some (os.FsFile m data) →
  tar.Entry h body intact ∈ untar data → tar.Typeflag h = tar.TypeSymlink →
  ExtractTar untar tarPath destDir fs = (fs1, None) →
  fs1 !! tarPath = Some (os.FsFile m data) →
  (ExtractTar untar tarPath destDir fs1).2 ≠ None.
Proof.
  intros Htar Hin Hsym Hrun Htar1. unfold ExtractTar, openTar in *.
  rewrite Htar in Hrun. rewrite Htar1.
  eapply extractItems_symlink_exists; [done|done|].
  by eapply extractItems_symlink_target.
Qed.

End Extraction.

Lemma symlink_archive_extracts_once_witness :
  let fs := {[ "/in/layer.tar" := os.FsFile 420 "links" ]} : os.filesystem in
  let fs1 := (ExtractTar (λ _, link_items) "/in/layer.tar" "/out" fs).1 in
  (ExtractTar (λ _, link_items) "/in/layer.tar" "/out" fs1).2 ≠ None.
Proof.
  cbv zeta.
  apply (symlink_archive_extracts_once (λ _, link_items) "/in/layer.tar" "/out"
           {[ "/in/layer.tar" := os.FsFile 420 "links" ]} _ 420 "links"
           (tar.mkHeader "bin/sh" tar.TypeSymlink "busybox" 511) "" true).
  - vm_compute. reflexivity.
  - unfold link_items. apply elem_of_cons. right. apply elem_of_cons. by left.
  - reflexivity.
  - vm_compute. reflexivity.
  - vm_compute. reflexivity.
Defined.

(** ** What extraction writes *)

Lemma TypeReg_not_TypeDir : tar.TypeReg ≠ tar.TypeDir.
Proof. done. Qed.

Lemma extractItems_file_stays dest (items : list tar.item) p m d : ∀ fs,
  Forall (λ it, target_of dest it ≠ Some p) items →
  fs !! p = Some (os.FsFile m d) →
  (extractItems items dest fs).1 !! p = Some (os.FsFile m d).
Proof.
  induction items as [|[h body intact|] items IH]; intros fs Hitems Hp;
    cbn [extractItems]; try done.
  apply Forall_cons in Hitems as [Hit Hitems].
  destruct (negb _); [done|].
  assert (p ≠ filepath.Join [dest; tar.Name h]) as Hne.
  { intros ->. by apply Hit. }
  pose proof (extractEntry_other h body intact _ fs p Hne) as Hother.
  destruct (extractEntry h body intact _ fs) as [fs1 [e|]]; cbn [fst] in *.
  - destruct Hother as [->|[? _]]; [done|congruence].
  - apply IH; [done|]. destruct Hother as [->|[? _]]; [done|congruence].
Qed.

Lemma extractItems_dir_blocks dest (items : list tar.item) i h body intact : ∀ fs,
  fs !! filepath.Join [dest; tar.Name h] = Some os.FsDir →
  items !! i = Some (tar.Entry h body intact) → tar.Typeflag h = tar.TypeReg →
  (extractItems items dest fs).2 ≠ None.
Proof.
  revert i. induction items as [|[h' body' intact'|] items IH]; intros i fs Hdir Hi Hreg;
    [done| |done].
  cbn [extractItems]. destruct (negb _); [done|].
  destruct i as [|i]; simpl in Hi.
  - injection Hi as -> -> ->. unfold extractEntry.
    rewrite decide_False by (rewrite Hreg; apply TypeReg_not_TypeDir).
    rewrite decide_True by done.
    unfold os.MkdirAll.
    pose proof (mkdir_chain_lookup (os.chain (filepath.Dir (filepath.Join [dest; tar.Name h])))
                  fs _ _ Hdir) as Hstay.
    destruct (os.mkdir_chain _ fs) as [fs1 ok]. cbn [fst] in Hstay.
    destruct ok; [|done]. cbn [negb].
    unfold os.WriteFile. destruct (os.implicit_dir _); [done|]. by rewrite Hstay.
  - pose proof (extractEntry_kept h' body' intact' (filepath.Join [dest; tar.Name h']) fs
                  _ _ Hdir) as (y & Hy & Hkind).
    destruct (extractEntry h' body' intact' _ fs) as [fs1 [e|]]; [done|].
    cbn [fst] in Hy. destruct y; try done. by eapply IH.
Qed.

(** X18. Where neither the file system nor the archive has a symbolic
    link, a successful extraction leaves every regular file of the
    archive in the file system with the content of its entry, read in
    full, when nothing was at its path before and no other entry of the
    archive is extracted to that path. *)
Theorem extracted_file_round_trip (destDir : string) (items : list tar.item)
    (fs fs' : os.filesystem) (i : nat) (h : tar.Header) (body : string) (intact : bool) :
  no_symlinks fs → no_symlink_entries items →
  extractItems items destDir fs = (fs', None) →
  items !! i = Some (tar.Entry h body intact) →
  tar.Typeflag h = tar.TypeReg →
  fs !! filepath.Join [destDir; tar.Name h] = None →
  (∀ j it, j ≠ i → items !! j = Some it →
           target_of destDir it ≠ Some (filepath.Join [destDir; tar.Name h])) →
  (∃ mode, fs' !! filepath.Join [destDir; tar.Name h] = Some (os.FsFile mode body)) ∧
  intact = true.
Proof.
  intros _ _. revert i fs.
  induction items as [|it items IH]; intros i fs Hrun Hi Hreg Hnew Hothers; [done|].
  set (target := filepath.Join [destDir; tar.Name h]) in *.
  destruct i as [|i]; simpl in Hi.
  - injection Hi as ->. cbn [extractItems] in Hrun. fold target in Hrun.
    destruct (negb _); [done|].
    unfold extractEntry in Hrun.
    rewrite decide_False in Hrun by (rewrite Hreg; apply TypeReg_not_TypeDir).
    rewrite decide_True in Hrun by done.
    unfold os.MkdirAll in Hrun.
    pose proof (mkdir_chain_new (os.chain (filepath.Dir target)) fs target Hnew) as Hmk.
    destruct (os.mkdir_chain _ fs) as [fs1 ok]. cbn [fst] in Hmk.
    destruct ok; [|done]. cbn [negb] in Hrun.
    destruct (os.WriteFile target (tar.Mode h) body fs1) as [fs2|] eqn:Hw; [|done].
    destruct intact; [|done].
    assert (fs2 !! target = Some (os.FsFile (tar.Mode h) body)) as Hfile.
    { unfold os.WriteFile in Hw. destruct (os.implicit_dir target); [done|].
      destruct Hmk as [Hmk|Hmk]; rewrite Hmk in Hw; [|done].
      destruct (os.IsDir fs1 _); [|done]. injection Hw as <-.
      by rewrite lookup_insert_eq. }
    split; [|done]. exists (tar.Mode h).
    assert (fs' = (extractItems items destDir fs2).1) as -> by (by rewrite Hrun).
    apply extractItems_file_stays; [|done].
    apply Forall_forall. intros it' Hin.
    apply list_elem_of_lookup in Hin as [j Hj].
    apply (Hothers (S j)); [done|done].
  - assert (target_of destDir it ≠ Some target) as Hit by (by apply (Hothers 0)).
    destruct it as [h' body' intact'|]; [|done].
    cbn [extractItems] in Hrun. destruct (negb _); [done|].
    assert (target ≠ filepath.Join [destDir; tar.Name h']) as Hne.
    { intros Heq. apply Hit. simpl. by rewrite Heq. }
    pose proof (extractEntry_other h' body' intact' _ fs target Hne) as Hother.
    destruct (extractEntry h' body' intact' _ fs) as [fs1 [e|]]; [done|].
    cbn [fst] in Hother. rewrite Hnew in Hother.
    destruct Hother as [Hsame|[_ Hdir]].
    + apply (IH i fs1); try done.
      intros j it' Hj Hit'. apply (Hothers (S j)); [lia|done].
    + exfalso.
      pose proof (extractItems_dir_blocks destDir items i h body intact fs1 Hdir Hi Hreg)
        as Hblock.
      by rewrite Hrun in Hblock.
Qed.

Lemma extracted_file_round_trip_witness :
  let fs' := (extractItems sample_items "/out" sample_fs).1 in
  (∃ mode, fs' !! filepath.Join ["/out"; "etc/motd"] = Some (os.FsFile mode "hello")) ∧
  true = true.
Proof.
  apply (extracted_file_round_trip "/out" sample_items sample_fs _ 1
           (tar.mkHeader "etc/motd" tar.TypeReg "" 420) "hello" true).
  - apply (bool_decide_eq_true_1 (no_symlinks sample_fs)). vm_compute. reflexivity.
  - repeat constructor; discriminate.
  - vm_compute. reflexivity.
  - reflexivity.
  - reflexivity.
  - vm_compute. reflexivity.
  - intros [|[|j]] it Hj Hit; [|done|done].
    injection Hit as <-. vm_compute. discriminate.
Defined.
